(** * Magic-hexagon search: a shallow embedding of [solve-hex.cpp]

    The program enumerates the placements of 1..19 into the 19 cells of
    the order-3 hexagon such that each of the 15 lines sums to 38.

    Conventions of the embedding.
    - A [uint8_t] is a [Z]; the only place where the source narrows an
      [int] back to [uint8_t] is the computation of [needed], written
      out here with [to_uint8].  Sums of cells are computed in [int] in
      the source (integral promotion) and never overflow.
    - [std::vector<uint8_t>] and [std::array<uint8_t, 19>] are [list Z];
      [v[i]] is the total lookup [v !!! i].  An out-of-range subscript is
      undefined behaviour in the source and reads [0] here; every
      statement below that depends on a subscript carries the bound that
      keeps it in range.
    - [size_t] counters and indices are [nat].  Inside the engines they
      stay within 0..19, so no wrap-around of [++]/[--] is reachable;
      the attempt counter is a [Z] reduced modulo 2^64.
    - A loop [for (i = start; i != N_Hexes; ++i)] makes [N_Hexes - start]
      iterations.  Entered with [start] beyond 19 the source would run
      off the array; the model then makes no iteration, and no statement
      below is about such a call.
    - The callback [consume_fun] is the Solution Sink.  An engine run is
      modelled by the list of boards handed to the sink, in call order.
    - The recursive member functions are written with the recursive call
      as a parameter [self] and closed by a count of the remaining
      levels; the lemmas [*_fuel_enough] and [*_unfold] show that the
      count is never exhausted and that the closed function satisfies
      the recursion equation of the source. *)

From Stdlib Require Import ZArith Lia String.
From stdpp Require Import base tactics option list numbers sorting.

Local Open Scope Z_scope.

(** ** Constants and line sums *)

Definition N_Hexes : nat := 19.
Definition Required_Sum : Z := 38.

Definition to_uint8 (z : Z) : Z := z mod 256.
Definition to_size_t (z : Z) : Z := z mod 2 ^ 64.

(** Short-circuit [&&] and [||] of the source. *)
Notation "a 'and_then' b" := (if a then b else false)
  (at level 41, right associativity, only parsing).
Notation "a 'or_else' b" := (if a then true else b)
  (at level 51, right associativity, only parsing).

(** The fold expression [(board[idxs] + ...)]. *)
Definition fold_plus (board : list Z) (idxs : list nat) : Z :=
  foldr (fun idx acc => board !!! idx + acc) 0 idxs.

Definition sum_correct (board : list Z) (idxs : list nat) : bool :=
  fold_plus board idxs =? Required_Sum.

(** ** Process-wide attempt counters and [CheckHardcoded] *)

Record Counters := mkCounters {
  n_attempts : Z;
  n_attempts_log_period : Z;
  n_attempts_bail : Z
}.

Definition initial_counters : Counters :=
  mkCounters 0 10000000 100000000.

(** What a run makes visible: sink invocations and the two messages
    that [is_solution] writes to standard output. *)
Inductive Event :=
| Consumed (board : list Z)
| AttemptsLogged (n : Z)
| Stopping.

(** A computation over the counters either returns or leaves through
    [std::exit]. *)
Inductive Outcome (A : Type) :=
| Returned (a : A) (g : Counters)
| Exited.
Arguments Returned {A} a g.
Arguments Exited {A}.

Definition Run (A : Type) : Type := Counters -> list Event * Outcome A.

#[global] Instance run_ret : MRet Run :=
  fun A (a : A) g => ([], Returned a g).

#[global] Instance run_bind : MBind Run :=
  fun A B (k : A -> Run B) (m : Run A) g =>
    match m g with
    | (ev, Returned a g') => let '(ev', r) := k a g' in (ev ++ ev', r)
    | (ev, Exited) => (ev, Exited)
    end.

Definition emit (e : Event) : Run unit := fun g => ([e], Returned tt g).

(** A [for] loop whose body is run once per element, in order. *)
Fixpoint for_each {A} (xs : list A) (body : A -> Run unit) : Run unit :=
  match xs with
  | [] => mret tt
  | x :: xs' => body x ;; for_each xs' body
  end.

Definition events {A} (r : list Event * Outcome A) : list Event := fst r.

Definition consumed_boards (evs : list Event) : list (list Z) :=
  flat_map (fun e => match e with Consumed b => [b] | _ => [] end) evs.

Module CheckHardcoded.

Definition raster_lines_ok (board : list Z) : bool :=
  sum_correct board [0; 1; 2]%nat
  and_then sum_correct board [3; 4; 5; 6]%nat
  and_then sum_correct board [7; 8; 9; 10; 11]%nat
  and_then sum_correct board [12; 13; 14; 15]%nat
  and_then sum_correct board [16; 17; 18]%nat
  and_then sum_correct board [0; 3; 7]%nat
  and_then sum_correct board [1; 4; 8; 12]%nat
  and_then sum_correct board [2; 5; 9; 13; 16]%nat
  and_then sum_correct board [6; 10; 14; 17]%nat
  and_then sum_correct board [11; 15; 18]%nat
  and_then sum_correct board [2; 6; 11]%nat
  and_then sum_correct board [1; 5; 10; 15]%nat
  and_then sum_correct board [0; 4; 9; 14; 18]%nat
  and_then sum_correct board [3; 8; 13; 17]%nat
  and_then sum_correct board [7; 12; 16]%nat.

Definition is_solution (board : list Z) : Run bool :=
  fun g =>
    let n := to_size_t (n_attempts g + 1) in
    let g' := mkCounters n (n_attempts_log_period g) (n_attempts_bail g) in
    let logged :=
      if n mod n_attempts_log_period g =? 0 then [AttemptsLogged n] else [] in
    if n =? n_attempts_bail g then (logged ++ [Stopping], Exited)
    else (logged, Returned (raster_lines_ok board) g').

End CheckHardcoded.

Definition spiral_solution_is_correct (board : list Z) : bool :=
  sum_correct board [0; 1; 2]%nat
  and_then sum_correct board [11; 12; 13; 3]%nat
  and_then sum_correct board [10; 17; 18; 14; 4]%nat
  and_then sum_correct board [9; 16; 15; 5]%nat
  and_then sum_correct board [8; 7; 6]%nat
  and_then sum_correct board [0; 11; 10]%nat
  and_then sum_correct board [1; 12; 17; 9]%nat
  and_then sum_correct board [2; 13; 18; 16; 8]%nat
  and_then sum_correct board [3; 14; 15; 7]%nat
  and_then sum_correct board [4; 5; 6]%nat
  and_then sum_correct board [2; 3; 4]%nat
  and_then sum_correct board [1; 13; 14; 5]%nat
  and_then sum_correct board [0; 12; 18; 15; 6]%nat
  and_then sum_correct board [11; 17; 16; 7]%nat
  and_then sum_correct board [10; 9; 8]%nat.

(** The Line Constraint Table, raster labeling. *)
Definition hex_lines : list (list nat) :=
  [ [0; 1; 2];
    [3; 4; 5; 6];
    [7; 8; 9; 10; 11];
    [12; 13; 14; 15];
    [16; 17; 18];
    [0; 3; 7];
    [1; 4; 8; 12];
    [2; 5; 9; 13; 16];
    [6; 10; 14; 17];
    [11; 15; 18];
    [2; 6; 11];
    [1; 5; 10; 15];
    [0; 4; 9; 14; 18];
    [3; 8; 13; 17];
    [7; 12; 16] ]%nat.

(** The same table for the spiral labeling: the fifteen index lists of
    [spiral_solution_is_correct], in its order. *)
Definition spiral_lines : list (list nat) :=
  [ [0; 1; 2];
    [11; 12; 13; 3];
    [10; 17; 18; 14; 4];
    [9; 16; 15; 5];
    [8; 7; 6];
    [0; 11; 10];
    [1; 12; 17; 9];
    [2; 13; 18; 16; 8];
    [3; 14; 15; 7];
    [4; 5; 6];
    [2; 3; 4];
    [1; 13; 14; 5];
    [0; 12; 18; 15; 6];
    [11; 17; 16; 7];
    [10; 9; 8] ]%nat.

Inductive FillOrder := Raster | Spiral.

Definition lines_of (fo : FillOrder) : list (list nat) :=
  match fo with Raster => hex_lines | Spiral => spiral_lines end.

(** [std::iota(first, last, 1)] over 19 slots. *)
Definition iota_1_19 : list Z :=
  [1; 2; 3; 4; 5; 6; 7; 8; 9; 10; 11; 12; 13; 14; 15; 16; 17; 18; 19].

(** The switch of [solve_deduce_last_cell_of_line] and of
    [ArrayBoardState::solve]: what is done when [n] cells are filled. *)
Inductive PlanStep :=
| Branch
| DeduceFrom (have_idxs : list nat)
| Terminal
| NoCase.

Definition spiral_plan (n_filled : nat) : PlanStep :=
  match n_filled with
  | 0 | 1 | 3 | 5 | 7 | 9 | 12 => Branch
  | 2 => DeduceFrom [0; 1]
  | 4 => DeduceFrom [2; 3]
  | 6 => DeduceFrom [4; 5]
  | 8 => DeduceFrom [7; 6]
  | 10 => DeduceFrom [8; 9]
  | 11 => DeduceFrom [0; 10]
  | 13 => DeduceFrom [3; 11; 12]
  | 14 => DeduceFrom [1; 5; 13]
  | 15 => DeduceFrom [3; 7; 14]
  | 16 => DeduceFrom [5; 9; 15]
  | 17 => DeduceFrom [7; 11; 16]
  | 18 => DeduceFrom [4; 10; 14; 17]
  | 19 => Terminal
  | _ => NoCase
  end%nat.

(** ** The vector-based search state *)

Module BoardState.

Record t := mk {
  board : list Z;
  available : list Z
}.

(** [BoardState(consume_fun)] *)
Definition initial : t := mk [] iota_1_19.

Definition incorrect_already (fo : FillOrder) (st : t) : bool :=
  let b := board st in
  let n_filled := length b in
  match fo with
  | Raster =>
      ((n_filled =? 3)%nat and_then negb (sum_correct b [0; 1; 2]%nat))
      or_else ((n_filled =? 7)%nat and_then negb (sum_correct b [3; 4; 5; 6]%nat))
      or_else ((n_filled =? 8)%nat and_then negb (sum_correct b [0; 3; 7]%nat))
      or_else ((n_filled =? 12)%nat and_then negb (sum_correct b [7; 8; 9; 10; 11]%nat))
      or_else ((n_filled =? 12)%nat and_then negb (sum_correct b [2; 6; 11]%nat))
      or_else ((n_filled =? 13)%nat and_then negb (sum_correct b [1; 4; 8; 12]%nat))
      or_else ((n_filled =? 16)%nat and_then negb (sum_correct b [12; 13; 14; 15]%nat))
      or_else ((n_filled =? 16)%nat and_then negb (sum_correct b [1; 5; 10; 15]%nat))
      or_else ((n_filled =? 17)%nat and_then negb (sum_correct b [7; 12; 16]%nat))
      or_else ((n_filled =? 17)%nat and_then negb (sum_correct b [2; 5; 9; 13; 16]%nat))
      or_else ((n_filled =? 18)%nat and_then negb (sum_correct b [3; 8; 13; 17]%nat))
      or_else ((n_filled =? 18)%nat and_then negb (sum_correct b [6; 10; 14; 17]%nat))
      or_else ((n_filled =? 19)%nat and_then negb (sum_correct b [0; 4; 9; 14; 18]%nat))
      or_else ((n_filled =? 19)%nat and_then negb (sum_correct b [11; 15; 18]%nat))
      or_else ((n_filled =? 19)%nat and_then negb (sum_correct b [16; 17; 18]%nat))
  | Spiral =>
      ((n_filled =? 3)%nat and_then negb (sum_correct b [0; 1; 2]%nat))
      or_else ((n_filled =? 5)%nat and_then negb (sum_correct b [2; 3; 4]%nat))
      or_else ((n_filled =? 7)%nat and_then negb (sum_correct b [4; 5; 6]%nat))
      or_else ((n_filled =? 9)%nat and_then negb (sum_correct b [6; 7; 8]%nat))
      or_else ((n_filled =? 11)%nat and_then negb (sum_correct b [8; 9; 10]%nat))
      or_else ((n_filled =? 12)%nat and_then negb (sum_correct b [0; 10; 11]%nat))
      or_else ((n_filled =? 14)%nat and_then negb (sum_correct b [3; 11; 12; 13]%nat))
      or_else ((n_filled =? 15)%nat and_then negb (sum_correct b [1; 13; 14; 5]%nat))
      or_else ((n_filled =? 16)%nat and_then negb (sum_correct b [3; 14; 15; 7]%nat))
      or_else ((n_filled =? 17)%nat and_then negb (sum_correct b [5; 15; 16; 9]%nat))
      or_else ((n_filled =? 18)%nat and_then negb (sum_correct b [7; 16; 17; 11]%nat))
      or_else ((n_filled =? 18)%nat and_then negb (sum_correct b [1; 12; 17; 9]%nat))
      or_else ((n_filled =? 19)%nat and_then negb (sum_correct b [0; 12; 18; 15; 6]%nat))
      or_else ((n_filled =? 19)%nat and_then negb (sum_correct b [2; 13; 18; 16; 8]%nat))
      or_else ((n_filled =? 19)%nat and_then negb (sum_correct b [4; 14; 18; 17; 10]%nat))
  end.

(** [board.push_back(available[idx]); available.erase(begin() + idx)] *)
Definition move_to_board (available_idx : nat) (st : t) : t :=
  mk (board st ++ [available st !!! available_idx])
     (delete available_idx (available st)).

(** One recursion level of [solve_test_as_lines_filled<FO>]; [self] is
    the recursive call, made on a modified copy of [*this]. *)
Definition solve_test_as_lines_filled_body (fo : FillOrder)
    (self : t -> list (list Z)) (st : t) : list (list Z) :=
  if incorrect_already fo st then []
  else
    let n_available := length (available st) in
    if (n_available =? 0)%nat then [board st]
    else seq 0 n_available ≫= (fun idx => self (move_to_board idx st)).

Fixpoint solve_test_as_lines_filled_fuel (fo : FillOrder) (fuel : nat)
    (st : t) : list (list Z) :=
  match fuel with
  | O => []
  | S fuel' =>
      solve_test_as_lines_filled_body fo
        (solve_test_as_lines_filled_fuel fo fuel') st
  end.

(** Each level removes one value from [available], so one more unit of
    fuel than there are available values is enough (see
    [solve_test_as_lines_filled_fuel_enough]). *)
Definition solve_test_as_lines_filled (fo : FillOrder) (st : t) : list (list Z) :=
  solve_test_as_lines_filled_fuel fo (S (length (available st))) st.

(** [std::find(available.begin(), available.end(), needed)]: the
    offset of the first match, or [None] for [available.end()]. *)
Fixpoint find (xs : list Z) (needed : Z) : option nat :=
  match xs with
  | [] => None
  | x :: xs' => if x =? needed then Some O else S <$> find xs' needed
  end.

Definition needed_for (st : t) (have_idxs : list nat) : Z :=
  to_uint8 (Required_Sum - fold_plus (board st) have_idxs).

Definition choose (self : t -> Run unit) (st : t) : Run unit :=
  for_each (seq 0 (length (available st)))
    (fun i => self (move_to_board i st)).

Definition deduce (self : t -> Run unit) (have_idxs : list nat) (st : t)
    : Run unit :=
  match find (available st) (needed_for st have_idxs) with
  | Some needed_idx => self (move_to_board needed_idx st)
  | None => mret tt
  end.

Definition solve_deduce_last_cell_of_line_body
    (self : t -> Run unit) (st : t) : Run unit :=
  match spiral_plan (length (board st)) with
  | Branch => choose self st
  | DeduceFrom have_idxs => deduce self have_idxs st
  | Terminal =>
      ok ← CheckHardcoded.is_solution (board st);
      if ok : bool then emit (Consumed (board st)) else mret tt
  | NoCase => mret tt
  end.

Fixpoint solve_deduce_last_cell_of_line_fuel (fuel : nat) (st : t)
    : Run unit :=
  match fuel with
  | O => mret tt
  | S fuel' =>
      solve_deduce_last_cell_of_line_body
        (solve_deduce_last_cell_of_line_fuel fuel') st
  end.

(** Every recursive call is made with one more filled cell and the
    switch has no case beyond 19. *)
Definition solve_deduce_last_cell_of_line (st : t) : Run unit :=
  solve_deduce_last_cell_of_line_fuel (20 - length (board st)) st.

(** *** Vocabulary for the statements about the vector engines *)

(** A complete board [b] extends the state [st] when it is [board st]
    followed by an arrangement of [available st] and no prefix of [b],
    from [board st] on, is rejected by [incorrect_already]. *)
Definition completes (fo : FillOrder) (st : t) (b : list Z) : Prop :=
  exists p, p ≡ₚ available st /\ b = board st ++ p
    /\ forall k, (length (board st) <= k <= length b)%nat ->
         incorrect_already fo (mk (take k b) []) = false.

(** The states a search passes through: the constructor's state, and
    what [move_to_board] makes of such a state. *)
Inductive reachable : t -> Prop :=
| reachable_initial : reachable initial
| reachable_move st idx :
    reachable st -> (idx < length (available st))%nat ->
    reachable (move_to_board idx st).

End BoardState.

(** ** The array-based search state *)

Inductive RecursionStrategy := CreateNew | SwapAndSwapBack.

Module ArrayBoardState.

Record t := mk {
  numbers : list Z;
  n_cells_filled : nat
}.

(** [ArrayBoardState(consume_fun)] *)
Definition initial : t := mk iota_1_19 0.

(** [std::swap(a[i], a[j])] *)
Definition swap (a : list Z) (i j : nat) : list Z :=
  <[j := a !!! i]> (<[i := a !!! j]> a).

Definition set_filled (n : nat) (st : t) : t := mk (numbers st) n.
Definition swap_numbers (i j : nat) (st : t) : t :=
  mk (swap (numbers st) i j) (n_cells_filled st).

(** The loop [for (i = start; i != N_Hexes; ++i)] of [find_needed],
    with [count] iterations left. *)
Fixpoint find_needed_loop (a : list Z) (needed_value : Z)
    (i count : nat) : nat :=
  match count with
  | O => N_Hexes
  | S count' =>
      if a !!! i =? needed_value then i
      else find_needed_loop a needed_value (S i) count'
  end.

Definition find_needed (st : t) (needed_value : Z) : nat :=
  find_needed_loop (numbers st) needed_value
    (n_cells_filled st) (N_Hexes - n_cells_filled st).

Definition find_needed_from_idxs (st : t) (have_idxs : list nat) : nat :=
  find_needed st (to_uint8 (Required_Sum - fold_plus (numbers st) have_idxs)).

(** A member function maps the state on entry to the state on return
    and the boards it handed to the sink. *)
Definition Action : Type := t -> t * list (list Z).

(** Run [body] for [i = from, from+1, ...] ([count] times), threading
    the state. *)
Fixpoint for_loop (body : nat -> Action) (from count : nat) : Action :=
  fun st =>
    match count with
    | O => (st, [])
    | S count' =>
        let '(st1, out1) := body from st in
        let '(st2, out2) := for_loop body (S from) count' st1 in
        (st2, out1 ++ out2)
    end.

(** [choose<RS>]: the value already in the next cell is explored in
    place ([++n_cells_filled; solve(); --n_cells_filled]), the others by
    the loop, on a copy ([CreateNew]) or by swapping and swapping back
    ([SwapAndSwapBack]). *)
Definition choose (rs : RecursionStrategy) (self : Action) : Action :=
  fun st =>
    let st := set_filled (S (n_cells_filled st)) st in
    let '(st, out0) := self st in
    let st := set_filled (pred (n_cells_filled st)) st in
    let '(st, outs) :=
      for_loop
        (fun i st =>
           match rs with
           | CreateNew =>
               let swapped_state := st in
               let swapped_state :=
                 swap_numbers (n_cells_filled st) i swapped_state in
               let swapped_state :=
                 set_filled (S (n_cells_filled swapped_state)) swapped_state in
               let '(_, out) := self swapped_state in
               (st, out)
           | SwapAndSwapBack =>
               let st := swap_numbers (n_cells_filled st) i st in
               let st := set_filled (S (n_cells_filled st)) st in
               let '(st, out) := self st in
               let st := set_filled (pred (n_cells_filled st)) st in
               let st := swap_numbers (n_cells_filled st) i st in
               (st, out)
           end)
        (S (n_cells_filled st)) (N_Hexes - S (n_cells_filled st)) st in
    (st, out0 ++ outs).

Definition deduce_from_idx (rs : RecursionStrategy) (self : Action)
    (maybe_needed_idx : nat) : Action :=
  fun st =>
    if (maybe_needed_idx =? N_Hexes)%nat then (st, [])
    else
      match rs with
      | CreateNew =>
          let swapped_state := st in
          let swapped_state :=
            swap_numbers (n_cells_filled st) maybe_needed_idx swapped_state in
          let swapped_state :=
            set_filled (S (n_cells_filled swapped_state)) swapped_state in
          let '(_, out) := self swapped_state in
          (st, out)
      | SwapAndSwapBack =>
          let st := swap_numbers (n_cells_filled st) maybe_needed_idx st in
          let st := set_filled (S (n_cells_filled st)) st in
          let '(st, out) := self st in
          let st := set_filled (pred (n_cells_filled st)) st in
          let st := swap_numbers (n_cells_filled st) maybe_needed_idx st in
          (st, out)
      end.

Definition deduce (rs : RecursionStrategy) (self : Action)
    (have_idxs : list nat) : Action :=
  fun st => deduce_from_idx rs self (find_needed_from_idxs st have_idxs) st.

Definition solve_body (rs : RecursionStrategy) (self : Action) : Action :=
  fun st =>
    match spiral_plan (n_cells_filled st) with
    | Branch => choose rs self st
    | DeduceFrom have_idxs => deduce rs self have_idxs st
    | Terminal =>
        if spiral_solution_is_correct (numbers st)
        then (st, [numbers st]) else (st, [])
    | NoCase => (st, [])
    end.

Fixpoint solve_fuel (rs : RecursionStrategy) (fuel : nat) : Action :=
  match fuel with
  | O => fun st => (st, [])
  | S fuel' => solve_body rs (solve_fuel rs fuel')
  end.

(** Every nested call is made with [n_cells_filled] one larger and the
    switch has no case beyond 19 (see [solve_fuel_enough]). *)
Definition solve (rs : RecursionStrategy) : Action :=
  fun st => solve_fuel rs (20 - n_cells_filled st) st.

(** *** Vocabulary for the statements about the array engine *)

(** A member function that leaves [*this] as it found it. *)
Definition restores (self : Action) : Prop :=
  forall st, length (numbers st) = N_Hexes -> fst (self st) = st.

(** The state in which the nested [solve] runs when the value found at
    index [i] is placed into the next cell. *)
Definition place (i : nat) (st : t) : t :=
  set_filled (S (n_cells_filled st)) (swap_numbers (n_cells_filled st) i st).

(** What one level of [solve] hands to the sink, as a function of what
    the nested calls hand to it; the state on return is the state on
    entry. *)
Definition solve_body_out (self : Action) (st : t) : list (list Z) :=
  match spiral_plan (n_cells_filled st) with
  | Branch =>
      seq (n_cells_filled st) (N_Hexes - n_cells_filled st)
        ≫= fun i => snd (self (place i st))
  | DeduceFrom have_idxs =>
      let idx := find_needed_from_idxs st have_idxs in
      if (idx =? N_Hexes)%nat then [] else snd (self (place idx st))
  | Terminal => if spiral_solution_is_correct (numbers st) then [numbers st] else []
  | NoCase => []
  end.

(** A full board [b] extends the state [st] when it keeps the filled
    cells of [st], arranges the same values, has at every deduce step
    from [n_cells_filled st] on the value that the step computes, and
    passes the terminal validation. *)
Definition completes (st : t) (b : list Z) : Prop :=
  take (n_cells_filled st) b = take (n_cells_filled st) (numbers st)
  /\ b ≡ₚ numbers st
  /\ (forall k idxs,
        (n_cells_filled st <= k)%nat -> spiral_plan k = DeduceFrom idxs ->
        to_uint8 (Required_Sum - fold_plus b idxs) = b !!! k)
  /\ spiral_solution_is_correct b = true.

(** The states a search passes through: the constructor's state, and
    what [std::swap(numbers[n_cells_filled], numbers[i])],
    [++n_cells_filled] and [--n_cells_filled] make of such a state. *)
Inductive reachable : t -> Prop :=
| reachable_initial : reachable initial
| reachable_swap st i :
    reachable st -> (n_cells_filled st < N_Hexes)%nat -> (i < N_Hexes)%nat ->
    reachable (swap_numbers (n_cells_filled st) i st)
| reachable_incr st :
    reachable st -> reachable (set_filled (S (n_cells_filled st)) st)
| reachable_decr st :
    reachable st -> reachable (set_filled (pred (n_cells_filled st)) st).

End ArrayBoardState.

(** ** The entry points behind the strategy table

    [solve_test_line_by_line<FO>] makes one run from a fresh
    [BoardState].  [solve_deduce_last_cell_of_line] and
    [solve_deduce_last_cell_of_line_array<RS>] make 100 runs, each from a
    fresh state, the first 99 with a sink that ignores its argument; one
    such run is modelled.  For the vector engine the attempt counter
    carries over from run to run, so its run is also considered from
    arbitrary counters below. *)

Definition solve_test_line_by_line (fo : FillOrder) : list (list Z) :=
  BoardState.solve_test_as_lines_filled fo BoardState.initial.

Definition solve_deduce_last_cell_of_line_vector : list Event * Outcome unit :=
  BoardState.solve_deduce_last_cell_of_line BoardState.initial initial_counters.

Definition solve_deduce_last_cell_of_line_array (rs : RecursionStrategy)
    : list (list Z) :=
  snd (ArrayBoardState.solve rs ArrayBoardState.initial).

(** ** Magic boards and the two labelings *)

Definition lines_sum_38 (fo : FillOrder) (b : list Z) : bool :=
  forallb (sum_correct b) (lines_of fo).

Definition is_magic (fo : FillOrder) (b : list Z) : Prop :=
  b ≡ₚ iota_1_19 /\ lines_sum_38 fo b = true.

(** The twelve magic boards in the spiral labeling. *)
Definition spiral_solutions : list (list Z) :=
  [ [3; 17; 18; 11; 9; 14; 15; 13; 10; 12; 16; 19; 7; 1; 6; 8; 4; 2; 5];
    [3; 19; 16; 12; 10; 13; 15; 14; 9; 11; 18; 17; 7; 2; 4; 8; 6; 1; 5];
    [9; 11; 18; 17; 3; 19; 16; 12; 10; 13; 15; 14; 6; 1; 7; 2; 4; 8; 5];
    [9; 14; 15; 13; 10; 12; 16; 19; 3; 17; 18; 11; 6; 8; 4; 2; 7; 1; 5];
    [10; 12; 16; 19; 3; 17; 18; 11; 9; 14; 15; 13; 4; 2; 7; 1; 6; 8; 5];
    [10; 13; 15; 14; 9; 11; 18; 17; 3; 19; 16; 12; 4; 8; 6; 1; 7; 2; 5];
    [15; 13; 10; 12; 16; 19; 3; 17; 18; 11; 9; 14; 8; 4; 2; 7; 1; 6; 5];
    [15; 14; 9; 11; 18; 17; 3; 19; 16; 12; 10; 13; 8; 6; 1; 7; 2; 4; 5];
    [16; 12; 10; 13; 15; 14; 9; 11; 18; 17; 3; 19; 2; 4; 8; 6; 1; 7; 5];
    [16; 19; 3; 17; 18; 11; 9; 14; 15; 13; 10; 12; 2; 7; 1; 6; 8; 4; 5];
    [18; 11; 9; 14; 15; 13; 10; 12; 16; 19; 3; 17; 1; 6; 8; 4; 2; 7; 5];
    [18; 17; 3; 19; 16; 12; 10; 13; 15; 14; 9; 11; 1; 7; 2; 4; 8; 6; 5] ].

(** The twelve magic boards in the raster labeling. *)
Definition raster_solutions : list (list Z) :=
  [ [3; 17; 18; 19; 7; 1; 11; 16; 2; 5; 6; 9; 12; 4; 8; 14; 10; 13; 15];
    [3; 19; 16; 17; 7; 2; 12; 18; 1; 5; 4; 10; 11; 6; 8; 13; 9; 14; 15];
    [9; 11; 18; 14; 6; 1; 17; 15; 8; 5; 7; 3; 13; 4; 2; 19; 10; 12; 16];
    [9; 14; 15; 11; 6; 8; 13; 18; 1; 5; 4; 10; 17; 7; 2; 12; 3; 19; 16];
    [10; 12; 16; 13; 4; 2; 19; 15; 8; 5; 7; 3; 14; 6; 1; 17; 9; 11; 18];
    [10; 13; 15; 12; 4; 8; 14; 16; 2; 5; 6; 9; 19; 7; 1; 11; 3; 17; 18];
    [15; 13; 10; 14; 8; 4; 12; 9; 6; 5; 2; 16; 11; 1; 7; 19; 18; 17; 3];
    [15; 14; 9; 13; 8; 6; 11; 10; 4; 5; 1; 18; 12; 2; 7; 17; 16; 19; 3];
    [16; 12; 10; 19; 2; 4; 13; 3; 7; 5; 8; 15; 17; 1; 6; 14; 18; 11; 9];
    [16; 19; 3; 12; 2; 7; 17; 10; 4; 5; 1; 18; 13; 8; 6; 11; 15; 14; 9];
    [18; 11; 9; 17; 1; 6; 14; 3; 7; 5; 8; 15; 19; 2; 4; 13; 16; 12; 10];
    [18; 17; 3; 11; 1; 7; 19; 9; 6; 5; 2; 16; 14; 8; 4; 12; 15; 13; 10] ].

(** ** From the raster labeling to the spiral labeling and back

    The two diagrams at the head of the source give, for each spiral
    position, the raster cell at the same place of the hexagon. *)

Definition raster_of_spiral : list nat :=
  [0; 1; 2; 6; 11; 15; 18; 17; 16; 12; 7; 3; 4; 5; 10; 14; 13; 8; 9]%nat.

Definition spiral_of_raster : list nat :=
  [0; 1; 2; 11; 12; 13; 3; 10; 17; 18; 14; 4; 9; 16; 15; 5; 8; 7; 6]%nat.

Definition to_spiral (raster_board : list Z) : list Z :=
  (fun r => raster_board !!! r) <$> raster_of_spiral.

Definition to_raster (spiral_board : list Z) : list Z :=
  (fun s => spiral_board !!! s) <$> spiral_of_raster.

(** ** The deduction search, probes, line completion *)

(** The full boards that the vector engine with deduction arrives at:
    its recursion with the terminal step replaced by recording the
    board. *)
Fixpoint spiral_search_fuel (fuel : nat) (st : BoardState.t) : list (list Z) :=
  match fuel with
  | O => []
  | S fuel' =>
      match spiral_plan (length (BoardState.board st)) with
      | Branch =>
          seq 0 (length (BoardState.available st))
            ≫= fun i => spiral_search_fuel fuel' (BoardState.move_to_board i st)
      | DeduceFrom have_idxs =>
          match BoardState.find (BoardState.available st)
                  (BoardState.needed_for st have_idxs) with
          | Some i => spiral_search_fuel fuel' (BoardState.move_to_board i st)
          | None => []
          end
      | Terminal => [BoardState.board st]
      | NoCase => []
      end
  end.

Definition spiral_search (st : BoardState.t) : list (list Z) :=
  spiral_search_fuel (20 - length (BoardState.board st)) st.

(** The terminal step of the vector engine on a full board. *)
Definition terminal_step (b : list Z) : Run unit :=
  ok ← CheckHardcoded.is_solution b;
  if ok : bool then emit (Consumed b) else mret tt.



(** Cells are filled in index order, so filling cell [n] completes a
    line when the line contains [n] and no cell beyond [n]. *)
Definition completes_line_at (n : nat) (line : list nat) : bool :=
  existsb (Nat.eqb n) line && forallb (fun c => c <=? n)%nat line.

Definition closing_lines (fo : FillOrder) (n : nat) : list (list nat) :=
  List.filter (completes_line_at n) (lines_of fo).

Definition other_cells (n : nat) (line : list nat) : list nat :=
  List.filter (fun c => negb (c =? n)%nat) line.

(** The validator of the vector engine run twice on one board. *)
Definition validate_twice (board : list Z) : Run (bool * bool) :=
  r1 ← CheckHardcoded.is_solution board;
  r2 ← CheckHardcoded.is_solution board;
  mret (r1, r2).

(** The lines that [incorrect_already] tests when all 19 cells are
    filled. *)
Definition lines_tested_when_full (fo : FillOrder) : list (list nat) :=
  match fo with
  | Raster => [[0; 4; 9; 14; 18]; [11; 15; 18]; [16; 17; 18]]
  | Spiral => [[0; 12; 18; 15; 6]; [2; 13; 18; 16; 8]; [4; 14; 18; 17; 10]]
  end%nat.

(** ** Sample states

    Two cells filled with 10 and 3, so that the first line would need
    25, and the first of the twelve spiral solutions. *)

Definition sample_vector_state : BoardState.t :=
  BoardState.move_to_board 2 (BoardState.move_to_board 9 BoardState.initial).

Definition sample_array_state : ArrayBoardState.t :=
  ArrayBoardState.place 2 (ArrayBoardState.place 9 ArrayBoardState.initial).

Definition sample_solution : list Z :=
  [3; 17; 18; 11; 9; 14; 15; 13; 10; 12; 16; 19; 7; 1; 6; 8; 4; 2; 5].

(** ** [CheckVecOfVecs] *)

Module CheckVecOfVecs.

(** The loop [for (const auto & line : hex_lines)]: [sum], an [int],
    starts at 0 and takes the cells of the line in order; the first
    line whose sum is not 38 ends the loop with [false]. *)
Fixpoint lines_loop (soln : list Z) (lines : list (list nat)) : bool :=
  match lines with
  | [] => true
  | line :: lines' =>
      let sum := foldl (fun sum idx => sum + soln !!! idx) 0 line in
      if negb (sum =? Required_Sum) then false else lines_loop soln lines'
  end.

Definition is_solution (soln : list Z) : Run bool :=
  fun g =>
    let n := to_size_t (n_attempts g + 1) in
    let g' := mkCounters n (n_attempts_log_period g) (n_attempts_bail g) in
    let logged :=
      if n mod n_attempts_log_period g =? 0 then [AttemptsLogged n] else [] in
    if n =? n_attempts_bail g then (logged ++ [Stopping], Exited)
    else (logged, Returned (lines_loop soln hex_lines) g').

End CheckVecOfVecs.

(** ** The permutation baseline [solve_check_when_full] *)

(** One recursion level of [solve_check_when_full<Check>].  The test
    [available.size() == 0 && Check::is_solution(board)] calls the
    validator only on a full board; when it fails, the [else] branch
    runs, with an empty loop if the board was full. *)
Definition solve_check_when_full_body (Check : list Z -> Run bool)
    (self : BoardState.t -> Run unit) (st : BoardState.t) : Run unit :=
  ok ← (if (length (BoardState.available st) =? 0)%nat
        then Check (BoardState.board st) else mret false);
  if ok : bool then emit (Consumed (BoardState.board st))
  else
    for_each (seq 0 (length (BoardState.available st)))
      (fun idx => self (BoardState.move_to_board idx st)).

Fixpoint solve_check_when_full_fuel (Check : list Z -> Run bool)
    (fuel : nat) (st : BoardState.t) : Run unit :=
  match fuel with
  | O => mret tt
  | S fuel' =>
      solve_check_when_full_body Check
        (solve_check_when_full_fuel Check fuel') st
  end.

(** Each level removes one value from [available], so one more unit of
    fuel than there are available values is enough (see
    [solve_check_when_full_fuel_enough] and
    [solve_check_when_full_unfold]). *)
Definition solve_check_when_full (Check : list Z -> Run bool)
    (st : BoardState.t) : Run unit :=
  solve_check_when_full_fuel Check (S (length (BoardState.available st))) st.

(** [solve_manual_perm<Check>]: a fresh state, with [dump] as its
    sink. *)
Definition solve_manual_perm (Check : list Z -> Run bool) : Run unit :=
  solve_check_when_full Check BoardState.initial.

(** ** The sinks and the strategy [deduce] as [main] runs it *)

(** [ignore] does nothing with the board. *)
Definition ignore (board : list Z) : Run unit := mret tt.

(** [dump] writes the board to standard output: the event [Consumed]. *)
Definition dump (board : list Z) : Run unit := emit (Consumed board).

(** [BoardState::solve_deduce_last_cell_of_line] with the member
    [consume_fun] of the state as a parameter. *)
Module BoardStateSink.

Definition solve_deduce_last_cell_of_line_body
    (consume_fun : list Z -> Run unit)
    (self : BoardState.t -> Run unit) (st : BoardState.t) : Run unit :=
  match spiral_plan (length (BoardState.board st)) with
  | Branch => BoardState.choose self st
  | DeduceFrom have_idxs => BoardState.deduce self have_idxs st
  | Terminal =>
      ok ← CheckHardcoded.is_solution (BoardState.board st);
      if ok : bool then consume_fun (BoardState.board st) else mret tt
  | NoCase => mret tt
  end.

Fixpoint solve_deduce_last_cell_of_line_fuel
    (consume_fun : list Z -> Run unit) (fuel : nat) (st : BoardState.t)
    : Run unit :=
  match fuel with
  | O => mret tt
  | S fuel' =>
      solve_deduce_last_cell_of_line_body consume_fun
        (solve_deduce_last_cell_of_line_fuel consume_fun fuel') st
  end.

(** As for [BoardState.solve_deduce_last_cell_of_line], the count of
    the remaining levels is never exhausted (see [sink_fuel_enough] and
    [sink_unfold]). *)
Definition solve_deduce_last_cell_of_line
    (consume_fun : list Z -> Run unit) (st : BoardState.t) : Run unit :=
  solve_deduce_last_cell_of_line_fuel consume_fun
    (20 - length (BoardState.board st)) st.

End BoardStateSink.

(** The free function [solve_deduce_last_cell_of_line]: 99 runs with
    [ignore], then one with [dump], each from a fresh state; the
    counters are those of the process. *)
Definition solve_deduce_last_cell_of_line_strategy : Run unit :=
  for_each (seq 0 99)
    (fun _ => BoardStateSink.solve_deduce_last_cell_of_line ignore
                BoardState.initial);;
  BoardStateSink.solve_deduce_last_cell_of_line dump BoardState.initial.

(** ** [std::next_permutation] and [solve_std_perm] *)

(** [std::next_permutation] is the standard library's; it is written
    here as the library implements it.  Its inner loop: in the cells
    that follow the pivot, the last one holding a value greater than the
    pivot [x] takes [x], and the value it held is returned. *)
Fixpoint swap_last_greater (x : Z) (l : list Z) : option (Z * list Z) :=
  match l with
  | [] => None
  | y :: l' =>
      match swap_last_greater x l' with
      | Some (z, l'') => Some (z, y :: l'')
      | None => if x <? y then Some (y, x :: l') else None
      end
  end.

(** The arrangement that follows [l] in lexicographic order: the pivot
    is the last cell that has a greater value somewhere after it; it is
    exchanged with the last such value and the cells after it are
    reversed.  [None] when there is no pivot. *)
Fixpoint next_arrangement (l : list Z) : option (list Z) :=
  match l with
  | [] => None
  | x :: l' =>
      match next_arrangement l' with
      | Some l'' => Some (x :: l'')
      | None =>
          match swap_last_greater x l' with
          | Some (z, l'') => Some (z :: reverse l'')
          | None => None
          end
      end
  end.

(** [std::next_permutation(board.begin(), board.end())]: the result and
    the board it leaves; without a next arrangement the board is
    reversed into the first one. *)
Definition next_permutation (board : list Z) : bool * list Z :=
  match next_arrangement board with
  | Some board' => (true, board')
  | None => (false, reverse board)
  end.

(** The assignments to [n_attempts_log_period] and [n_attempts_bail]. *)
Definition set_budget (period bail : Z) : Run unit :=
  fun g => ([], Returned tt (mkCounters (n_attempts g) period bail)).

(** [n!] as an integer. *)
Fixpoint zfact (n : nat) : Z :=
  match n with
  | O => 1
  | S n' => Z.of_nat n * zfact n'
  end.

(** The loop [while (true)] of [solve_std_perm<Check>]. *)
Fixpoint solve_std_perm_loop (Check : list Z -> Run bool) (fuel : nat)
    (board : list Z) : Run unit :=
  match fuel with
  | O => mret tt
  | S fuel' =>
      ok ← Check board;
      (if ok : bool then dump board else mret tt);;
      let '(more, board') := next_permutation board in
      if more : bool then solve_std_perm_loop Check fuel' board' else mret tt
  end.

(** [solve_std_perm<Check>]; the loop leaves at the latest after the
    last of the [19!] arrangements (see
    [solve_std_perm_loop_fuel_enough]). *)
Definition solve_std_perm (Check : list Z -> Run bool) : Run unit :=
  set_budget 250000000 2500000000;;
  solve_std_perm_loop Check (Z.to_nat (zfact N_Hexes)) iota_1_19.

(** ** The strategy table and [main] *)

(** The engines that leave the attempt counters alone, as runs: the
    boards they hand over go to the sink in order.  The array strategies
    make 99 runs with [ignore] before the run with [dump]. *)
Definition solve_test_line_by_line_run (fo : FillOrder) : Run unit :=
  for_each (solve_test_line_by_line fo) dump.

Definition solve_deduce_last_cell_of_line_array_run (rs : RecursionStrategy)
    : Run unit :=
  for_each (seq 0 99)
    (fun _ => for_each (solve_deduce_last_cell_of_line_array rs) ignore);;
  for_each (solve_deduce_last_cell_of_line_array rs) dump.

(** [StrategyOption], without the summary, which is text of the usage
    message only. *)
Record StrategyOption := mkStrategyOption {
  arg : string;
  solve : Run unit
}.

Definition strategies : list StrategyOption :=
  [ mkStrategyOption "manual-perm-vec-vecs-check"
      (solve_manual_perm CheckVecOfVecs.is_solution);
    mkStrategyOption "manual-perm-hardcoded-check"
      (solve_manual_perm CheckHardcoded.is_solution);
    mkStrategyOption "stdlib-perm-vec-vecs-check"
      (solve_std_perm CheckVecOfVecs.is_solution);
    mkStrategyOption "stdlib-perm-hardcoded-check"
      (solve_std_perm CheckHardcoded.is_solution);
    mkStrategyOption "line-by-line-check"
      (solve_test_line_by_line_run Raster);
    mkStrategyOption "line-by-line-check-spiral"
      (solve_test_line_by_line_run Spiral);
    mkStrategyOption "deduce"
      solve_deduce_last_cell_of_line_strategy;
    mkStrategyOption "deduce-array"
      (solve_deduce_last_cell_of_line_array_run CreateNew);
    mkStrategyOption "deduce-array-swap"
      (solve_deduce_last_cell_of_line_array_run SwapAndSwapBack) ].

(** The loop of [main] over the table: the [solve] of the first entry
    whose label is the argument. *)
Fixpoint find_strategy (strategy : string) (strats : list StrategyOption)
    : option (Run unit) :=
  match strats with
  | [] => None
  | strat :: strats' =>
      if String.eqb strategy (arg strat) then Some (solve strat)
      else find_strategy strategy strats'
  end.

(** [main]: [argv] holds the [argc] arguments.  The result is the list
    of labels written to standard error and the return value. *)
Definition main (argv : list string) : Run (list string * Z) :=
  let usage := mret (arg <$> strategies, 1) in
  match argv with
  | [_; strategy] =>
      match find_strategy strategy strategies with
      | Some solve_fun => solve_fun;; mret ([], 0)
      | None => usage
      end
  | _ => usage
  end.


(** ** Vocabulary for the statements about these parts *)

(** The full boards of a state: its board followed by the arrangements
    of its available values, in the order in which the loop takes
    them. *)
Fixpoint full_boards_fuel (fuel : nat) (st : BoardState.t) : list (list Z) :=
  match fuel with
  | O => []
  | S fuel' =>
      if (length (BoardState.available st) =? 0)%nat then [BoardState.board st]
      else
        seq 0 (length (BoardState.available st))
          ≫= fun idx => full_boards_fuel fuel' (BoardState.move_to_board idx st)
  end.

Definition full_boards (st : BoardState.t) : list (list Z) :=
  full_boards_fuel (S (length (BoardState.available st))) st.

(** Validate a board and hand it to the sink if it passes. *)
Definition check_step (Check : list Z -> Run bool) (b : list Z) : Run unit :=
  ok ← Check b; if ok : bool then emit (Consumed b) else mret tt.

(** The terminal step with a sink. *)
Definition terminal_step_with (consume_fun : list Z -> Run unit)
    (b : list Z) : Run unit :=
  ok ← CheckHardcoded.is_solution b;
  if ok : bool then consume_fun b else mret tt.

(** [k] more attempts counted. *)
Definition attempts_added (k : Z) (g : Counters) : Counters :=
  mkCounters (n_attempts g + k) (n_attempts_log_period g) (n_attempts_bail g).

(** The multiples of [period] after [n] and up to [bail]. *)
Definition multiples_between (n period bail : Z) : list Z :=
  (fun i => i * period) <$> seqZ (n / period + 1) (bail / period - n / period).

(** What the validators write from the counters [g] on when every
    attempt up to the budget is made: a line for every multiple of the
    logging period, and the last line when the budget is reached. *)
Definition budget_trace (g : Counters) : list Event :=
  (AttemptsLogged
     <$> multiples_between (n_attempts g) (n_attempts_log_period g)
           (n_attempts_bail g))
  ++ [Stopping].

(** The number of values of [l] below [x]. *)
Fixpoint count_lt (x : Z) (l : list Z) : Z :=
  match l with
  | [] => 0
  | y :: l' => (if y <? x then 1 else 0) + count_lt x l'
  end.

(** The place of an arrangement in the lexicographic order of the
    arrangements of its values, counted from 0. *)
Fixpoint rank (l : list Z) : Z :=
  match l with
  | [] => 0
  | x :: l' => count_lt x l' * zfact (length l') + rank l'
  end.

(** Lexicographic order on boards, and its test. *)
Fixpoint lex_lt (a b : list Z) : Prop :=
  match a, b with
  | [], [] => False
  | [], _ :: _ => True
  | _ :: _, [] => False
  | x :: a', y :: b' => x < y \/ (x = y /\ lex_lt a' b')
  end.

Fixpoint lex_ltb (a b : list Z) : bool :=
  match a, b with
  | [], [] => false
  | [], _ :: _ => true
  | _ :: _, [] => false
  | x :: a', y :: b' => (x <? y) || ((x =? y) && lex_ltb a' b')
  end.

Fixpoint sortedb (l : list (list Z)) : bool :=
  match l with
  | [] => true
  | x :: l' => forallb (lex_ltb x) l' && sortedb l'
  end.

(** ** The array state read as a vector state *)

(** The filled cells are the board, the other cells the available
    values. *)
Definition as_vector_state (st : ArrayBoardState.t) : BoardState.t :=
  BoardState.mk
    (take (ArrayBoardState.n_cells_filled st) (ArrayBoardState.numbers st))
    (drop (ArrayBoardState.n_cells_filled st) (ArrayBoardState.numbers st)).

(** ** More sample states *)

(** Seventeen cells of [sample_solution] filled, 2 and 5 left. *)
Definition sample_late_state : BoardState.t :=
  BoardState.mk (take 17 sample_solution) [2; 5].

(** Sixteen cells filled with 4, 5, ..., 19; 1, 2 and 3 left. *)
Definition sample_permutation_state : BoardState.t :=
  BoardState.mk [4; 5; 6; 7; 8; 9; 10; 11; 12; 13; 14; 15; 16; 17; 18; 19]
    [1; 2; 3].

(** * Properties *)

(** [lia] with the constant 19 made visible. *)
Ltac hex_lia := unfold N_Hexes in *; simpl in *; lia.

(** ** Arrays: [std::swap] on two cells *)

Section swap_facts.
Import ArrayBoardState.

Lemma length_swap a i j : length (swap a i j) = length a.
Proof. unfold swap. by rewrite !length_insert. Qed.

Lemma swap_same a i : (i < length a)%nat -> swap a i i = a.
Proof.
  intros Hi. unfold swap. rewrite list_insert_insert_eq.
  apply list_insert_id, list_lookup_lookup_total_lt, Hi.
Qed.

Lemma swap_lookup_l a i j :
  (i < length a)%nat -> (j < length a)%nat -> swap a i j !!! i = a !!! j.
Proof.
  intros Hi Hj. unfold swap.
  destruct (decide (i = j)) as [->|Hne].
  - by rewrite list_lookup_total_insert_eq; rewrite ?length_insert.
  - rewrite list_lookup_total_insert_ne by done.
    by rewrite list_lookup_total_insert_eq.
Qed.

Lemma swap_lookup_r a i j :
  (i < length a)%nat -> (j < length a)%nat -> swap a i j !!! j = a !!! i.
Proof.
  intros Hi Hj. unfold swap.
  by rewrite list_lookup_total_insert_eq; rewrite ?length_insert.
Qed.

Lemma swap_lookup_other a i j k :
  k <> i -> k <> j -> swap a i j !!! k = a !!! k.
Proof.
  intros Hi Hj. unfold swap.
  by rewrite !list_lookup_total_insert_ne.
Qed.

(** Swapping the same two cells twice gives the array back. *)
Lemma swap_swap a i j :
  (i < length a)%nat -> (j < length a)%nat -> swap (swap a i j) i j = a.
Proof.
  intros Hi Hj. apply list_eq_same_length with (length a);
    rewrite ?length_swap; try done.
  intros k x y Hk Hx Hy.
  apply list_lookup_total_correct in Hx, Hy. subst x y.
  destruct (decide (k = i)) as [->|Hki].
  { rewrite swap_lookup_l, swap_lookup_r; rewrite ?length_swap; done. }
  destruct (decide (k = j)) as [->|Hkj].
  { rewrite swap_lookup_r, swap_lookup_l; rewrite ?length_swap; done. }
  by rewrite !swap_lookup_other.
Qed.

Lemma swap_Permutation a i j :
  (i < length a)%nat -> (j < length a)%nat -> swap a i j ≡ₚ a.
Proof.
  intros Hi Hj.
  destruct (decide (i = j)) as [->|Hne]; [by rewrite swap_same|].
  unfold swap.
  assert (Hai : a !! i = Some (a !!! i)) by by apply list_lookup_lookup_total_lt.
  assert (Haj : a !! j = Some (a !!! j)) by by apply list_lookup_lookup_total_lt.
  symmetry.
  apply Permutation_inj. split; [by rewrite !length_insert|].
  exists (fun k => if decide (k = i) then j
                   else if decide (k = j) then i else k).
  split.
  - intros x y Hxy. repeat case_decide; congruence.
  - intros k. repeat case_decide; subst.
    + by rewrite list_lookup_insert_eq; rewrite ?length_insert.
    + rewrite list_lookup_insert_ne by done.
      by rewrite list_lookup_insert_eq.
    + by rewrite !list_lookup_insert_ne.
Qed.

End swap_facts.


(** ** The array engine: [find_needed] *)

Section array_engine.
Import ArrayBoardState.

Lemma find_needed_loop_spec a v i count :
  let r := find_needed_loop a v i count in
  (r = N_Hexes /\ forall k, (i <= k < i + count)%nat -> a !!! k <> v)
  \/ ((i <= r < i + count)%nat /\ a !!! r = v
      /\ forall k, (i <= k < r)%nat -> a !!! k <> v).
Proof.
  revert i. induction count as [|count IH]; intros i; simpl.
  - left. split; [done|]. intros k Hk. lia.
  - destruct (Z.eqb_spec (a !!! i) v) as [Heq|Hne].
    + right. split; [lia|]. split; [done|]. intros k Hk. lia.
    + destruct (IH (S i)) as [[Hr Hall]|(Hr & Hv & Hall)].
      * left. split; [done|]. intros k Hk.
        destruct (decide (k = i)) as [->|]; [done|]. apply Hall. lia.
      * right. split; [lia|]. split; [done|]. intros k Hk.
        destruct (decide (k = i)) as [->|]; [done|]. apply Hall. lia.
Qed.

Lemma elem_of_drop_lookup_total (a : list Z) n v :
  v ∈ drop n a <-> exists k, (n <= k < length a)%nat /\ a !!! k = v.
Proof.
  rewrite list_elem_of_lookup. split.
  - intros [k Hk]. rewrite lookup_drop in Hk. exists (n + k)%nat.
    split; [|by apply list_lookup_total_correct].
    apply lookup_lt_Some in Hk. lia.
  - intros (k & Hk & <-). exists (k - n)%nat. rewrite lookup_drop.
    replace (n + (k - n))%nat with k by lia.
    apply list_lookup_lookup_total_lt. lia.
Qed.

Lemma find_needed_found st v :
  length (numbers st) = N_Hexes -> (n_cells_filled st <= N_Hexes)%nat ->
  v ∈ drop (n_cells_filled st) (numbers st) ->
  (n_cells_filled st <= find_needed st v < N_Hexes)%nat
  /\ numbers st !!! find_needed st v = v.
Proof.
  intros Hlen Hn Hin. unfold find_needed.
  destruct (find_needed_loop_spec (numbers st) v (n_cells_filled st)
              (N_Hexes - n_cells_filled st)) as [[_ Hall]|(Hr & Hv & _)].
  - apply elem_of_drop_lookup_total in Hin as (k & Hk & Hkv).
    exfalso. apply (Hall k); [lia | done].
  - split; [lia | done].
Qed.

Lemma find_needed_absent st v :
  length (numbers st) = N_Hexes -> (n_cells_filled st <= N_Hexes)%nat ->
  v ∉ drop (n_cells_filled st) (numbers st) ->
  find_needed st v = N_Hexes.
Proof.
  intros Hlen Hn Hin. unfold find_needed.
  destruct (find_needed_loop_spec (numbers st) v (n_cells_filled st)
              (N_Hexes - n_cells_filled st)) as [[Hr _]|(Hr & Hv & _)]; [done|].
  exfalso. apply Hin, elem_of_drop_lookup_total.
  eexists. split; [|exact Hv]. lia.
Qed.

Lemma find_needed_range st v :
  (n_cells_filled st <= N_Hexes)%nat ->
  (n_cells_filled st <= find_needed st v <= N_Hexes)%nat.
Proof.
  intros Hn. unfold find_needed.
  destruct (find_needed_loop_spec (numbers st) v (n_cells_filled st)
              (N_Hexes - n_cells_filled st)) as [[Hr _]|(Hr & _)]; lia.
Qed.

Lemma place_length i st : length (numbers (place i st)) = length (numbers st).
Proof. destruct st. simpl. apply length_swap. Qed.

Lemma place_filled i st : n_cells_filled (place i st) = S (n_cells_filled st).
Proof. done. Qed.

Lemma place_next st :
  (n_cells_filled st < length (numbers st))%nat ->
  place (n_cells_filled st) st = set_filled (S (n_cells_filled st)) st.
Proof.
  intros Hn. destruct st as [a n]. unfold place, set_filled, swap_numbers.
  simpl in *. by rewrite swap_same.
Qed.

Lemma for_loop_eq body from count st (out : nat -> list (list Z)) :
  (forall i, (from <= i < from + count)%nat -> body i st = (st, out i)) ->
  for_loop body from count st = (st, seq from count ≫= out).
Proof.
  revert from. induction count as [|count IH]; intros from Hbody; [done|].
  simpl. rewrite (Hbody from) by lia.
  rewrite IH by (intros; apply Hbody; lia). done.
Qed.

Lemma swap_and_swap_back st i :
  (n_cells_filled st < length (numbers st))%nat ->
  (i < length (numbers st))%nat ->
  let st1 := place i st in
  let st2 := set_filled (pred (n_cells_filled st1)) st1 in
  swap_numbers (n_cells_filled st2) i st2 = st.
Proof.
  intros Hn Hi. destruct st as [a n]. unfold place, swap_numbers, set_filled.
  simpl in *. by rewrite swap_swap.
Qed.

(** One loop iteration of [choose], or the body of [deduce_from_idx]:
    place the value at [i] into the next cell and explore.  Under either
    strategy the caller's state is what it was and the sink has seen
    what the nested call produced. *)
Lemma place_and_explore rs self st i :
  restores self ->
  length (numbers st) = N_Hexes ->
  (n_cells_filled st < N_Hexes)%nat -> (i < N_Hexes)%nat ->
  match rs with
  | CreateNew =>
      let swapped_state := st in
      let swapped_state :=
        swap_numbers (n_cells_filled st) i swapped_state in
      let swapped_state :=
        set_filled (S (n_cells_filled swapped_state)) swapped_state in
      let '(_, out) := self swapped_state in
      (st, out)
  | SwapAndSwapBack =>
      let st := swap_numbers (n_cells_filled st) i st in
      let st := set_filled (S (n_cells_filled st)) st in
      let '(st, out) := self st in
      let st := set_filled (pred (n_cells_filled st)) st in
      let st := swap_numbers (n_cells_filled st) i st in
      (st, out)
  end = (st, snd (self (place i st))).
Proof.
  intros Hself Hlen Hn Hi. destruct rs; cbv zeta; fold (place i st).
  - by destruct (self _).
  - specialize (Hself _ (eq_trans (place_length i st) Hlen)).
    destruct (self _) as [st' out]. simpl in Hself. subst st'. simpl snd.
    f_equal. apply swap_and_swap_back; lia.
Qed.

Lemma choose_eq rs self st :
  restores self ->
  length (numbers st) = N_Hexes -> (n_cells_filled st < N_Hexes)%nat ->
  choose rs self st
  = (st, seq (n_cells_filled st) (N_Hexes - n_cells_filled st)
           ≫= fun i => snd (self (place i st))).
Proof.
  intros Hself Hlen Hn. unfold choose.
  specialize (Hself (set_filled (S (n_cells_filled st)) st) Hlen) as H0.
  destruct (self (set_filled (S (n_cells_filled st)) st)) as [st0 out0] eqn:E0.
  simpl in H0. subst st0.
  replace (set_filled (pred _) (set_filled (S (n_cells_filled st)) st))
    with st by by destruct st.
  erewrite for_loop_eq; cycle 1.
  { intros i Hi. apply (place_and_explore rs self st i); [done..|hex_lia]. }
  f_equal.
  replace (N_Hexes - n_cells_filled st)%nat
    with (S (N_Hexes - S (n_cells_filled st))) by lia.
  simpl. rewrite place_next by lia. by rewrite E0.
Qed.

Lemma deduce_from_idx_eq rs self st idx :
  restores self ->
  length (numbers st) = N_Hexes ->
  (n_cells_filled st < N_Hexes)%nat -> (idx <= N_Hexes)%nat ->
  deduce_from_idx rs self idx st
  = (st, if (idx =? N_Hexes)%nat then [] else snd (self (place idx st))).
Proof.
  intros Hself Hlen Hn Hidx. unfold deduce_from_idx.
  destruct (Nat.eqb_spec idx N_Hexes) as [->|Hne]; [done|].
  apply (place_and_explore rs self st idx); [done..|hex_lia].
Qed.

Lemma choose_restores rs self st :
  restores self ->
  length (numbers st) = N_Hexes -> (n_cells_filled st < N_Hexes)%nat ->
  fst (choose rs self st) = st.
Proof. intros. by rewrite choose_eq. Qed.

Lemma deduce_from_idx_restores rs self st idx :
  restores self ->
  length (numbers st) = N_Hexes ->
  (n_cells_filled st < N_Hexes)%nat -> (idx <= N_Hexes)%nat ->
  fst (deduce_from_idx rs self idx st) = st.
Proof. intros. by rewrite deduce_from_idx_eq. Qed.

Lemma spiral_plan_branch_lt n : spiral_plan n = Branch -> (n < N_Hexes)%nat.
Proof.
  do 20 (destruct n as [|n]; [first [discriminate | unfold N_Hexes; lia]|]).
  discriminate.
Qed.

Lemma spiral_plan_deduce_lt n idxs :
  spiral_plan n = DeduceFrom idxs -> (n < N_Hexes)%nat.
Proof.
  do 20 (destruct n as [|n]; [first [discriminate | unfold N_Hexes; lia]|]).
  discriminate.
Qed.

Lemma solve_body_eq rs self st :
  restores self -> length (numbers st) = N_Hexes ->
  solve_body rs self st = (st, solve_body_out self st).
Proof.
  intros Hself Hlen. unfold solve_body, solve_body_out.
  destruct (spiral_plan (n_cells_filled st)) as [|idxs| |] eqn:Hplan.
  - apply choose_eq; eauto using spiral_plan_branch_lt.
  - pose proof (spiral_plan_deduce_lt _ _ Hplan).
    apply deduce_from_idx_eq; [done..|].
    apply find_needed_range. lia.
  - by destruct (spiral_solution_is_correct _).
  - done.
Qed.

Lemma solve_body_restores rs self : restores self -> restores (solve_body rs self).
Proof. intros Hself st Hlen. by rewrite solve_body_eq. Qed.

Lemma solve_fuel_restores rs fuel : restores (solve_fuel rs fuel).
Proof.
  induction fuel as [|fuel IH]; [by intros st|].
  simpl. by apply solve_body_restores.
Qed.

Lemma solve_restores rs : restores (solve rs).
Proof. intros st Hlen. by apply solve_fuel_restores. Qed.

(** The nested calls of one level are all made with one more cell
    filled, on an array of the same size. *)
Lemma solve_body_out_ext self1 self2 st :
  (forall st', length (numbers st') = length (numbers st) ->
               n_cells_filled st' = S (n_cells_filled st) ->
               snd (self1 st') = snd (self2 st')) ->
  solve_body_out self1 st = solve_body_out self2 st.
Proof.
  intros Hext. unfold solve_body_out.
  destruct (spiral_plan (n_cells_filled st)); try done.
  - apply list_bind_ext; [|done]. intros i.
    apply Hext; [apply place_length | apply place_filled].
  - cbv zeta. case_match; [done|].
    apply Hext; [apply place_length | apply place_filled].
Qed.

Lemma spiral_plan_beyond n : (N_Hexes < n)%nat -> spiral_plan n = NoCase.
Proof.
  intros Hn. do 20 (destruct n as [|n]; [hex_lia|]). done.
Qed.

(** Fuel beyond [20 - n_cells_filled] changes nothing: [solve] is the
    function the recursion of the source computes. *)
Lemma solve_fuel_enough rs fuel st :
  length (numbers st) = N_Hexes ->
  (20 - n_cells_filled st <= fuel)%nat ->
  solve_fuel rs fuel st = solve rs st.
Proof.
  unfold solve. revert st.
  induction fuel as [|fuel IH]; intros st Hlen Hfuel.
  { by replace (20 - n_cells_filled st)%nat with O by lia. }
  destruct (20 - n_cells_filled st)%nat as [|m] eqn:Hm.
  - simpl. unfold solve_body.
    rewrite spiral_plan_beyond by hex_lia. done.
  - simpl. rewrite !solve_body_eq by auto using solve_fuel_restores.
    f_equal. apply solve_body_out_ext. intros st' Hlen' Hn'.
    rewrite IH by lia.
    by replace (20 - n_cells_filled st')%nat with m by lia.
Qed.

(** [solve] satisfies the recursion equation of the source. *)
Lemma solve_unfold rs st :
  length (numbers st) = N_Hexes ->
  solve rs st = solve_body rs (solve rs) st.
Proof.
  intros Hlen. unfold solve at 1.
  destruct (20 - n_cells_filled st)%nat as [|m] eqn:Hm.
  - simpl. unfold solve_body. rewrite spiral_plan_beyond by hex_lia. done.
  - simpl. rewrite !solve_body_eq by auto using solve_fuel_restores, solve_restores.
    f_equal. apply solve_body_out_ext. intros st' Hlen' Hn'.
    f_equal. apply solve_fuel_enough; lia.
Qed.

Lemma solve_fuel_strategies fuel st :
  length (numbers st) = N_Hexes ->
  solve_fuel CreateNew fuel st = solve_fuel SwapAndSwapBack fuel st.
Proof.
  revert st. induction fuel as [|fuel IH]; intros st Hlen; [done|].
  simpl. rewrite !solve_body_eq by auto using solve_fuel_restores.
  f_equal. apply solve_body_out_ext. intros st' Hlen' _.
  f_equal. apply IH. lia.
Qed.

End array_engine.

(** ** The line-by-line engine *)

Section line_by_line.
Import BoardState.

Lemma move_to_board_available_length idx st :
  (idx < length (available st))%nat ->
  length (available (move_to_board idx st)) = pred (length (available st)).
Proof.
  intros Hidx. simpl. rewrite length_delete; [lia|].
  by apply lookup_lt_is_Some.
Qed.

Lemma move_to_board_board_length idx st :
  length (board (move_to_board idx st)) = S (length (board st)).
Proof. simpl. rewrite length_app. simpl. lia. Qed.

(** The recursive calls of one level are the calls on
    [move_to_board idx] for the indices of the available values. *)
Lemma solve_test_as_lines_filled_body_ext fo self1 self2 st :
  (forall idx, (idx < length (available st))%nat ->
     self1 (move_to_board idx st) = self2 (move_to_board idx st)) ->
  solve_test_as_lines_filled_body fo self1 st
  = solve_test_as_lines_filled_body fo self2 st.
Proof.
  intros Hext. unfold solve_test_as_lines_filled_body.
  repeat case_match; try done.
  apply Forall_bind_ext, list.Forall_forall. intros idx Hidx.
  apply elem_of_seq in Hidx. apply Hext. lia.
Qed.

Lemma solve_test_as_lines_filled_fuel_enough fo fuel st :
  (length (available st) < fuel)%nat ->
  solve_test_as_lines_filled_fuel fo fuel st = solve_test_as_lines_filled fo st.
Proof.
  unfold solve_test_as_lines_filled. revert st.
  induction fuel as [|fuel IH]; intros st Hfuel; [lia|].
  simpl. apply solve_test_as_lines_filled_body_ext. intros idx Hidx.
  pose proof (move_to_board_available_length idx st Hidx) as Hlen.
  rewrite IH by lia.
  destruct (length (available st)) as [|m] eqn:Hm; [lia|].
  simpl. f_equal. simpl in Hlen. by rewrite Hlen.
Qed.

(** [solve_test_as_lines_filled] satisfies the recursion equation of the
    source. *)
Lemma solve_test_as_lines_filled_unfold fo st :
  solve_test_as_lines_filled fo st
  = solve_test_as_lines_filled_body fo (solve_test_as_lines_filled fo) st.
Proof.
  unfold solve_test_as_lines_filled at 1. simpl.
  apply solve_test_as_lines_filled_body_ext. intros idx Hidx.
  apply solve_test_as_lines_filled_fuel_enough.
  rewrite move_to_board_available_length by done. lia.
Qed.

Lemma elem_of_solve_test_as_lines_filled_fuel fo fuel st b :
  (length (available st) < fuel)%nat ->
  b ∈ solve_test_as_lines_filled_fuel fo fuel st <-> completes fo st b.
Proof.
  revert st b. induction fuel as [|fuel IH]; intros st b Hfuel; [lia|].
  simpl. unfold solve_test_as_lines_filled_body.
  destruct (incorrect_already fo st) eqn:Hbad.
  { split; [by intros ?%elem_of_nil|]. intros (p & _ & -> & Hk).
    specialize (Hk (length (board st))). rewrite take_app_length in Hk.
    rewrite length_app in Hk.
    assert (incorrect_already fo st = false) as Hok by (apply Hk; lia).
    congruence. }
  destruct (Nat.eqb_spec (length (available st)) 0) as [Hnil|Hnonnil].
  { apply nil_length_inv in Hnil. rewrite list_elem_of_singleton. split.
    - intros ->. exists []. rewrite Hnil, app_nil_r. split_and!; [done..|].
      intros k Hk. rewrite take_ge by lia. exact Hbad.
    - intros (p & Hp & -> & _). rewrite Hnil in Hp.
      apply Permutation_nil_r in Hp. subst p. by rewrite app_nil_r. }
  rewrite list_elem_of_bind. split.
  - intros (idx & Hb & Hidx). apply elem_of_seq in Hidx.
    apply IH in Hb;
      [|rewrite move_to_board_available_length; lia].
    destruct Hb as (p' & Hp' & -> & Hk). simpl in *.
    exists (available st !!! idx :: p'). split_and!.
    + rewrite Hp'. symmetry. apply delete_Permutation.
      apply list_lookup_lookup_total_lt. lia.
    + by rewrite <- app_assoc.
    + intros k Hkr.
      destruct (decide (k = length (board st))) as [->|Hne].
      * rewrite <- app_assoc, take_app_length. exact Hbad.
      * apply Hk. rewrite !length_app in *. simpl in *. lia.
  - intros (p & Hp & -> & Hk).
    destruct p as [|x p'].
    { apply Permutation_length in Hp. simpl in Hp. lia. }
    assert (x ∈ available st) as Hx by (rewrite <- Hp; left).
    apply list_elem_of_lookup in Hx as [idx Hidx].
    pose proof (lookup_lt_Some _ _ _ Hidx) as Hlt.
    exists idx. split; [|apply elem_of_seq; lia].
    apply IH; [rewrite move_to_board_available_length; lia|].
    exists p'. simpl. rewrite (list_lookup_total_correct _ _ _ Hidx).
    split_and!.
    + apply (inj (x ::.)). rewrite Hp. by apply delete_Permutation.
    + by rewrite <- app_assoc.
    + intros k Hkr. apply Hk. rewrite !length_app in *. simpl in *. lia.
Qed.

Lemma elem_of_solve_test_as_lines_filled fo st b :
  b ∈ solve_test_as_lines_filled fo st <-> completes fo st b.
Proof. apply elem_of_solve_test_as_lines_filled_fuel. lia. Qed.

Lemma NoDup_solve_test_as_lines_filled_fuel fo fuel st :
  (length (available st) < fuel)%nat -> NoDup (available st) ->
  NoDup (solve_test_as_lines_filled_fuel fo fuel st).
Proof.
  revert st. induction fuel as [|fuel IH]; intros st Hfuel Hnd; [lia|].
  simpl. unfold solve_test_as_lines_filled_body.
  destruct (incorrect_already fo st); [constructor|].
  destruct (Nat.eqb_spec (length (available st)) 0) as [Hnil|Hnonnil].
  { apply NoDup_singleton. }
  apply NoDup_bind; [| |apply NoDup_seq].
  - intros i j b Hi Hj Hbi Hbj. apply elem_of_seq in Hi, Hj.
    apply elem_of_solve_test_as_lines_filled_fuel in Hbi, Hbj;
      try (rewrite move_to_board_available_length; lia).
    destruct Hbi as (p1 & _ & Hb1 & _), Hbj as (p2 & _ & Hb2 & _).
    simpl in *. rewrite <- !app_assoc in *. simpl in *.
    rewrite Hb1 in Hb2. apply app_inv_head in Hb2.
    injection Hb2 as Hv _.
    eapply NoDup_lookup; [exact Hnd| |].
    + apply list_lookup_lookup_total_lt. lia.
    + rewrite Hv. apply list_lookup_lookup_total_lt. lia.
  - intros idx Hidx. apply elem_of_seq in Hidx. apply IH.
    + rewrite move_to_board_available_length; lia.
    + simpl. eapply sublist_NoDup; [done | apply sublist_delete].
Qed.

End line_by_line.

Lemma spiral_solution_is_correct_lines b :
  spiral_solution_is_correct b = lines_sum_38 Spiral b.
Proof.
  unfold spiral_solution_is_correct, lines_sum_38. simpl.
  repeat (destruct (sum_correct b _); [|done]). done.
Qed.

Lemma raster_lines_ok_lines b :
  CheckHardcoded.raster_lines_ok b = lines_sum_38 Raster b.
Proof.
  unfold CheckHardcoded.raster_lines_ok, lines_sum_38. simpl.
  repeat (destruct (sum_correct b _); [|done]). done.
Qed.

Ltac explicit_board b Hlen :=
  do 19 (destruct b as [|? b]; [discriminate Hlen|]);
  destruct b; [clear Hlen|discriminate Hlen].

Ltac eqb_to_prop :=
  repeat match goal with
  | H : context [Z.eqb ?x ?y] |- _ =>
      destruct (Z.eqb_spec x y); simpl in H; try discriminate H
  end;
  repeat match goal with
  | |- context [Z.eqb ?x ?y] => destruct (Z.eqb_spec x y); simpl; try lia
  end.

Section checks.
Import BoardState.

Lemma checks_imply_lines fo b :
  length b = N_Hexes ->
  (forall k, (k <= N_Hexes)%nat -> incorrect_already fo (mk (take k b) []) = false) ->
  lines_sum_38 fo b = true.
Proof.
  intros Hlen Hk. explicit_board b Hlen.
  destruct fo.
  - pose proof (Hk 3%nat ltac:(hex_lia)) as H3.
    pose proof (Hk 7%nat ltac:(hex_lia)) as H7.
    pose proof (Hk 8%nat ltac:(hex_lia)) as H8.
    pose proof (Hk 12%nat ltac:(hex_lia)) as H12.
    pose proof (Hk 13%nat ltac:(hex_lia)) as H13.
    pose proof (Hk 16%nat ltac:(hex_lia)) as H16.
    pose proof (Hk 17%nat ltac:(hex_lia)) as H17.
    pose proof (Hk 18%nat ltac:(hex_lia)) as H18.
    pose proof (Hk 19%nat ltac:(hex_lia)) as H19.
    clear Hk.
    unfold lines_sum_38, incorrect_already, sum_correct, fold_plus, Required_Sum in *.
    cbn in *; eqb_to_prop; done.
  - pose proof (Hk 3%nat ltac:(hex_lia)) as H3.
    pose proof (Hk 5%nat ltac:(hex_lia)) as H5.
    pose proof (Hk 7%nat ltac:(hex_lia)) as H7.
    pose proof (Hk 9%nat ltac:(hex_lia)) as H9.
    pose proof (Hk 11%nat ltac:(hex_lia)) as H11.
    pose proof (Hk 12%nat ltac:(hex_lia)) as H12.
    pose proof (Hk 14%nat ltac:(hex_lia)) as H14.
    pose proof (Hk 15%nat ltac:(hex_lia)) as H15.
    pose proof (Hk 16%nat ltac:(hex_lia)) as H16.
    pose proof (Hk 17%nat ltac:(hex_lia)) as H17.
    pose proof (Hk 18%nat ltac:(hex_lia)) as H18.
    pose proof (Hk 19%nat ltac:(hex_lia)) as H19.
    clear Hk.
    unfold lines_sum_38, incorrect_already, sum_correct, fold_plus, Required_Sum in *.
    cbn in *; eqb_to_prop; done.
Qed.

Lemma lines_imply_checks fo b k :
  length b = N_Hexes -> lines_sum_38 fo b = true ->
  incorrect_already fo (mk (take k b) []) = false.
Proof.
  intros Hlen Hlines. explicit_board b Hlen.
  destruct fo;
    unfold lines_sum_38, sum_correct, fold_plus, Required_Sum in Hlines;
    cbn in Hlines; eqb_to_prop; clear Hlines;
    do 20 (destruct k as [|k];
      [unfold incorrect_already, sum_correct, fold_plus, Required_Sum; cbn;
       eqb_to_prop; done|]);
    unfold incorrect_already, sum_correct, fold_plus, Required_Sum; cbn;
    eqb_to_prop; done.
Qed.

End checks.

(** ** What the line-by-line engines produce *)

Lemma iota_1_19_NoDup : NoDup iota_1_19.
Proof. apply (bool_decide_unpack _). by vm_compute. Qed.

Lemma is_magic_length fo b : is_magic fo b -> length b = N_Hexes.
Proof. intros [Hp _]. by rewrite Hp. Qed.

(** The boards handed to the sink by a whole line-by-line run are the
    magic boards of its labeling, each exactly once. *)
Lemma line_by_line_magic fo b :
  b ∈ solve_test_line_by_line fo <-> is_magic fo b.
Proof.
  unfold solve_test_line_by_line.
  rewrite elem_of_solve_test_as_lines_filled. split.
  - intros (p & Hp & -> & Hk). simpl in *. split; [done|].
    apply checks_imply_lines; [by rewrite Hp|].
    intros k Hkr. apply Hk. rewrite Hp. hex_lia.
  - intros Hm. exists b. split_and!; [apply Hm|done|].
    intros k _. apply lines_imply_checks; [by eapply is_magic_length|apply Hm].
Qed.

Lemma line_by_line_NoDup fo : NoDup (solve_test_line_by_line fo).
Proof.
  apply NoDup_solve_test_as_lines_filled_fuel; [lia|apply iota_1_19_NoDup].
Qed.

(** ** The vector engine with deduction *)

Section vector_deduce.
Import BoardState.

Lemma find_Some xs v i :
  find xs v = Some i -> xs !! i = Some v.
Proof.
  revert i. induction xs as [|x xs IH]; intros i; simpl; [done|].
  destruct (Z.eqb_spec x v) as [->|Hne].
  - by intros [= <-].
  - destruct (find xs v) as [j|]; [|done]. intros [= <-]. by apply IH.
Qed.

Lemma find_None xs v : find xs v = None <-> v ∉ xs.
Proof.
  induction xs as [|x xs IH]; simpl.
  - split; [intros _; apply not_elem_of_nil | done].
  - rewrite not_elem_of_cons. destruct (Z.eqb_spec x v) as [->|Hne].
    + split; [done|]. by intros [? _].
    + destruct (find xs v) as [j|]; simpl.
      * split; [done|]. intros [_ Hv]. by apply IH in Hv.
      * split; [|done]. intros _. split; [done|]. by apply IH.
Qed.

Lemma find_first xs v i j :
  find xs v = Some i -> (j < i)%nat -> xs !!! j <> v.
Proof.
  revert i j. induction xs as [|x xs IH]; intros i j; simpl; [done|].
  destruct (Z.eqb_spec x v) as [->|Hne].
  - intros [= <-]. lia.
  - destruct (find xs v) as [i'|] eqn:E; [|done]. intros [= <-] Hj.
    destruct j as [|j]; [done|]. simpl. apply (IH i'); [done|lia].
Qed.

Lemma for_each_ext {A} (xs : list A) (body1 body2 : A -> Run unit) :
  (forall x, x ∈ xs -> body1 x = body2 x) ->
  for_each xs body1 = for_each xs body2.
Proof.
  induction xs as [|x xs IH]; intros Hext; [done|].
  simpl. rewrite (Hext x) by left. rewrite IH; [done|].
  intros y Hy. apply Hext. by right.
Qed.

(** The recursive calls of one level are calls on [move_to_board idx]
    for an index into the available values. *)
Lemma solve_deduce_last_cell_of_line_body_ext self1 self2 st :
  (forall idx, (idx < length (available st))%nat ->
     self1 (move_to_board idx st) = self2 (move_to_board idx st)) ->
  solve_deduce_last_cell_of_line_body self1 st
  = solve_deduce_last_cell_of_line_body self2 st.
Proof.
  intros Hext. unfold solve_deduce_last_cell_of_line_body.
  destruct (spiral_plan (length (board st))) as [|idxs| |]; try done.
  - unfold choose. apply for_each_ext. intros idx Hidx.
    apply elem_of_seq in Hidx. apply Hext. lia.
  - unfold deduce.
    destruct (find (available st) (needed_for st idxs)) as [idx|] eqn:E; [|done].
    apply Hext. apply find_Some in E. by eapply lookup_lt_Some.
Qed.

Lemma solve_deduce_last_cell_of_line_fuel_enough fuel st :
  (20 - length (board st) <= fuel)%nat ->
  solve_deduce_last_cell_of_line_fuel fuel st
  = solve_deduce_last_cell_of_line st.
Proof.
  unfold solve_deduce_last_cell_of_line. revert st.
  induction fuel as [|fuel IH]; intros st Hfuel.
  { by replace (20 - length (board st))%nat with O by lia. }
  destruct (20 - length (board st))%nat as [|m] eqn:Hm.
  - simpl. unfold solve_deduce_last_cell_of_line_body.
    rewrite spiral_plan_beyond by hex_lia. done.
  - simpl. apply solve_deduce_last_cell_of_line_body_ext. intros idx Hidx.
    pose proof (move_to_board_board_length idx st) as Hlen.
    rewrite IH by lia. f_equal. lia.
Qed.

(** [solve_deduce_last_cell_of_line] satisfies the recursion equation of
    the source. *)
Lemma solve_deduce_last_cell_of_line_unfold st :
  solve_deduce_last_cell_of_line st
  = solve_deduce_last_cell_of_line_body solve_deduce_last_cell_of_line st.
Proof.
  unfold solve_deduce_last_cell_of_line at 1.
  destruct (20 - length (board st))%nat as [|m] eqn:Hm.
  - simpl. unfold solve_deduce_last_cell_of_line_body.
    rewrite spiral_plan_beyond by hex_lia. done.
  - simpl. apply solve_deduce_last_cell_of_line_body_ext. intros idx Hidx.
    pose proof (move_to_board_board_length idx st) as Hlen.
    apply solve_deduce_last_cell_of_line_fuel_enough. lia.
Qed.

(** *** States of a search *)

Lemma move_to_board_Permutation idx st :
  (idx < length (available st))%nat ->
  board (move_to_board idx st) ++ available (move_to_board idx st)
  ≡ₚ board st ++ available st.
Proof.
  intros Hidx. simpl. rewrite <- app_assoc. simpl.
  apply Permutation_app_head. symmetry. apply delete_Permutation.
  by apply list_lookup_lookup_total_lt.
Qed.

Lemma reachable_Permutation st :
  reachable st -> board st ++ available st ≡ₚ iota_1_19.
Proof.
  induction 1 as [|st idx _ IH Hidx]; [done|].
  by rewrite move_to_board_Permutation.
Qed.

Lemma StronglySorted_delete {A} (R : relation A) (l : list A) i :
  StronglySorted R l -> StronglySorted R (delete i l).
Proof.
  intros Hs. revert i. induction Hs as [|x l Hs IH Hx]; intros i;
    [destruct i; constructor|].
  destruct i as [|i]; simpl; [done|].
  constructor; [apply IH|]. by apply Forall_delete.
Qed.

Lemma reachable_sorted st : reachable st -> StronglySorted Z.lt (available st).
Proof.
  induction 1 as [|st idx _ IH Hidx].
  - simpl. unfold iota_1_19. repeat (constructor; [|repeat constructor; lia]).
    constructor.
  - simpl. by apply StronglySorted_delete.
Qed.

End vector_deduce.

(** ** States of the searches and what every one of them satisfies *)

Lemma iota_1_19_range : Forall (fun v => 1 <= v <= 19) iota_1_19.
Proof. unfold iota_1_19. repeat (constructor; [lia|]). constructor. Qed.

Lemma Permutation_iota_facts (l : list Z) :
  l ≡ₚ iota_1_19 ->
  length l = N_Hexes /\ NoDup l /\ Forall (fun v => 1 <= v <= 19) l.
Proof.
  intros Hp. split_and!.
  - by rewrite Hp.
  - rewrite Hp. apply iota_1_19_NoDup.
  - rewrite Hp. apply iota_1_19_range.
Qed.

Section vector_states.
Import BoardState.

(** Every recursive call of the two vector engines is made on a state of
    the search. *)
Lemma solve_test_as_lines_filled_body_reachable fo self1 self2 st :
  reachable st ->
  (forall st', reachable st' -> self1 st' = self2 st') ->
  solve_test_as_lines_filled_body fo self1 st
  = solve_test_as_lines_filled_body fo self2 st.
Proof.
  intros Hst Hext. apply solve_test_as_lines_filled_body_ext.
  intros idx Hidx. apply Hext. by constructor.
Qed.

Lemma solve_deduce_last_cell_of_line_body_reachable self1 self2 st :
  reachable st ->
  (forall st', reachable st' -> self1 st' = self2 st') ->
  solve_deduce_last_cell_of_line_body self1 st
  = solve_deduce_last_cell_of_line_body self2 st.
Proof.
  intros Hst Hext. apply solve_deduce_last_cell_of_line_body_ext.
  intros idx Hidx. apply Hext. by constructor.
Qed.

Lemma reachable_board_facts st :
  reachable st ->
  NoDup (board st) /\ Forall (fun v => 1 <= v <= 19) (board st)
  /\ Forall (fun v => 1 <= v <= 19) (available st)
  /\ (length (board st) + length (available st) = N_Hexes)%nat.
Proof.
  intros Hst. apply reachable_Permutation, Permutation_iota_facts in Hst
    as (Hlen & Hnd & Hr).
  apply NoDup_app in Hnd as (Hnd & _ & _).
  apply Forall_app in Hr as [Hb Ha].
  rewrite length_app in Hlen. done.
Qed.

End vector_states.

Section array_states.
Import ArrayBoardState.

Lemma reachable_Permutation_array st :
  reachable st -> numbers st ≡ₚ iota_1_19.
Proof.
  induction 1 as [|st i _ IH Hn Hi|st _ IH|st _ IH]; try done.
  simpl. rewrite swap_Permutation; [done|..];
    apply Permutation_iota_facts in IH as (-> & _); done.
Qed.

Lemma place_reachable st i :
  reachable st -> (n_cells_filled st < N_Hexes)%nat -> (i < N_Hexes)%nat ->
  reachable (place i st).
Proof.
  intros Hst Hn Hi. unfold place.
  apply (reachable_incr (swap_numbers (n_cells_filled st) i st)).
  by constructor.
Qed.

(** Every nested call of [solve] is made on a state of the search. *)
Lemma solve_body_out_reachable self1 self2 st :
  reachable st ->
  (forall st', reachable st' -> snd (self1 st') = snd (self2 st')) ->
  solve_body_out self1 st = solve_body_out self2 st.
Proof.
  intros Hst Hext. unfold solve_body_out.
  destruct (spiral_plan (n_cells_filled st)) as [|idxs| |] eqn:Hplan; try done.
  - pose proof (spiral_plan_branch_lt _ Hplan).
    apply Forall_bind_ext, list.Forall_forall. intros i Hi.
    apply elem_of_seq in Hi. apply Hext, place_reachable; [done..|hex_lia].
  - pose proof (spiral_plan_deduce_lt _ _ Hplan) as Hn. cbv zeta.
    destruct (Nat.eqb_spec (find_needed_from_idxs st idxs) N_Hexes) as [|Hne];
      [done|].
    apply Hext, place_reachable; [done..|].
    pose proof (find_needed_range st
      (to_uint8 (Required_Sum - fold_plus (numbers st) idxs)) ltac:(lia)).
    unfold find_needed_from_idxs in *. hex_lia.
Qed.

End array_states.

(** ** The plan: index lists and partial sums *)

Lemma spiral_plan_idxs n idxs :
  spiral_plan n = DeduceFrom idxs ->
  NoDup idxs /\ Forall (fun i => (i < n)%nat) idxs /\ (length idxs <= 4)%nat.
Proof.
  do 20 (destruct n as [|n];
    [first [discriminate
           | intros [= <-]; split_and!;
             [apply (bool_decide_unpack _); by vm_compute
             |repeat (constructor; [lia|]); constructor
             |simpl; lia]]|]).
  discriminate.
Qed.

Ltac in_list :=
  repeat first [apply list_elem_of_here | apply list_elem_of_further].

(** At most four cells with distinct values from 1..19 sum to at most
    19 + 18 + 17 + 16. *)
Lemma fold_plus_bounds (l : list Z) idxs :
  NoDup l -> Forall (fun v => 1 <= v <= 19) l ->
  NoDup idxs -> Forall (fun i => (i < length l)%nat) idxs ->
  (length idxs <= 4)%nat ->
  0 <= fold_plus l idxs <= 70.
Proof.
  intros Hnd Hr Hid Hlt Hlen.
  assert (Hval : forall i, i ∈ idxs -> 1 <= l !!! i <= 19).
  { intros i Hi. apply (Forall_lookup_total_1 _ _ _ Hr).
    by eapply list.Forall_forall in Hlt. }
  assert (Hdiff : forall i j, i ∈ idxs -> j ∈ idxs -> i <> j -> l !!! i <> l !!! j).
  { intros i j Hi Hj Hij Heq. apply Hij.
    eapply list.Forall_forall in Hi as Hi'; [|exact Hlt].
    eapply list.Forall_forall in Hj as Hj'; [|exact Hlt].
    eapply NoDup_lookup; [exact Hnd| |].
    - by apply list_lookup_lookup_total_lt.
    - rewrite Heq. by apply list_lookup_lookup_total_lt. }
  destruct idxs as [|i1 [|i2 [|i3 [|i4 [|i5 idxs]]]]]; simpl in *; try lia;
    rewrite ?NoDup_cons, ?not_elem_of_cons in Hid; destruct_and?.
  - pose proof (Hval i1 ltac:(in_list)). lia.
  - pose proof (Hval i1 ltac:(in_list)). pose proof (Hval i2 ltac:(in_list)).
    pose proof (Hdiff i1 i2 ltac:(in_list) ltac:(in_list) ltac:(done)).
    lia.
  - pose proof (Hval i1 ltac:(in_list)). pose proof (Hval i2 ltac:(in_list)).
    pose proof (Hval i3 ltac:(in_list)).
    pose proof (Hdiff i1 i2 ltac:(in_list) ltac:(in_list) ltac:(done)).
    pose proof (Hdiff i1 i3 ltac:(in_list) ltac:(in_list) ltac:(done)).
    pose proof (Hdiff i2 i3 ltac:(in_list) ltac:(in_list) ltac:(done)).
    lia.
  - pose proof (Hval i1 ltac:(in_list)). pose proof (Hval i2 ltac:(in_list)).
    pose proof (Hval i3 ltac:(in_list)). pose proof (Hval i4 ltac:(in_list)).
    pose proof (Hdiff i1 i2 ltac:(in_list) ltac:(in_list) ltac:(done)).
    pose proof (Hdiff i1 i3 ltac:(in_list) ltac:(in_list) ltac:(done)).
    pose proof (Hdiff i1 i4 ltac:(in_list) ltac:(in_list) ltac:(done)).
    pose proof (Hdiff i2 i3 ltac:(in_list) ltac:(in_list) ltac:(done)).
    pose proof (Hdiff i2 i4 ltac:(in_list) ltac:(in_list) ltac:(done)).
    pose proof (Hdiff i3 i4 ltac:(in_list) ltac:(in_list) ltac:(done)).
    lia.
Qed.

(** The narrowing to [uint8_t] of [38 - s] for a partial sum [s] of a
    reachable state. *)
Lemma needed_cases s :
  0 <= s <= 70 ->
  (1 <= Required_Sum - s <= 19 /\ to_uint8 (Required_Sum - s) = Required_Sum - s)
  \/ (~ 1 <= Required_Sum - s <= 19 /\ ~ 1 <= to_uint8 (Required_Sum - s) <= 19)
     /\ (Required_Sum < s -> 224 <= to_uint8 (Required_Sum - s) <= 255).
Proof.
  intros Hs. unfold to_uint8, Required_Sum.
  destruct (decide (s <= 38)) as [Hle|Hgt].
  - rewrite Z.mod_small by lia. lia.
  - right. replace (38 - s) with ((294 - s) + (-1) * 256) by lia.
    rewrite Z.mod_add by lia. rewrite Z.mod_small by lia. lia.
Qed.

(** ** Partial sums on a magic board *)

(** [fold_plus] reads the cells it is given and no others. *)
Lemma fold_plus_agree (a b : list Z) idxs :
  Forall (fun i => a !!! i = b !!! i) idxs -> fold_plus a idxs = fold_plus b idxs.
Proof.
  induction 1 as [|i idxs Hi _ IH]; [done|]. simpl. by rewrite Hi, IH.
Qed.

Lemma lookup_total_take_lt (l : list Z) n i :
  (i < n)%nat -> take n l !!! i = l !!! i.
Proof. intros Hi. by rewrite !list_lookup_total_alt, lookup_take_lt. Qed.

Lemma fold_plus_take (b : list Z) n idxs :
  Forall (fun i => (i < n)%nat) idxs ->
  fold_plus (take n b) idxs = fold_plus b idxs.
Proof.
  intros Hlt. apply fold_plus_agree. eapply Forall_impl; [exact Hlt|].
  intros i Hi. by apply lookup_total_take_lt.
Qed.

Lemma fold_plus_same_prefix (a b : list Z) n idxs :
  take n b = take n a -> Forall (fun i => (i < n)%nat) idxs ->
  fold_plus b idxs = fold_plus a idxs.
Proof.
  intros Ht Hlt. rewrite <- (fold_plus_take b n), <- (fold_plus_take a n) by done.
  by rewrite Ht.
Qed.

(** On a magic board every deduce step of the plan finds the value of
    the cell it fills. *)
Lemma deduce_line_sum b k idxs :
  length b = N_Hexes -> lines_sum_38 Spiral b = true ->
  spiral_plan k = DeduceFrom idxs ->
  fold_plus b idxs + b !!! k = Required_Sum.
Proof.
  intros Hlen Hlines. explicit_board b Hlen.
  unfold lines_sum_38, sum_correct, fold_plus, Required_Sum in Hlines.
  cbn in Hlines. eqb_to_prop. clear Hlines.
  do 20 (destruct k as [|k];
    [first [discriminate
           | intros [= <-]; unfold fold_plus, Required_Sum; cbn; lia]|]).
  discriminate.
Qed.

Lemma to_uint8_small v : 1 <= v <= 19 -> to_uint8 v = v.
Proof. intros Hv. unfold to_uint8. apply Z.mod_small. lia. Qed.

Lemma magic_deduced_value b k idxs :
  is_magic Spiral b -> spiral_plan k = DeduceFrom idxs ->
  to_uint8 (Required_Sum - fold_plus b idxs) = b !!! k.
Proof.
  intros Hm Hplan. pose proof (is_magic_length _ _ Hm) as Hlen.
  destruct Hm as [Hp Hlines].
  pose proof (deduce_line_sum b k idxs Hlen Hlines Hplan) as Hsum.
  replace (Required_Sum - fold_plus b idxs) with (b !!! k) by lia.
  apply to_uint8_small.
  apply Permutation_iota_facts in Hp as (_ & _ & Hr).
  apply (Forall_lookup_total_1 _ _ _ Hr).
  pose proof (spiral_plan_deduce_lt _ _ Hplan). lia.
Qed.

(** ** The deduction search finds every magic board *)

Section search.
Import BoardState.

Lemma find_elem_of xs v : v ∈ xs -> exists i, find xs v = Some i /\ xs !! i = Some v.
Proof.
  intros Hin. destruct (find xs v) as [i|] eqn:E.
  - exists i. split; [done|]. by apply find_Some.
  - by apply find_None in E.
Qed.

Lemma spiral_plan_terminal n : spiral_plan n = Terminal -> n = N_Hexes.
Proof.
  do 20 (destruct n as [|n]; [first [discriminate | done]|]). discriminate.
Qed.

Lemma spiral_plan_no_case n : spiral_plan n = NoCase -> (N_Hexes < n)%nat.
Proof.
  do 20 (destruct n as [|n]; [discriminate|]). intros _. hex_lia.
Qed.

(** Every magic board is among the boards the deduction search arrives
    at. *)
Lemma spiral_search_fuel_complete fuel st b :
  (20 - length (board st) <= fuel)%nat ->
  (exists p, p ≡ₚ available st /\ b = board st ++ p) ->
  is_magic Spiral b ->
  b ∈ spiral_search_fuel fuel st.
Proof.
  revert st. induction fuel as [|fuel IH]; intros st Hfuel (p & Hp & Hb) Hm.
  { pose proof (is_magic_length _ _ Hm) as Hlen. subst b.
    rewrite length_app in Hlen. hex_lia. }
  pose proof (is_magic_length _ _ Hm) as Hlen.
  assert (Hnext : forall x p' i,
            p = x :: p' -> available st !! i = Some x ->
            b ∈ spiral_search_fuel fuel (move_to_board i st)).
  { intros x p' i -> Hi. apply IH; [|exists p'; split|done].
    - rewrite move_to_board_board_length. lia.
    - simpl. apply (inj (x ::.)). rewrite Hp. by apply delete_Permutation.
    - simpl. rewrite (list_lookup_total_correct _ _ _ Hi), Hb.
      by rewrite <- app_assoc. }
  simpl.
  destruct (spiral_plan (length (board st))) as [|idxs| |] eqn:Hplan.
  - pose proof (spiral_plan_branch_lt _ Hplan) as Hn.
    destruct p as [|x p'].
    { subst b. rewrite length_app in Hlen. simpl in Hlen. lia. }
    assert (x ∈ available st) as Hx by (rewrite <- Hp; left).
    apply list_elem_of_lookup in Hx as [i Hi].
    apply list_elem_of_bind. exists i. split; [by eapply Hnext|].
    apply elem_of_seq. apply lookup_lt_Some in Hi. lia.
  - pose proof (spiral_plan_deduce_lt _ _ Hplan) as Hn.
    destruct p as [|x p'].
    { subst b. rewrite length_app in Hlen. simpl in Hlen. lia. }
    assert (needed_for st idxs = x) as ->.
    { unfold needed_for.
      destruct (spiral_plan_idxs _ _ Hplan) as (_ & Hlt & _).
      assert (Hpre : take (length (board st)) b = board st)
        by (rewrite Hb; apply take_app_length).
      replace (fold_plus (board st) idxs) with (fold_plus b idxs)
        by (rewrite <- (fold_plus_take b (length (board st))) by done;
            by rewrite Hpre).
      rewrite (magic_deduced_value b _ idxs Hm Hplan).
      rewrite Hb. by rewrite list_lookup_total_middle. }
    assert (x ∈ available st) as Hx by (rewrite <- Hp; left).
    destruct (find_elem_of _ _ Hx) as (i & -> & Hi). by eapply Hnext.
  - destruct p as [|x p'].
    + rewrite app_nil_r in Hb. subst b. apply list_elem_of_here.
    + apply spiral_plan_terminal in Hplan. subst b.
      rewrite length_app in Hlen. simpl in Hlen. lia.
  - apply spiral_plan_no_case in Hplan. subst b.
    rewrite length_app in Hlen. lia.
Qed.

(** The whole deduction search, evaluated. *)
Lemma spiral_search_run : spiral_search BoardState.initial = spiral_solutions.
Proof. vm_cast_no_check (eq_refl spiral_solutions). Qed.

Lemma magic_in_spiral_solutions b : is_magic Spiral b -> b ∈ spiral_solutions.
Proof.
  intros Hm. rewrite <- spiral_search_run.
  apply spiral_search_fuel_complete; [lia| |done].
  exists b. split; [apply Hm | done].
Qed.

Lemma spiral_solutions_magic : Forall (is_magic Spiral) spiral_solutions.
Proof.
  unfold spiral_solutions.
  repeat (constructor;
    [split; [apply (bool_decide_unpack _); by vm_compute | by vm_compute]|]).
  constructor.
Qed.

Lemma spiral_magic_boards b : is_magic Spiral b <-> b ∈ spiral_solutions.
Proof.
  split; [apply magic_in_spiral_solutions|].
  intros Hb. by eapply list.Forall_forall in Hb; [|apply spiral_solutions_magic].
Qed.

Lemma spiral_solutions_NoDup : NoDup spiral_solutions.
Proof. apply (bool_decide_unpack _). by vm_compute. Qed.

Lemma line_by_line_spiral_run :
  solve_test_line_by_line Spiral ≡ₚ spiral_solutions.
Proof.
  apply NoDup_Permutation;
    [apply line_by_line_NoDup | apply spiral_solutions_NoDup |].
  intros b. by rewrite line_by_line_magic, spiral_magic_boards.
Qed.

End search.

(** ** Sequencing of runs *)

Lemma run_bind_eq {A B} (m : Run A) (k : A -> Run B) g :
  (m ≫= k) g
  = match m g with
    | (ev, Returned a g') => let '(ev', r) := k a g' in (ev ++ ev', r)
    | (ev, Exited) => (ev, Exited)
    end.
Proof. done. Qed.

Lemma run_bind_ext {A B} (m : Run A) (k1 k2 : A -> Run B) g :
  (forall a g', k1 a g' = k2 a g') -> (m ≫= k1) g = (m ≫= k2) g.
Proof.
  intros Hk. rewrite !run_bind_eq. destruct (m g) as [ev [a g'|]]; [|done].
  by rewrite Hk.
Qed.

Lemma run_bind_assoc {A B C} (m : Run A) (k1 : A -> Run B) (k2 : B -> Run C) g :
  ((m ≫= k1) ≫= k2) g = (m ≫= fun a => k1 a ≫= k2) g.
Proof.
  rewrite !run_bind_eq. destruct (m g) as [ev [a g'|]]; [|done].
  rewrite run_bind_eq. destruct (k1 a g') as [ev1 [b g1|]].
  - destruct (k2 b g1) as [ev2 r]. by rewrite app_assoc.
  - done.
Qed.

Lemma run_ret_bind {A B} (a : A) (k : A -> Run B) g :
  (mret a ≫= k) g = k a g.
Proof. rewrite run_bind_eq. simpl. by destruct (k a g). Qed.

Lemma run_bind_ret (m : Run unit) g : (m ≫= fun _ => mret tt) g = m g.
Proof.
  rewrite run_bind_eq. destruct (m g) as [ev [[] g'|]]; [|done].
  simpl. by rewrite app_nil_r.
Qed.

Lemma for_each_ext_run {A} (xs : list A) (body1 body2 : A -> Run unit) g :
  (forall x, x ∈ xs -> forall g', body1 x g' = body2 x g') ->
  for_each xs body1 g = for_each xs body2 g.
Proof.
  revert g. induction xs as [|x xs IH]; intros g Hext; [done|].
  simpl. rewrite !run_bind_eq. rewrite (Hext x) by left.
  destruct (body2 x g) as [ev [[] g'|]]; [|done].
  rewrite IH; [done|]. intros y Hy. apply Hext. by right.
Qed.

Lemma for_each_app {A} (xs ys : list A) (body : A -> Run unit) g :
  for_each (xs ++ ys) body g = (for_each xs body ≫= fun _ => for_each ys body) g.
Proof.
  revert g. induction xs as [|x xs IH]; intros g; simpl.
  - by rewrite run_ret_bind.
  - rewrite run_bind_assoc. apply run_bind_ext. intros _ g'. apply IH.
Qed.

Lemma for_each_bind {A B} (xs : list A) (f : A -> list B) (body : B -> Run unit) g :
  for_each (xs ≫= f) body g = for_each xs (fun x => for_each (f x) body) g.
Proof.
  revert g. induction xs as [|x xs IH]; intros g; [done|].
  change ((x :: xs) ≫= f) with (f x ++ xs ≫= f).
  rewrite for_each_app. simpl. apply run_bind_ext. intros _ g'. apply IH.
Qed.

Lemma for_each_singleton {A} (x : A) (body : A -> Run unit) g :
  for_each [x] body g = body x g.
Proof. simpl. apply run_bind_ret. Qed.

(** ** The vector engine with deduction, by way of the deduction search *)

Section vector_by_search.
Import BoardState.

(** The engine runs its terminal step on the boards the search arrives
    at, in order. *)
Lemma solve_deduce_last_cell_of_line_fuel_search fuel st g :
  solve_deduce_last_cell_of_line_fuel fuel st g
  = for_each (spiral_search_fuel fuel st) terminal_step g.
Proof.
  revert st g. induction fuel as [|fuel IH]; intros st g; [done|].
  simpl. unfold solve_deduce_last_cell_of_line_body.
  destruct (spiral_plan (length (board st))) as [|idxs| |].
  - unfold choose. rewrite for_each_bind.
    apply for_each_ext_run. intros i _ g'. apply IH.
  - unfold deduce.
    destruct (find (available st) (needed_for st idxs)); [apply IH|done].
  - by rewrite for_each_singleton.
  - done.
Qed.

Lemma solve_deduce_last_cell_of_line_search st g :
  solve_deduce_last_cell_of_line st g
  = for_each (spiral_search st) terminal_step g.
Proof. apply solve_deduce_last_cell_of_line_fuel_search. Qed.

End vector_by_search.

Lemma terminal_step_rejected b g :
  CheckHardcoded.raster_lines_ok b = false ->
  consumed_boards (events (terminal_step b g)) = [].
Proof.
  intros Hb. unfold terminal_step. rewrite run_bind_eq.
  unfold CheckHardcoded.is_solution. rewrite Hb.
  by destruct (_ =? n_attempts_bail g); destruct (_ =? 0).
Qed.

Lemma consumed_boards_app evs1 evs2 :
  consumed_boards (evs1 ++ evs2) = consumed_boards evs1 ++ consumed_boards evs2.
Proof. unfold consumed_boards. apply flat_map_app. Qed.

Lemma for_each_rejected bs g :
  Forall (fun b => CheckHardcoded.raster_lines_ok b = false) bs ->
  consumed_boards (events (for_each bs terminal_step g)) = [].
Proof.
  intros Hbs. revert g. induction Hbs as [|b bs Hb _ IH]; intros g; [done|].
  simpl. rewrite run_bind_eq.
  pose proof (terminal_step_rejected b g Hb) as Hnone.
  destruct (terminal_step b g) as [ev [[] g'|]]; [|done].
  specialize (IH g'). destruct (for_each bs terminal_step g') as [ev' r].
  unfold events in *. simpl in *. by rewrite consumed_boards_app, Hnone, IH.
Qed.

(** Every magic board of the spiral labeling fails the raster test that
    the vector engine applies to it. *)
Lemma spiral_solutions_fail_raster_test :
  Forall (fun b => CheckHardcoded.raster_lines_ok b = false) spiral_solutions.
Proof. unfold spiral_solutions. repeat (constructor; [reflexivity|]). constructor. Qed.

(** Whatever the attempt counters at its start, a whole run of the
    vector engine with deduction hands nothing to the sink. *)
Lemma deduce_vector_consumes_nothing g :
  consumed_boards
    (events (BoardState.solve_deduce_last_cell_of_line BoardState.initial g)) = [].
Proof.
  rewrite solve_deduce_last_cell_of_line_search, spiral_search_run.
  apply for_each_rejected, spiral_solutions_fail_raster_test.
Qed.

(** The whole run of the vector engine with deduction, evaluated. *)
Lemma deduce_vector_run :
  solve_deduce_last_cell_of_line_vector
  = ([], Returned tt (mkCounters 12 10000000 100000000)).
Proof.
  unfold solve_deduce_last_cell_of_line_vector.
  rewrite solve_deduce_last_cell_of_line_search, spiral_search_run.
  reflexivity.
Qed.

(** ** The raster labeling against the spiral labeling *)

Lemma to_raster_to_spiral b : length b = N_Hexes -> to_raster (to_spiral b) = b.
Proof. intros Hlen. by explicit_board b Hlen. Qed.

Lemma relabel_Permutation (b : list Z) idxs :
  idxs ≡ₚ seq 0 (length b) -> (fun i => b !!! i) <$> idxs ≡ₚ b.
Proof.
  intros ->.
  assert ((fun i => b !!! i) <$> seq 0 (length b) = b) as ->; [|done].
  apply list_eq_same_length with (length b);
    [done|by rewrite length_fmap, length_seq|].
  intros i x y Hi Hx Hy. rewrite list_lookup_fmap, lookup_seq_lt in Hx by done.
  simpl in Hx. apply list_lookup_total_correct in Hy. congruence.
Qed.

Lemma raster_of_spiral_Permutation : raster_of_spiral ≡ₚ seq 0 N_Hexes.
Proof. apply (bool_decide_unpack _). by vm_compute. Qed.

Lemma spiral_of_raster_Permutation : spiral_of_raster ≡ₚ seq 0 N_Hexes.
Proof. apply (bool_decide_unpack _). by vm_compute. Qed.

Lemma to_spiral_Permutation b : length b = N_Hexes -> to_spiral b ≡ₚ b.
Proof.
  intros Hlen. apply relabel_Permutation.
  rewrite Hlen. apply raster_of_spiral_Permutation.
Qed.

Lemma to_raster_Permutation b : length b = N_Hexes -> to_raster b ≡ₚ b.
Proof.
  intros Hlen. apply relabel_Permutation.
  rewrite Hlen. apply spiral_of_raster_Permutation.
Qed.

(** The relabeling carries the fifteen raster lines onto the fifteen
    spiral lines. *)
Lemma to_spiral_lines b :
  length b = N_Hexes ->
  lines_sum_38 Spiral (to_spiral b) = lines_sum_38 Raster b.
Proof.
  intros Hlen. explicit_board b Hlen.
  unfold lines_sum_38, sum_correct, fold_plus, Required_Sum. cbn.
  apply eq_true_iff_eq. rewrite !andb_true_iff, !Z.eqb_eq. 
  intuition lia.
Qed.

Lemma to_spiral_magic b : is_magic Raster b -> is_magic Spiral (to_spiral b).
Proof.
  intros Hm. pose proof (is_magic_length _ _ Hm) as Hlen.
  destruct Hm as [Hp Hl]. split.
  - by rewrite to_spiral_Permutation.
  - by rewrite to_spiral_lines.
Qed.

Lemma raster_solutions_relabel : raster_solutions = to_raster <$> spiral_solutions.
Proof. reflexivity. Qed.

Lemma raster_solutions_magic : Forall (is_magic Raster) raster_solutions.
Proof.
  unfold raster_solutions.
  repeat (constructor; [split; [apply (bool_decide_unpack _); by vm_compute | by vm_compute]|]).
  constructor.
Qed.

Lemma raster_magic_boards b : is_magic Raster b <-> b ∈ raster_solutions.
Proof.
  split.
  - intros Hm. pose proof (is_magic_length _ _ Hm) as Hlen.
    apply to_spiral_magic, spiral_magic_boards in Hm.
    rewrite <- (to_raster_to_spiral b Hlen).
    rewrite raster_solutions_relabel.
    by apply list_elem_of_fmap_2.
  - intros Hb. by eapply list.Forall_forall in Hb; [|apply raster_solutions_magic].
Qed.

Lemma raster_solutions_NoDup : NoDup raster_solutions.
Proof. apply (bool_decide_unpack _). by vm_compute. Qed.

Lemma line_by_line_raster_run :
  solve_test_line_by_line Raster ≡ₚ raster_solutions.
Proof.
  apply NoDup_Permutation;
    [apply line_by_line_NoDup | apply raster_solutions_NoDup |].
  intros b. by rewrite line_by_line_magic, raster_magic_boards.
Qed.

(** ** The two array strategies *)

Section claims_array.
Import ArrayBoardState.

(** C3.  Started from the same state, [solve<CreateNew>] and
    [solve<SwapAndSwapBack>] hand the same boards to the sink, in the
    same order. *)
Theorem strategies_same_boards (st : t) :
  length (numbers st) = N_Hexes ->
  snd (solve CreateNew st) = snd (solve SwapAndSwapBack st).
Proof.
  intros Hlen. unfold solve. by rewrite solve_fuel_strategies.
Qed.

Lemma strategies_same_boards_witness :
  snd (solve CreateNew initial) = snd (solve SwapAndSwapBack initial).
Proof. apply (strategies_same_boards initial). reflexivity. Defined.

(** C4.  Under [SwapAndSwapBack], when [solve], [choose] or
    [deduce_from_idx] returns, [numbers] and [n_cells_filled] are what
    they were on entry; a deduction that found nothing (index 19)
    returns the state untouched without calling anything. *)
Theorem swap_and_swap_back_restores (st : t) (idx : nat) :
  length (numbers st) = N_Hexes ->
  fst (solve SwapAndSwapBack st) = st
  /\ ((n_cells_filled st < N_Hexes)%nat ->
      fst (choose SwapAndSwapBack (solve SwapAndSwapBack) st) = st)
  /\ ((n_cells_filled st < N_Hexes)%nat -> (idx <= N_Hexes)%nat ->
      fst (deduce_from_idx SwapAndSwapBack (solve SwapAndSwapBack) idx st) = st)
  /\ (forall self, deduce_from_idx SwapAndSwapBack self N_Hexes st = (st, [])).
Proof.
  intros Hlen. split_and!.
  - by apply solve_restores.
  - intros Hn. apply choose_restores; auto using solve_restores.
  - intros Hn Hidx. apply deduce_from_idx_restores; auto using solve_restores.
  - done.
Qed.

Lemma swap_and_swap_back_restores_witness :
  fst (solve SwapAndSwapBack initial) = initial
  /\ fst (choose SwapAndSwapBack (solve SwapAndSwapBack) initial) = initial
  /\ fst (deduce_from_idx SwapAndSwapBack (solve SwapAndSwapBack) 7 initial)
     = initial
  /\ (forall self, deduce_from_idx SwapAndSwapBack self N_Hexes initial
                   = (initial, [])).
Proof.
  destruct (swap_and_swap_back_restores initial 7 eq_refl)
    as (Hsolve & Hchoose & Hdeduce & Hfailed).
  split_and!; [exact Hsolve | apply Hchoose | apply Hdeduce | exact Hfailed];
    simpl; unfold N_Hexes; lia.
Defined.

(** C10.  With at most 19 cells filled, [find_needed v] returns an index
    of the unfilled suffix holding [v] when [v] occurs there and 19 when
    it does not.  [deduce_from_idx] does nothing for 19; for any other
    result both swapped cells lie inside the array and the nested call
    runs with [v], taken from the unfilled suffix, in the next cell. *)
Theorem find_needed_in_bounds (st : t) (v : Z) :
  length (numbers st) = N_Hexes -> (n_cells_filled st <= N_Hexes)%nat ->
  let n := n_cells_filled st in
  let i := find_needed st v in
  (v ∈ drop n (numbers st) ->
     (n <= i < N_Hexes)%nat /\ numbers st !! i = Some v)
  /\ (v ∉ drop n (numbers st) -> i = N_Hexes)
  /\ (forall rs self, deduce_from_idx rs self N_Hexes st = (st, []))
  /\ (i <> N_Hexes ->
      (n < length (numbers st))%nat /\ (i < length (numbers st))%nat
      /\ v ∈ drop n (numbers st)
      /\ numbers (place i st) !! n = Some v
      /\ forall rs self,
           snd (deduce_from_idx rs self i st) = snd (self (place i st))).
Proof.
  intros Hlen Hn n i. split_and!.
  - intros Hin. destruct (find_needed_found st v Hlen Hn Hin) as [Hr Hv].
    split; [done|]. rewrite <- Hv. apply list_lookup_lookup_total_lt.
    fold i. lia.
  - by apply find_needed_absent.
  - done.
  - intros Hi.
    assert (Hin : v ∈ drop n (numbers st)).
    { destruct (decide (v ∈ drop n (numbers st))) as [|Hnot]; [done|].
      by apply (find_needed_absent st v Hlen Hn) in Hnot. }
    destruct (find_needed_found st v Hlen Hn Hin) as [Hr Hv].
    fold n i in Hr, Hv. split_and!; [lia|lia|done| |].
    + destruct st as [a m]. simpl in *. subst n.
      rewrite <- Hv. rewrite <- (swap_lookup_l a m i) by lia.
      apply list_lookup_lookup_total_lt. rewrite length_swap. lia.
    + intros rs self. unfold deduce_from_idx.
      destruct (Nat.eqb_spec i N_Hexes) as [|_]; [done|].
      destruct rs; cbv zeta; fold (place i st); by destruct (self _).
Qed.

Lemma find_needed_in_bounds_witness :
  find_needed sample_array_state 7 = 6%nat
  /\ numbers sample_array_state !! 6%nat = Some 7
  /\ numbers (place 6 sample_array_state) !! 2%nat = Some 7
  /\ find_needed sample_array_state 10 = N_Hexes
  /\ (forall rs self,
        deduce_from_idx rs self N_Hexes sample_array_state
        = (sample_array_state, [])).
Proof.
  destruct (find_needed_in_bounds sample_array_state 7 eq_refl
              ltac:(simpl; unfold N_Hexes; lia))
    as (Hfound & _ & Hnothing & Hplaced).
  destruct (find_needed_in_bounds sample_array_state 10 eq_refl
              ltac:(simpl; unfold N_Hexes; lia))
    as (_ & Habsent & _).
  split_and!.
  - reflexivity.
  - apply Hfound. apply (bool_decide_unpack _). reflexivity.
  - apply Hplaced. discriminate.
  - apply Habsent. apply (bool_decide_unpack _). reflexivity.
  - exact Hnothing.
Defined.

End claims_array.

(** ** Deduce steps *)

Section deduce_steps.

Lemma vector_partial_sum st idxs :
  BoardState.reachable st ->
  spiral_plan (length (BoardState.board st)) = DeduceFrom idxs ->
  0 <= fold_plus (BoardState.board st) idxs <= 70.
Proof.
  intros Hst Hplan.
  destruct (reachable_board_facts st Hst) as (Hnd & Hb & _ & _).
  destruct (spiral_plan_idxs _ _ Hplan) as (Hid & Hlt & Hlen).
  by apply fold_plus_bounds.
Qed.

Lemma array_partial_sum st idxs :
  ArrayBoardState.reachable st ->
  spiral_plan (ArrayBoardState.n_cells_filled st) = DeduceFrom idxs ->
  0 <= fold_plus (ArrayBoardState.numbers st) idxs <= 70.
Proof.
  intros Hst Hplan.
  apply reachable_Permutation_array, Permutation_iota_facts in Hst
    as (Hlen & Hnd & Hr).
  destruct (spiral_plan_idxs _ _ Hplan) as (Hid & Hlt & Hlen4).
  pose proof (spiral_plan_deduce_lt _ _ Hplan) as Hn.
  apply fold_plus_bounds; [done..| |done].
  eapply Forall_impl; [exact Hlt|]. simpl. intros i Hi. lia.
Qed.

(** C5.  At a deduce step of a state of the search, [needed] is
    [38 - partial] narrowed to [uint8_t], where [partial] sums the
    filled cells named by the plan.  When [needed] is not among the
    available values the step returns at once: nothing is placed,
    nothing is handed to the sink, no nested call is made.  That is the
    case whenever [38 - partial] is outside 1..19; and when [partial]
    exceeds 38 the narrowed value lies in 224..255. *)
Theorem deduce_prunes :
  (forall st idxs,
     BoardState.reachable st ->
     spiral_plan (length (BoardState.board st)) = DeduceFrom idxs ->
     let partial := fold_plus (BoardState.board st) idxs in
     let needed := BoardState.needed_for st idxs in
     needed = to_uint8 (Required_Sum - partial)
     /\ (needed ∉ BoardState.available st ->
         forall self g, BoardState.deduce self idxs st g = ([], Returned tt g))
     /\ (needed ∈ BoardState.available st ->
         exists i, BoardState.available st !! i = Some needed
           /\ forall self,
                BoardState.deduce self idxs st
                = self (BoardState.move_to_board i st))
     /\ (~ 1 <= Required_Sum - partial <= 19 ->
         needed ∉ BoardState.available st)
     /\ (Required_Sum < partial -> 224 <= needed <= 255))
  /\ (forall st idxs,
        ArrayBoardState.reachable st ->
        spiral_plan (ArrayBoardState.n_cells_filled st) = DeduceFrom idxs ->
        let n := ArrayBoardState.n_cells_filled st in
        let partial := fold_plus (ArrayBoardState.numbers st) idxs in
        let needed := to_uint8 (Required_Sum - partial) in
        let pool := drop n (ArrayBoardState.numbers st) in
        ArrayBoardState.find_needed_from_idxs st idxs
        = ArrayBoardState.find_needed st needed
        /\ (needed ∉ pool ->
            forall rs self, ArrayBoardState.deduce rs self idxs st = (st, []))
        /\ (needed ∈ pool ->
            exists i, (n <= i < N_Hexes)%nat
              /\ ArrayBoardState.numbers st !! i = Some needed
              /\ forall rs self,
                   snd (ArrayBoardState.deduce rs self idxs st)
                   = snd (self (ArrayBoardState.place i st)))
        /\ (~ 1 <= Required_Sum - partial <= 19 -> needed ∉ pool)
        /\ (Required_Sum < partial -> 224 <= needed <= 255)).
Proof.
  split.
  - intros st idxs Hst Hplan partial needed.
    pose proof (vector_partial_sum st idxs Hst Hplan) as Hsum.
    destruct (reachable_board_facts st Hst) as (_ & _ & Ha & _).
    fold partial in Hsum. split_and!.
    + done.
    + intros Hnot self g. unfold BoardState.deduce.
      apply find_None in Hnot. fold needed. by rewrite Hnot.
    + intros Hin. unfold BoardState.deduce. fold needed.
      destruct (BoardState.find (BoardState.available st) needed) as [i|] eqn:E.
      * exists i. split; [by apply find_Some|done].
      * by apply find_None in E.
    + intros Hout Hin.
      eapply list.Forall_forall in Hin; [|exact Ha]. simpl in Hin.
      unfold needed, BoardState.needed_for in Hin. fold partial in Hin.
      destruct (needed_cases partial Hsum) as [[? _]|[[_ ?] _]]; lia.
    + intros Hgt. unfold needed, BoardState.needed_for. fold partial.
      destruct (needed_cases partial Hsum) as [[? _]|[_ Hwrap]];
        [unfold Required_Sum in *; lia | by apply Hwrap].
  - intros st idxs Hst Hplan n partial needed pool.
    pose proof (array_partial_sum st idxs Hst Hplan) as Hsum.
    pose proof (spiral_plan_deduce_lt _ _ Hplan) as Hn.
    apply reachable_Permutation_array, Permutation_iota_facts in Hst
      as (Hlen & Hnd & Hr).
    fold partial in Hsum. split_and!.
    + reflexivity.
    + intros Hnot rs self. unfold ArrayBoardState.deduce,
        ArrayBoardState.find_needed_from_idxs. fold partial needed.
      rewrite find_needed_absent by (done || lia). done.
    + intros Hin.
      destruct (find_needed_found st needed Hlen ltac:(lia) Hin) as [Hi Hv].
      exists (ArrayBoardState.find_needed st needed).
      split; [exact Hi|]. split.
      * rewrite <- Hv at 2. apply list_lookup_lookup_total_lt. lia.
      * intros rs self. unfold ArrayBoardState.deduce,
          ArrayBoardState.find_needed_from_idxs. fold partial needed.
        unfold ArrayBoardState.deduce_from_idx.
        destruct (Nat.eqb_spec (ArrayBoardState.find_needed st needed) N_Hexes)
          as [Heq|_]; [lia|].
        destruct rs; cbv zeta;
          fold (ArrayBoardState.place (ArrayBoardState.find_needed st needed) st);
          by destruct (self _).
    + intros Hout Hin. apply subseteq_drop in Hin.
      eapply list.Forall_forall in Hin; [|exact Hr]. simpl in Hin.
      unfold needed in Hin.
      destruct (needed_cases partial Hsum) as [[? _]|[[_ ?] _]]; lia.
    + intros Hgt. unfold needed.
      destruct (needed_cases partial Hsum) as [[? _]|[_ Hwrap]];
        [unfold Required_Sum in *; lia | by apply Hwrap].
Qed.
End deduce_steps.

Lemma sample_vector_state_reachable : BoardState.reachable sample_vector_state.
Proof.
  apply BoardState.reachable_move;
    [apply BoardState.reachable_move; [apply BoardState.reachable_initial|]|];
    simpl; lia.
Defined.

Lemma sample_array_state_reachable : ArrayBoardState.reachable sample_array_state.
Proof.
  apply (ArrayBoardState.reachable_incr
           (ArrayBoardState.swap_numbers 1 2 (ArrayBoardState.place 9 ArrayBoardState.initial))).
  apply (ArrayBoardState.reachable_swap (ArrayBoardState.place 9 ArrayBoardState.initial) 2);
    [|simpl; unfold N_Hexes; lia..].
  apply (ArrayBoardState.reachable_incr
           (ArrayBoardState.swap_numbers 0 9 ArrayBoardState.initial)).
  apply (ArrayBoardState.reachable_swap ArrayBoardState.initial 9);
    [apply ArrayBoardState.reachable_initial|simpl; unfold N_Hexes; lia..].
Defined.

Lemma deduce_prunes_witness :
  BoardState.board sample_vector_state = [10; 3]
  /\ (forall self g,
        BoardState.deduce self [0; 1]%nat sample_vector_state g
        = ([], Returned tt g))
  /\ take 2 (ArrayBoardState.numbers sample_array_state) = [10; 3]
  /\ (forall rs self,
        ArrayBoardState.deduce rs self [0; 1]%nat sample_array_state
        = (sample_array_state, [])).
Proof.
  destruct deduce_prunes as [Hvec Harr].
  destruct (Hvec sample_vector_state [0; 1]%nat
              sample_vector_state_reachable eq_refl)
    as (_ & Habsent & _ & Hout & _).
  destruct (Harr sample_array_state [0; 1]%nat
              sample_array_state_reachable eq_refl)
    as (_ & Habsent' & _ & Hout' & _).
  split_and!.
  - reflexivity.
  - apply Habsent, Hout. simpl. unfold Required_Sum. lia.
  - reflexivity.
  - apply Habsent', Hout'. simpl. unfold Required_Sum. lia.
Defined.

(** ** Branch steps *)

Section branch_steps.





Lemma take_place st i :
  length (ArrayBoardState.numbers st) = N_Hexes ->
  (ArrayBoardState.n_cells_filled st <= i < N_Hexes)%nat ->
  take (S (ArrayBoardState.n_cells_filled st))
       (ArrayBoardState.numbers (ArrayBoardState.place i st))
  = take (ArrayBoardState.n_cells_filled st) (ArrayBoardState.numbers st)
    ++ [ArrayBoardState.numbers st !!! i].
Proof.
  destruct st as [a n]. simpl. intros Hlen Hi.
  apply list_eq_same_length with (S n).
  - rewrite length_app, length_take. simpl. lia.
  - rewrite length_take, length_swap. lia.
  - intros k x y Hk Hx Hy.
    rewrite lookup_take_lt in Hx by lia.
    apply list_lookup_total_correct in Hx. subst x.
    destruct (decide (k = n)) as [->|Hne].
    + rewrite swap_lookup_l by lia.
      rewrite lookup_app_r in Hy by (rewrite length_take; lia).
      rewrite length_take in Hy.
      replace (n - n `min` length a)%nat with O in Hy by lia.
      simpl in Hy. congruence.
    + rewrite lookup_app_l in Hy by (rewrite length_take; lia).
      rewrite lookup_take_lt in Hy by lia.
      apply list_lookup_total_correct in Hy. subst y.
      apply swap_lookup_other; lia.
Qed.






(** C8.  In every state of a search the filled cells and the available
    values together hold 1..19, each once: [board ++ available] for the
    vector state, the 19 cells of [numbers] for the array state. *)
Theorem values_are_1_to_19 :
  (forall st, BoardState.reachable st ->
     BoardState.board st ++ BoardState.available st ≡ₚ iota_1_19)
  /\ (forall st, ArrayBoardState.reachable st ->
        length (ArrayBoardState.numbers st) = N_Hexes
        /\ ArrayBoardState.numbers st ≡ₚ iota_1_19).
Proof.
  split.
  - apply reachable_Permutation.
  - intros st Hst. apply reachable_Permutation_array in Hst as Hp.
    split; [by rewrite Hp | done].
Qed.

Lemma values_are_1_to_19_witness :
  BoardState.board sample_vector_state ++ BoardState.available sample_vector_state
    ≡ₚ iota_1_19
  /\ length (ArrayBoardState.numbers sample_array_state) = N_Hexes
  /\ ArrayBoardState.numbers sample_array_state ≡ₚ iota_1_19.
Proof.
  destruct values_are_1_to_19 as [Hvec Harr]. split.
  - apply Hvec, sample_vector_state_reachable.
  - apply Harr, sample_array_state_reachable.
Defined.

End branch_steps.

(** ** What the array engine produces *)

Section array_output.
Import ArrayBoardState.

Lemma take_S_lookup_total (l : list Z) n :
  (n < length l)%nat -> take (S n) l = take n l ++ [l !!! n].
Proof. intros Hn. apply take_S_r. by apply list_lookup_lookup_total_lt. Qed.

Lemma take_snoc_inv (a b : list Z) n x :
  (n < length b)%nat -> (n <= length a)%nat ->
  take (S n) b = take n a ++ [x] <-> take n b = take n a /\ b !!! n = x.
Proof.
  intros Hb Ha. rewrite take_S_lookup_total by done. split.
  - intros Heq. apply app_inj_1 in Heq as [? [= ?]]; [done|].
    rewrite !length_take. lia.
  - by intros [-> ->].
Qed.

(** The value in the next cell of a board with the filled cells and the
    values of [a] is one of the unfilled cells of [a]. *)
Lemma next_value_in_pool (a b : list Z) n :
  take n b = take n a -> b ≡ₚ a -> (n < length a)%nat ->
  exists i, (n <= i < length a)%nat /\ a !!! i = b !!! n.
Proof.
  intros Ht Hp Hn.
  assert (Hdrop : drop n b ≡ₚ drop n a).
  { apply (Permutation_app_inv_l (take n a)).
    rewrite <- Ht at 1. by rewrite !take_drop. }
  assert (Hlen : length b = length a) by by rewrite Hp.
  assert (Hin : b !!! n ∈ drop n b).
  { apply elem_of_drop_lookup_total. exists n. split; [lia|done]. }
  rewrite Hdrop in Hin. by apply elem_of_drop_lookup_total in Hin.
Qed.

Lemma completes_place st b i :
  length (numbers st) = N_Hexes ->
  (n_cells_filled st <= i < N_Hexes)%nat ->
  completes (place i st) b <->
  take (n_cells_filled st) b = take (n_cells_filled st) (numbers st)
  /\ b !!! n_cells_filled st = numbers st !!! i
  /\ b ≡ₚ numbers st
  /\ (forall k idxs,
        (S (n_cells_filled st) <= k)%nat -> spiral_plan k = DeduceFrom idxs ->
        to_uint8 (Required_Sum - fold_plus b idxs) = b !!! k)
  /\ spiral_solution_is_correct b = true.
Proof.
  intros Hlen Hi. unfold completes. rewrite place_filled.
  rewrite (take_place st i Hlen Hi).
  assert (Hperm : numbers (place i st) ≡ₚ numbers st).
  { destruct st as [a n]. simpl in *. apply swap_Permutation; lia. }
  rewrite Hperm. split.
  - intros (Ht & Hp & Hd & Hok).
    apply take_snoc_inv in Ht as [Ht Hv];
      [|rewrite Hp, Hlen; lia|rewrite Hlen; lia].
    done.
  - intros (Ht & Hv & Hp & Hd & Hok). split_and!; try done.
    apply take_snoc_inv; [rewrite Hp, Hlen; lia|rewrite Hlen; lia|done].
Qed.

Lemma elem_of_solve_fuel rs fuel st b :
  length (numbers st) = N_Hexes -> (n_cells_filled st <= N_Hexes)%nat ->
  (20 - n_cells_filled st <= fuel)%nat ->
  b ∈ snd (solve_fuel rs fuel st) <-> completes st b.
Proof.
  revert st. induction fuel as [|fuel IH]; intros st Hlen Hn Hfuel; [hex_lia|].
  simpl. rewrite solve_body_eq by auto using solve_fuel_restores.
  simpl. unfold solve_body_out.
  assert (Hchild : forall i, (n_cells_filled st < N_Hexes)%nat ->
            (n_cells_filled st <= i < N_Hexes)%nat ->
            b ∈ snd (solve_fuel rs fuel (place i st)) <-> completes (place i st) b).
  { intros i Hlt Hi. apply IH.
    - by rewrite place_length.
    - rewrite place_filled. lia.
    - rewrite place_filled. lia. }
  destruct (spiral_plan (n_cells_filled st)) as [|idxs| |] eqn:Hplan.
  - pose proof (spiral_plan_branch_lt _ Hplan) as Hlt.
    rewrite list_elem_of_bind. split.
    + intros (i & Hb & Hi). apply elem_of_seq in Hi.
      apply Hchild in Hb; [|done|hex_lia].
      apply completes_place in Hb as (Ht & Hv & Hp & Hd & Hok); [|done|hex_lia].
      split_and!; try done. intros k idxs Hk Hplank.
      destruct (decide (k = n_cells_filled st)) as [->|Hne]; [congruence|].
      apply Hd; [lia|done].
    + intros (Ht & Hp & Hd & Hok).
      destruct (next_value_in_pool (numbers st) b (n_cells_filled st))
        as (i & Hi & Hv); [done|done|lia|].
      exists i. split; [|apply elem_of_seq; hex_lia].
      apply Hchild; [done|hex_lia|].
      apply completes_place; [done|hex_lia|].
      split_and!; try done. intros k idxs Hk Hplank. apply Hd; [lia|done].
  - pose proof (spiral_plan_deduce_lt _ _ Hplan) as Hlt.
    destruct (spiral_plan_idxs _ _ Hplan) as (_ & Hidxs & _).
    cbv zeta. unfold find_needed_from_idxs.
    set (needed := to_uint8 (Required_Sum - fold_plus (numbers st) idxs)).
    destruct (decide (needed ∈ drop (n_cells_filled st) (numbers st)))
      as [Hin|Hnot].
    + destruct (find_needed_found st needed Hlen Hn Hin) as [Hi Hv].
      destruct (Nat.eqb_spec (find_needed st needed) N_Hexes) as [Heq|_]; [lia|].
      rewrite Hchild by (done || lia).
      rewrite completes_place by (done || lia). unfold completes. split.
      * intros (Ht & Hbv & Hp & Hd & Hok). split_and!; try done.
        intros k idxs' Hk Hplank.
        destruct (decide (k = n_cells_filled st)) as [->|Hne];
          [|apply Hd; [lia|done]].
        rewrite Hplan in Hplank. injection Hplank as <-.
        rewrite (fold_plus_same_prefix (numbers st) b (n_cells_filled st)) by done.
        fold needed. congruence.
      * intros (Ht & Hp & Hd & Hok). split_and!; try done.
        -- rewrite Hv. rewrite <- (Hd _ _ ltac:(reflexivity) Hplan).
           by rewrite (fold_plus_same_prefix (numbers st) b (n_cells_filled st)).
        -- intros k idxs' Hk Hplank. apply Hd; [lia|done].
    + rewrite (find_needed_absent st needed Hlen Hn Hnot). simpl.
      split; [by intros ?%elem_of_nil|].
      intros (Ht & Hp & Hd & Hok). exfalso. apply Hnot.
      destruct (next_value_in_pool (numbers st) b (n_cells_filled st))
        as (i & Hi & Hv); [done|done|lia|].
      apply elem_of_drop_lookup_total. exists i. split; [done|].
      rewrite Hv. rewrite <- (Hd _ _ ltac:(reflexivity) Hplan).
      by rewrite (fold_plus_same_prefix (numbers st) b (n_cells_filled st)).
  - apply spiral_plan_terminal in Hplan. unfold completes. rewrite Hplan.
    rewrite <- Hlen at 2. rewrite (take_ge (numbers st)) by lia.
    split.
    + destruct (spiral_solution_is_correct (numbers st)) eqn:Hok;
        [|by intros ?%elem_of_nil].
      intros ->%list_elem_of_singleton. split_and!; try done.
      * by rewrite take_ge by lia.
      * intros k idxs Hk Hplank. apply spiral_plan_deduce_lt in Hplank. lia.
    + intros (Ht & Hp & _ & Hok).
      rewrite take_ge in Ht by (rewrite Hp; lia). subst b.
      rewrite Hok. apply list_elem_of_here.
  - apply spiral_plan_no_case in Hplan. lia.
Qed.

Lemma NoDup_solve_fuel rs fuel st :
  length (numbers st) = N_Hexes -> (n_cells_filled st <= N_Hexes)%nat ->
  (20 - n_cells_filled st <= fuel)%nat -> NoDup (numbers st) ->
  NoDup (snd (solve_fuel rs fuel st)).
Proof.
  revert st. induction fuel as [|fuel IH]; intros st Hlen Hn Hfuel Hnd;
    [constructor|].
  simpl. rewrite solve_body_eq by auto using solve_fuel_restores.
  simpl. unfold solve_body_out.
  assert (Hchild : forall i, (n_cells_filled st < N_Hexes)%nat ->
            (n_cells_filled st <= i < N_Hexes)%nat ->
            NoDup (snd (solve_fuel rs fuel (place i st)))).
  { intros i Hlt Hi. apply IH.
    - by rewrite place_length.
    - rewrite place_filled. lia.
    - rewrite place_filled. lia.
    - destruct st as [a n]. simpl in *. rewrite swap_Permutation; [done|lia..]. }
  destruct (spiral_plan (n_cells_filled st)) as [|idxs| |] eqn:Hplan.
  - pose proof (spiral_plan_branch_lt _ Hplan) as Hlt.
    apply NoDup_bind; [| |apply NoDup_seq].
    + intros i j b Hi Hj Hbi Hbj. apply elem_of_seq in Hi, Hj.
      apply elem_of_solve_fuel in Hbi, Hbj;
        rewrite ?place_length, ?place_filled; try (done || lia).
      apply completes_place in Hbi as (_ & Hvi & _); [|done|hex_lia].
      apply completes_place in Hbj as (_ & Hvj & _); [|done|hex_lia].
      eapply NoDup_lookup; [exact Hnd| |].
      * apply list_lookup_lookup_total_lt. hex_lia.
      * rewrite <- Hvi, Hvj. apply list_lookup_lookup_total_lt. hex_lia.
    + intros i Hi. apply elem_of_seq in Hi. apply Hchild; hex_lia.
  - pose proof (spiral_plan_deduce_lt _ _ Hplan) as Hlt. cbv zeta.
    destruct (Nat.eqb_spec (find_needed_from_idxs st idxs) N_Hexes) as [|Hne];
      [constructor|].
    apply Hchild; [done|].
    pose proof (find_needed_range st
      (to_uint8 (Required_Sum - fold_plus (numbers st) idxs)) Hn).
    unfold find_needed_from_idxs in *. lia.
  - destruct (spiral_solution_is_correct _); [apply NoDup_singleton|constructor].
  - constructor.
Qed.

End array_output.

(** The boards handed to the sink by a whole run of the array engine
    are the magic boards of the spiral labeling, each exactly once. *)
Lemma deduce_array_magic rs b :
  b ∈ solve_deduce_last_cell_of_line_array rs <-> is_magic Spiral b.
Proof.
  unfold solve_deduce_last_cell_of_line_array, ArrayBoardState.solve.
  rewrite elem_of_solve_fuel by (done || simpl; unfold N_Hexes; lia).
  unfold ArrayBoardState.completes, is_magic. simpl.
  rewrite spiral_solution_is_correct_lines. split.
  - by intros (_ & Hp & _ & Hok).
  - intros [Hp Hok]. split_and!; try done.
    intros k idxs _ Hplan. by apply magic_deduced_value.
Qed.

Lemma deduce_array_NoDup rs : NoDup (solve_deduce_last_cell_of_line_array rs).
Proof.
  apply NoDup_solve_fuel; try (done || simpl; unfold N_Hexes; lia).
  apply iota_1_19_NoDup.
Qed.

Lemma deduce_array_run rs : solve_deduce_last_cell_of_line_array rs ≡ₚ spiral_solutions.
Proof.
  apply NoDup_Permutation;
    [apply deduce_array_NoDup | apply spiral_solutions_NoDup |].
  intros b. by rewrite deduce_array_magic, spiral_magic_boards.
Qed.

(** ** The plan against the line table *)

(** C6, as stated, fails at step 17: filling cell 17 completes two lines
    of the spiral table, not one. *)
Lemma deduce_step_17_closes_two_lines :
  spiral_plan 17 = DeduceFrom [7; 11; 16]%nat
  /\ closing_lines Spiral 17 = [[1; 12; 17; 9]; [11; 17; 16; 7]]%nat
  /\ ~ exists line, closing_lines Spiral 17 = [line].
Proof.
  split_and!; [reflexivity..|]. intros [line Hline]. discriminate Hline.
Qed.

Lemma closing_line_found n idxs :
  existsb (fun line => bool_decide (idxs ≡ₚ other_cells n line))
          (closing_lines Spiral n) = true ->
  exists line, line ∈ closing_lines Spiral n /\ idxs ≡ₚ other_cells n line.
Proof.
  intros (line & Hin & Hp)%existsb_exists. exists line. split.
  - by apply list_elem_of_In.
  - by apply bool_decide_eq_true in Hp.
Qed.

(** C6, amended.  At every deduce step the cell being filled completes
    at least one line of the spiral table, and the indices the step sums
    are the other cells of one such line.  It is the only such line at
    steps 2, 4, 6, 8, 10, 11, 13, 14, 15 and 16; step 17 completes two
    lines and step 18 three.  A branch step completes none. *)
Theorem deduce_steps_close_a_line :
  (forall n idxs,
     spiral_plan n = DeduceFrom idxs ->
     (exists line, line ∈ closing_lines Spiral n
                   /\ idxs ≡ₚ other_cells n line)
     /\ length (closing_lines Spiral n)
        = (if (n =? 17)%nat then 2 else if (n =? 18)%nat then 3 else 1)%nat)
  /\ (forall n, spiral_plan n = Branch -> closing_lines Spiral n = []).
Proof.
  split.
  - intros n idxs.
    do 20 (destruct n as [|n];
      [first [discriminate
             | intros [= <-]; split;
               [apply closing_line_found; by vm_compute | reflexivity]]|]).
    discriminate.
  - intros n.
    do 20 (destruct n as [|n]; [first [discriminate | reflexivity]|]).
    discriminate.
Qed.

Lemma deduce_steps_close_a_line_witness :
  (exists line, line ∈ closing_lines Spiral 13
                /\ [3; 11; 12]%nat ≡ₚ other_cells 13 line)
  /\ length (closing_lines Spiral 13) = 1%nat
  /\ closing_lines Spiral 12 = [].
Proof.
  destruct deduce_steps_close_a_line as [Hdeduce Hbranch].
  destruct (Hdeduce 13%nat [3; 11; 12]%nat eq_refl) as [Hline Hcount].
  split_and!; [exact Hline | exact Hcount | apply Hbranch; reflexivity].
Defined.

(** ** The terminal validators *)

(** C9, as stated, fails for [CheckHardcoded::is_solution]: a call
    advances the attempt counter, and the second of two calls can end
    the process instead of returning a boolean. *)
Lemma is_solution_counts_attempts :
  let b := [3; 17; 18; 19; 7; 1; 11; 16; 2; 5; 6; 9; 12; 4; 8; 14; 10; 13; 15] in
  CheckHardcoded.is_solution b initial_counters
  = ([], Returned true (mkCounters 1 10000000 100000000))
  /\ validate_twice b (mkCounters 99999998 10000000 100000000)
     = ([AttemptsLogged 100000000; Stopping], Exited).
Proof. split; reflexivity. Qed.

Lemma is_solution_cases board g :
  let n := to_size_t (n_attempts g + 1) in
  (n = n_attempts_bail g
   /\ snd (CheckHardcoded.is_solution board g) = Exited)
  \/ (n <> n_attempts_bail g
      /\ snd (CheckHardcoded.is_solution board g)
         = Returned (CheckHardcoded.raster_lines_ok board)
             (mkCounters n (n_attempts_log_period g) (n_attempts_bail g))).
Proof.
  intros n. unfold CheckHardcoded.is_solution. fold n.
  destruct (Z.eqb_spec n (n_attempts_bail g)); [left|right]; done.
Qed.

(** One call, written out. *)
Lemma is_solution_eq board g :
  CheckHardcoded.is_solution board g
  = ((if to_size_t (n_attempts g + 1) mod n_attempts_log_period g =? 0
      then [AttemptsLogged (to_size_t (n_attempts g + 1))] else [])
     ++ (if to_size_t (n_attempts g + 1) =? n_attempts_bail g
         then [Stopping] else []),
     if to_size_t (n_attempts g + 1) =? n_attempts_bail g then Exited
     else Returned (lines_sum_38 Raster board)
            (mkCounters (to_size_t (n_attempts g + 1))
               (n_attempts_log_period g) (n_attempts_bail g))).
Proof.
  unfold CheckHardcoded.is_solution. rewrite raster_lines_ok_lines.
  destruct (_ =? n_attempts_bail g); [reflexivity|]. by rewrite app_nil_r.
Qed.

(** C9, amended.  [spiral_solution_is_correct] is a function of the
    fifteen line sums of the board alone.  [CheckHardcoded::is_solution]
    advances the attempt counter by one on every call, writes the
    attempt count when the new count is a multiple of
    [n_attempts_log_period], and ends the process, after writing the
    last line, exactly when the new count is [n_attempts_bail]; it hands
    nothing to the sink, and when it returns, it returns what the
    fifteen raster line sums say and leaves the period and the budget
    as they were.  Of two calls on the same board the second is made
    exactly when the first returns; when both return, they return the
    same boolean and the counter has advanced by two.  The logging
    period is positive: the source divides by it. *)
Theorem validators_depend_on_the_board :
  (forall b, spiral_solution_is_correct b = lines_sum_38 Spiral b)
  /\ (forall b g,
        0 < n_attempts_log_period g ->
        let n := to_size_t (n_attempts g + 1) in
        let run := CheckHardcoded.is_solution b g in
        events run
        = (if n mod n_attempts_log_period g =? 0 then [AttemptsLogged n] else [])
          ++ (if n =? n_attempts_bail g then [Stopping] else [])
        /\ (forall m, AttemptsLogged m ∈ events run
                      <-> m = n /\ n mod n_attempts_log_period g = 0)
        /\ (Stopping ∈ events run <-> n = n_attempts_bail g)
        /\ consumed_boards (events run) = []
        /\ (snd run = Exited <-> n = n_attempts_bail g)
        /\ (n <> n_attempts_bail g ->
            snd run
            = Returned (lines_sum_38 Raster b)
                (mkCounters n (n_attempts_log_period g) (n_attempts_bail g))))
  /\ (forall b g,
        0 < n_attempts_log_period g ->
        let n1 := to_size_t (n_attempts g + 1) in
        let n2 := to_size_t (n1 + 1) in
        (snd (validate_twice b g) = Exited
         <-> n1 = n_attempts_bail g \/ n2 = n_attempts_bail g)
        /\ (n1 = n_attempts_bail g ->
            validate_twice b g
            = (events (CheckHardcoded.is_solution b g), Exited))
        /\ (n1 <> n_attempts_bail g -> n2 <> n_attempts_bail g ->
            snd (validate_twice b g)
            = Returned (lines_sum_38 Raster b, lines_sum_38 Raster b)
                (mkCounters n2 (n_attempts_log_period g) (n_attempts_bail g)))).
Proof.
  split; [apply spiral_solution_is_correct_lines|]. split.
  - intros b g _ n run. subst run. rewrite is_solution_eq. fold n.
    unfold events. cbn [fst snd].
    split; [reflexivity|]. split.
    { intros m. rewrite elem_of_app.
      destruct (Z.eqb_spec (n mod n_attempts_log_period g) 0) as [Hlog|Hlog];
        destruct (Z.eqb_spec n (n_attempts_bail g)) as [Hbail|Hbail];
        rewrite ?list_elem_of_singleton, ?elem_of_nil; split;
        try (intros [[= ->]|H]; [done|first [discriminate H | destruct H]]);
        try (intros [H|H]; [destruct H|first [discriminate H | destruct H]]);
        try (intros [-> _]; by left);
        try (intros [_ H]; done). }
    split.
    { rewrite elem_of_app.
      destruct (Z.eqb_spec (n mod n_attempts_log_period g) 0) as [Hlog|Hlog];
        destruct (Z.eqb_spec n (n_attempts_bail g)) as [Hbail|Hbail];
        rewrite ?list_elem_of_singleton, ?elem_of_nil; split;
        try (intros _; by right);
        try (intros [H|H]; first [discriminate H | destruct H]);
        try done. }
    split.
    { by destruct (_ mod _ =? 0); destruct (n =? _). }
    destruct (Z.eqb_spec n (n_attempts_bail g)) as [Hbail|Hbail];
      (split; [split; [intros H; first [exact Hbail | discriminate H]
                      |intros H; first [reflexivity | destruct (Hbail H)]]
              |intros H; first [reflexivity | destruct (H Hbail)]]).
  - intros b g _ n1 n2. unfold validate_twice.
    rewrite run_bind_eq, is_solution_eq. fold n1. unfold events. cbn [fst].
    destruct (Z.eqb_spec n1 (n_attempts_bail g)) as [Hbail|Hbail].
    { cbn [snd]. split; [split; [intros _; by left|reflexivity]|].
      split; [reflexivity|]. intros H. destruct (H Hbail). }
    rewrite run_bind_eq, is_solution_eq.
    cbn [n_attempts n_attempts_log_period n_attempts_bail]. fold n2.
    destruct (Z.eqb_spec n2 (n_attempts_bail g)) as [Hbail2|Hbail2].
    { cbn [snd]. split; [split; [intros _; by right|reflexivity]|].
      split; [intros H; destruct (Hbail H)|]. intros _ H. destruct (H Hbail2). }
    cbn. split; [split; [intros H; discriminate H|intros [H|H]; done]|].
    split; [intros H; destruct (Hbail H)|]. intros _ _. reflexivity.
Qed.

Lemma validators_depend_on_the_board_witness :
  CheckHardcoded.is_solution sample_solution (mkCounters 9999999 10000000 100000000)
  = ([AttemptsLogged 10000000],
     Returned (lines_sum_38 Raster sample_solution)
       (mkCounters 10000000 10000000 100000000))
  /\ validate_twice sample_solution (mkCounters 99999998 10000000 100000000)
     = ([AttemptsLogged 100000000; Stopping], Exited)
  /\ snd (validate_twice sample_solution (mkCounters 99999998 10000000 100000000))
     = Exited.
Proof.
  destruct validators_depend_on_the_board as (_ & Hone & Htwo).
  destruct (Hone sample_solution (mkCounters 9999999 10000000 100000000)
              ltac:(cbn [n_attempts_log_period]; lia))
    as (Hev & _ & _ & _ & _ & Hret).
  destruct (Htwo sample_solution (mkCounters 99999998 10000000 100000000)
              ltac:(cbn [n_attempts_log_period]; lia))
    as (Hexit & _ & _).
  split_and!.
  - apply injective_projections; [exact Hev | apply Hret; discriminate].
  - reflexivity.
  - apply Hexit. right. reflexivity.
Defined.

(** ** What reaches the sink *)

Lemma line_by_line_terminal fo st :
  length (BoardState.board st) = N_Hexes -> BoardState.available st = [] ->
  BoardState.solve_test_as_lines_filled fo st
  = if forallb (sum_correct (BoardState.board st)) (lines_tested_when_full fo)
    then [BoardState.board st] else [].
Proof.
  intros Hlen Hnil. unfold BoardState.solve_test_as_lines_filled.
  rewrite Hnil. simpl. unfold BoardState.solve_test_as_lines_filled_body.
  rewrite Hnil. unfold BoardState.incorrect_already. rewrite Hlen.
  destruct fo; simpl; repeat (destruct (sum_correct _ _); simpl; try done).
Qed.

Lemma array_terminal rs st :
  ArrayBoardState.n_cells_filled st = N_Hexes ->
  ArrayBoardState.solve rs st
  = (st, if lines_sum_38 Spiral (ArrayBoardState.numbers st)
         then [ArrayBoardState.numbers st] else []).
Proof.
  intros Hn. unfold ArrayBoardState.solve. rewrite Hn. simpl.
  unfold ArrayBoardState.solve_body. rewrite Hn. simpl.
  rewrite spiral_solution_is_correct_lines. by destruct (lines_sum_38 _ _).
Qed.

(** C1, as stated, fails for the line-by-line engine: with 19 cells
    filled it tests three lines, and hands over a board on which these
    three hold whatever the other twelve do. *)
Lemma line_by_line_terminal_tests_three_lines :
  let b := [3; 18; 17; 19; 7; 1; 11; 16; 2; 5; 6; 9; 12; 4; 8; 14; 10; 13; 15] in
  BoardState.solve_test_as_lines_filled Raster (BoardState.mk b []) = [b]
  /\ b ≡ₚ iota_1_19
  /\ sum_correct b [1; 4; 8; 12]%nat = false
  /\ lines_sum_38 Raster b = false.
Proof.
  split_and!; [reflexivity| |reflexivity..].
  apply (bool_decide_unpack _). by vm_compute.
Qed.

(** C1, amended.  Every board handed to the sink by a whole run of the
    line-by-line engine or of the array engine holds 1..19 once each and
    all fifteen lines of the engine's labeling sum to 38; so does every
    full board that the vector engine with deduction arrives at.  With
    19 cells filled, the array engine tests all fifteen lines of the
    spiral labeling and hands the board over exactly when they all hold;
    the line-by-line engine tests the three lines completed by the last
    cell and hands the board over exactly when these hold. *)
Theorem sink_boards_are_magic :
  (forall fo b, b ∈ solve_test_line_by_line fo -> is_magic fo b)
  /\ (forall rs b,
        b ∈ solve_deduce_last_cell_of_line_array rs -> is_magic Spiral b)
  /\ (forall b, b ∈ spiral_search BoardState.initial -> is_magic Spiral b)
  /\ (forall rs st,
        ArrayBoardState.n_cells_filled st = N_Hexes ->
        ArrayBoardState.solve rs st
        = (st, if lines_sum_38 Spiral (ArrayBoardState.numbers st)
               then [ArrayBoardState.numbers st] else []))
  /\ (forall fo st,
        length (BoardState.board st) = N_Hexes ->
        BoardState.available st = [] ->
        BoardState.solve_test_as_lines_filled fo st
        = if forallb (sum_correct (BoardState.board st))
                     (lines_tested_when_full fo)
          then [BoardState.board st] else []).
Proof.
  split_and!.
  - intros fo b. by rewrite line_by_line_magic.
  - intros rs b. by rewrite deduce_array_magic.
  - intros b. by rewrite spiral_search_run, spiral_magic_boards.
  - apply array_terminal.
  - apply line_by_line_terminal.
Qed.

Lemma sink_boards_are_magic_witness :
  is_magic Spiral sample_solution
  /\ ArrayBoardState.solve CreateNew (ArrayBoardState.mk sample_solution 19)
     = (ArrayBoardState.mk sample_solution 19, [sample_solution])
  /\ BoardState.solve_test_as_lines_filled Spiral (BoardState.mk sample_solution [])
     = [sample_solution].
Proof.
  destruct sink_boards_are_magic as (_ & _ & Hsearch & Harr & Hvec).
  split_and!.
  - apply Hsearch. rewrite spiral_search_run. apply list_elem_of_here.
  - apply (Harr CreateNew (ArrayBoardState.mk sample_solution 19)). reflexivity.
  - apply (Hvec Spiral (BoardState.mk sample_solution [])); reflexivity.
Defined.

(** ** How often the sink is invoked *)

(** C2.  A whole run of either line-by-line engine and of either array
    strategy invokes the sink 12 times.  A whole run of the vector
    engine with deduction arrives at 12 full boards, applies
    [CheckHardcoded::is_solution] to each, and invokes the sink for
    none of them, whatever the attempt counters at its start. *)
Theorem sink_invocations :
  length (solve_test_line_by_line Raster) = 12%nat
  /\ length (solve_test_line_by_line Spiral) = 12%nat
  /\ (forall rs, length (solve_deduce_last_cell_of_line_array rs) = 12%nat)
  /\ length (spiral_search BoardState.initial) = 12%nat
  /\ (forall g,
        consumed_boards
          (events (BoardState.solve_deduce_last_cell_of_line BoardState.initial g))
        = [])
  /\ solve_deduce_last_cell_of_line_vector
     = ([], Returned tt (mkCounters 12 10000000 100000000)).
Proof.
  split_and!.
  - by rewrite line_by_line_raster_run.
  - by rewrite line_by_line_spiral_run.
  - intros rs. by rewrite deduce_array_run.
  - by rewrite spiral_search_run.
  - apply deduce_vector_consumes_nothing.
  - apply deduce_vector_run.
Qed.

(** * More on the engines, and the rest of the program *)

(** ** [CheckVecOfVecs] against [CheckHardcoded] *)

Lemma foldl_plus_from (soln : list Z) line acc :
  foldl (fun sum idx => sum + soln !!! idx) acc line = acc + fold_plus soln line.
Proof.
  revert acc. induction line as [|idx line IH]; intros acc; simpl; [lia|].
  rewrite IH. unfold fold_plus. simpl. lia.
Qed.

Lemma lines_loop_forallb soln lines :
  CheckVecOfVecs.lines_loop soln lines = forallb (sum_correct soln) lines.
Proof.
  induction lines as [|line lines IH]; [done|]. simpl.
  rewrite foldl_plus_from, Z.add_0_l. unfold sum_correct at 1.
  by destruct (fold_plus soln line =? Required_Sum).
Qed.

(** X1.  The two validators are interchangeable: on every 19-cell
    board (where the subscripts of both are in range) and from every
    value of the attempt counters they count the attempt, log, stop the
    process and answer alike. *)
Theorem validators_agree (soln : list Z) (g : Counters) :
  length soln = N_Hexes ->
  CheckVecOfVecs.is_solution soln g = CheckHardcoded.is_solution soln g.
Proof.
  intros _. unfold CheckVecOfVecs.is_solution, CheckHardcoded.is_solution.
  rewrite lines_loop_forallb, raster_lines_ok_lines. reflexivity.
Qed.

Lemma validators_agree_witness :
  CheckVecOfVecs.is_solution sample_solution initial_counters
  = CheckHardcoded.is_solution sample_solution initial_counters.
Proof. exact (validators_agree sample_solution initial_counters eq_refl). Defined.

(** ** [incorrect_already] against the line table *)

Ltac eqb_cases :=
  repeat match goal with
  | |- context [Z.eqb ?x ?y] => destruct (Z.eqb_spec x y)
  end; simpl; first [reflexivity | exfalso; lia].

Ltac board_of_length b Hlen :=
  repeat (destruct b as [|? b]; [discriminate Hlen|]);
  destruct b; [clear Hlen|discriminate Hlen].

(** X2.  The line-by-line engine tests a line when its last cell has
    just been filled and at no other time: with [m + 1] cells filled,
    [incorrect_already] says whether one of the lines of the table that
    cell [m] completes has the wrong sum; with no cell filled, and with
    more than 19, it answers no. *)
Theorem incorrect_already_tests_completed_lines
    (fo : FillOrder) (st : BoardState.t) :
  BoardState.incorrect_already fo st
  = match length (BoardState.board st) with
    | O => false
    | S m =>
        existsb (fun line => negb (sum_correct (BoardState.board st) line))
                (closing_lines fo m)
    end.
Proof.
  destruct st as [b a]. simpl.
  unfold BoardState.incorrect_already. simpl.
  destruct (length b) as [|m] eqn:Hlen; [by destruct fo|].
  do 19 (destruct m as [|m];
    [board_of_length b Hlen;
     destruct fo; unfold sum_correct, fold_plus, Required_Sum; cbn; eqb_cases|]).
  by destruct fo.
Qed.

(** ** The order in which the line-by-line engine hands boards over *)

Lemma lex_lt_app_head l a b : lex_lt (l ++ a) (l ++ b) <-> lex_lt a b.
Proof.
  induction l as [|x l IH]; [done|]. simpl. rewrite IH. split; [|by right].
  intros [?|[_ ?]]; [lia|done].
Qed.

Lemma lex_lt_asym a b : lex_lt a b -> lex_lt b a -> False.
Proof.
  revert b. induction a as [|x a IH]; intros [|y b]; simpl; try done.
  intros [?|[-> ?]] [?|[? ?]]; try lia. by eapply IH.
Qed.

Lemma StronglySorted_seq j n : StronglySorted lt (seq j n).
Proof.
  revert j. induction n as [|n IH]; intros j; simpl; constructor; [apply IH|].
  apply list.Forall_forall. intros k Hk. apply elem_of_seq in Hk. lia.
Qed.

Lemma StronglySorted_bind {A B} (S : relation A) (R : relation B)
    (f : A -> list B) (l : list A) :
  StronglySorted S l ->
  (forall x, x ∈ l -> StronglySorted R (f x)) ->
  (forall x y a b, x ∈ l -> y ∈ l -> S x y -> a ∈ f x -> b ∈ f y -> R a b) ->
  StronglySorted R (l ≫= f).
Proof.
  induction 1 as [|x l Hl IH Hx]; intros Hf HR; [constructor|].
  change ((x :: l) ≫= f) with (f x ++ l ≫= f).
  apply StronglySorted_app. split_and!.
  - intros a b Ha (y & Hb & Hy)%list_elem_of_bind.
    apply (HR x y); [left|by right| |done..].
    by eapply list.Forall_forall in Hx.
  - apply Hf. left.
  - apply IH.
    + intros y Hy. apply Hf. by right.
    + intros y z a b Hy Hz. apply HR; by right.
Qed.

Lemma StronglySorted_lookup_lt (l : list Z) i j :
  StronglySorted Z.lt l -> (i < j)%nat -> (j < length l)%nat ->
  l !!! i < l !!! j.
Proof.
  intros Hs. revert i j. induction Hs as [|x l Hs IH Hx]; intros i j Hij Hj.
  { simpl in Hj. lia. }
  destruct j as [|j]; [lia|]. destruct i as [|i]; simpl.
  - eapply list.Forall_forall in Hx; [exact Hx|].
    apply list_elem_of_lookup_total_2. simpl in Hj. lia.
  - apply IH; simpl in Hj; lia.
Qed.

Section line_by_line_order.
Import BoardState.

Lemma sorted_solve_test_as_lines_filled_fuel fo fuel st :
  (length (available st) < fuel)%nat ->
  StronglySorted Z.lt (available st) ->
  StronglySorted lex_lt (solve_test_as_lines_filled_fuel fo fuel st).
Proof.
  revert st. induction fuel as [|fuel IH]; intros st Hfuel Hs; [lia|].
  simpl. unfold solve_test_as_lines_filled_body.
  destruct (incorrect_already fo st); [constructor|].
  destruct (Nat.eqb_spec (length (available st)) 0) as [Hnil|Hnonnil].
  { repeat constructor. }
  apply (StronglySorted_bind lt); [apply StronglySorted_seq| |].
  - intros idx Hidx. apply elem_of_seq in Hidx. apply IH.
    + rewrite move_to_board_available_length; lia.
    + simpl. by apply StronglySorted_delete.
  - intros i j a b Hi Hj Hij Ha Hb. apply elem_of_seq in Hi, Hj.
    apply elem_of_solve_test_as_lines_filled_fuel in Ha, Hb;
      try (rewrite move_to_board_available_length; lia).
    destruct Ha as (p1 & _ & -> & _), Hb as (p2 & _ & -> & _).
    simpl. rewrite <- !app_assoc. apply lex_lt_app_head. simpl. left.
    apply StronglySorted_lookup_lt; [done|lia..].
Qed.

End line_by_line_order.

(** X3.  From a state whose available values are distinct,
    [solve_test_as_lines_filled] hands over exactly the complete boards
    that extend the state (its board followed by an arrangement of its
    available values, no prefix from the state on being rejected by
    [incorrect_already]), each of them once. *)
Theorem line_by_line_hands_over_the_completions
    (fo : FillOrder) (st : BoardState.t) :
  NoDup (BoardState.available st) ->
  NoDup (BoardState.solve_test_as_lines_filled fo st)
  /\ forall b, b ∈ BoardState.solve_test_as_lines_filled fo st
               <-> BoardState.completes fo st b.
Proof.
  intros Hnd. split.
  - apply NoDup_solve_test_as_lines_filled_fuel; [lia|done].
  - intros b. apply elem_of_solve_test_as_lines_filled.
Qed.

Lemma line_by_line_hands_over_the_completions_witness :
  NoDup (BoardState.available sample_late_state)
  /\ NoDup (BoardState.solve_test_as_lines_filled Spiral sample_late_state).
Proof.
  assert (Hnd : NoDup (BoardState.available sample_late_state))
    by (apply (bool_decide_unpack _); reflexivity).
  split; [exact Hnd|].
  exact (proj1 (line_by_line_hands_over_the_completions Spiral
                  sample_late_state Hnd)).
Defined.

(** X4.  From a state whose available values are in ascending order,
    [solve_test_as_lines_filled] hands the boards over in strictly
    ascending lexicographic order. *)
Theorem line_by_line_hands_over_in_order (fo : FillOrder) (st : BoardState.t) :
  StronglySorted Z.lt (BoardState.available st) ->
  StronglySorted lex_lt (BoardState.solve_test_as_lines_filled fo st).
Proof. intros Hs. apply sorted_solve_test_as_lines_filled_fuel; [lia|done]. Qed.

Lemma line_by_line_hands_over_in_order_witness :
  StronglySorted Z.lt (BoardState.available sample_late_state)
  /\ StronglySorted lex_lt
       (BoardState.solve_test_as_lines_filled Spiral sample_late_state).
Proof.
  assert (Hs : StronglySorted Z.lt (BoardState.available sample_late_state)).
  { repeat (constructor; [|repeat constructor; reflexivity]). constructor. }
  split; [exact Hs|].
  exact (line_by_line_hands_over_in_order Spiral sample_late_state Hs).
Defined.

Lemma iota_1_19_sorted : StronglySorted Z.lt iota_1_19.
Proof. apply (reachable_sorted BoardState.initial), BoardState.reachable_initial. Qed.

Lemma lex_ltb_lt a b : lex_ltb a b = true -> lex_lt a b.
Proof.
  revert b. induction a as [|x a IH]; intros [|y b]; simpl; try done.
  intros [Hlt|[Heq Hr]%andb_true_iff]%orb_true_iff.
  - left. lia.
  - right. split; [lia|by apply IH].
Qed.

Lemma sortedb_sorted l : sortedb l = true -> StronglySorted lex_lt l.
Proof.
  induction l as [|x l IH]; simpl; [constructor|].
  intros [Hx Hl]%andb_true_iff. constructor; [by apply IH|].
  apply list.Forall_forall. intros y Hy. apply lex_ltb_lt.
  rewrite forallb_forall in Hx. by apply Hx, list_elem_of_In.
Qed.

Lemma sorted_Permutation_eq (l1 l2 : list (list Z)) :
  StronglySorted lex_lt l1 -> StronglySorted lex_lt l2 -> l1 ≡ₚ l2 -> l1 = l2.
Proof.
  apply StronglySorted_unique_strong. intros a b _ _ Hab Hba.
  destruct (lex_lt_asym a b Hab Hba).
Qed.

Lemma line_by_line_sorted fo : StronglySorted lex_lt (solve_test_line_by_line fo).
Proof.
  unfold solve_test_line_by_line, BoardState.solve_test_as_lines_filled.
  apply sorted_solve_test_as_lines_filled_fuel;
    [apply Nat.lt_succ_diag_r | exact iota_1_19_sorted].
Qed.

Lemma raster_solutions_sorted : StronglySorted lex_lt raster_solutions.
Proof. apply sortedb_sorted. reflexivity. Qed.

Lemma spiral_solutions_sorted : StronglySorted lex_lt spiral_solutions.
Proof. apply sortedb_sorted. reflexivity. Qed.

Lemma line_by_line_raster_output : solve_test_line_by_line Raster = raster_solutions.
Proof.
  apply sorted_Permutation_eq;
    [exact (line_by_line_sorted Raster) | exact raster_solutions_sorted
    | exact line_by_line_raster_run].
Qed.

Lemma line_by_line_spiral_output : solve_test_line_by_line Spiral = spiral_solutions.
Proof.
  apply sorted_Permutation_eq;
    [exact (line_by_line_sorted Spiral) | exact spiral_solutions_sorted
    | exact line_by_line_spiral_run].
Qed.

(** X5.  The boards that the two line-by-line strategies hand to the
    sink, in the order in which they hand them over; the raster run is
    the spiral run with every board relabelled. *)
Theorem line_by_line_output :
  solve_test_line_by_line Raster = raster_solutions
  /\ solve_test_line_by_line Spiral = spiral_solutions
  /\ solve_test_line_by_line Raster
     = to_raster <$> solve_test_line_by_line Spiral.
Proof.
  split; [exact line_by_line_raster_output|].
  split; [exact line_by_line_spiral_output|].
  rewrite line_by_line_raster_output, line_by_line_spiral_output.
  exact raster_solutions_relabel.
Qed.

(** ** The array engine from any state *)

(** X6.  From a state with 19 distinct numbers and at most 19 cells
    filled, [solve] under either strategy returns the state as it was
    and hands over exactly the full boards that extend it: the boards
    that keep its filled cells, arrange the same numbers, hold at every
    deduce step still to come the value that the step computes, and pass
    [spiral_solution_is_correct]; each of them once. *)
Theorem array_solve_hands_over_the_completions
    (rs : RecursionStrategy) (st : ArrayBoardState.t) :
  length (ArrayBoardState.numbers st) = N_Hexes ->
  (ArrayBoardState.n_cells_filled st <= N_Hexes)%nat ->
  NoDup (ArrayBoardState.numbers st) ->
  fst (ArrayBoardState.solve rs st) = st
  /\ NoDup (snd (ArrayBoardState.solve rs st))
  /\ forall b, b ∈ snd (ArrayBoardState.solve rs st)
               <-> ArrayBoardState.completes st b.
Proof.
  intros Hlen Hn Hnd. split_and!.
  - by apply solve_restores.
  - apply NoDup_solve_fuel; (done || lia).
  - intros b. apply elem_of_solve_fuel; (done || lia).
Qed.

Lemma array_solve_hands_over_the_completions_witness :
  fst (ArrayBoardState.solve SwapAndSwapBack sample_array_state)
  = sample_array_state.
Proof.
  exact (proj1 (array_solve_hands_over_the_completions SwapAndSwapBack
                  sample_array_state eq_refl
                  ltac:(simpl; unfold N_Hexes; lia)
                  ltac:(apply (bool_decide_unpack _); reflexivity))).
Defined.

(** ** The array state read as a vector state *)

Lemma find_needed_loop_find a v n count :
  (n + count = length a)%nat ->
  ArrayBoardState.find_needed_loop a v n count
  = match BoardState.find (drop n a) v with
    | Some j => (n + j)%nat
    | None => N_Hexes
    end.
Proof.
  revert n. induction count as [|count IH]; intros n Hn; simpl.
  - rewrite drop_ge by lia. done.
  - assert (Hd : drop n a = a !!! n :: drop (S n) a).
    { rewrite <- (drop_S a (a !!! n) n); [done|].
      apply list_lookup_lookup_total_lt. lia. }
    rewrite Hd. simpl.
    destruct (Z.eqb_spec (a !!! n) v) as [|Hne]; [f_equal; lia|].
    rewrite IH by lia.
    destruct (BoardState.find (drop (S n) a) v); simpl; [lia|done].
Qed.

Lemma take_swap_next (a : list Z) n i :
  (n <= i < length a)%nat ->
  take (S n) (ArrayBoardState.swap a n i) = take n a ++ [a !!! i].
Proof.
  intros Hi. apply list_eq_same_length with (S n).
  - rewrite length_app, length_take. simpl. lia.
  - rewrite length_take, length_swap. lia.
  - intros k x y Hk Hx Hy.
    rewrite lookup_take_lt in Hx by lia.
    apply list_lookup_total_correct in Hx. subst x.
    destruct (decide (k = n)) as [->|Hne].
    + rewrite swap_lookup_l by lia.
      rewrite lookup_app_r in Hy by (rewrite length_take; lia).
      rewrite length_take in Hy.
      replace (n - n `min` length a)%nat with O in Hy by lia.
      simpl in Hy. congruence.
    + rewrite lookup_app_l in Hy by (rewrite length_take; lia).
      rewrite lookup_take_lt in Hy by lia.
      apply list_lookup_total_correct in Hy. subst y.
      apply swap_lookup_other; lia.
Qed.

Lemma drop_swap_Permutation (a : list Z) n i :
  (n <= i < length a)%nat ->
  drop (S n) (ArrayBoardState.swap a n i) ≡ₚ delete (i - n)%nat (drop n a).
Proof.
  intros Hi.
  apply (Permutation_app_inv_l (take n a ++ [a !!! i])).
  rewrite <- (take_swap_next a n i Hi) at 1. rewrite take_drop.
  etrans; [apply swap_Permutation; lia|].
  rewrite <- (take_drop n a) at 1. rewrite <- app_assoc.
  apply Permutation_app_head. simpl.
  apply delete_Permutation. rewrite lookup_drop.
  replace (n + (i - n))%nat with i by lia.
  apply list_lookup_lookup_total_lt. lia.
Qed.

(** X7.  The array state is the vector state in one array.  Read as a
    vector state, placing the number at index [i] is [move_to_board] at
    offset [i - n_cells_filled]: the same board, the same available
    values up to their order.  [find_needed] is [std::find] on the
    unfilled cells, its result counted from the start of the array, and
    a deduce step looks for the same value in both. *)
Theorem array_state_is_vector_state (st : ArrayBoardState.t) :
  length (ArrayBoardState.numbers st) = N_Hexes ->
  (ArrayBoardState.n_cells_filled st <= N_Hexes)%nat ->
  (forall i, (ArrayBoardState.n_cells_filled st <= i < N_Hexes)%nat ->
     BoardState.board (as_vector_state (ArrayBoardState.place i st))
     = BoardState.board
         (BoardState.move_to_board (i - ArrayBoardState.n_cells_filled st)
            (as_vector_state st))
     /\ BoardState.available (as_vector_state (ArrayBoardState.place i st))
        ≡ₚ BoardState.available
             (BoardState.move_to_board (i - ArrayBoardState.n_cells_filled st)
                (as_vector_state st)))
  /\ (forall v,
        ArrayBoardState.find_needed st v
        = match BoardState.find (BoardState.available (as_vector_state st)) v with
          | Some j => (ArrayBoardState.n_cells_filled st + j)%nat
          | None => N_Hexes
          end)
  /\ (forall idxs,
        Forall (fun k => (k < ArrayBoardState.n_cells_filled st)%nat) idxs ->
        BoardState.needed_for (as_vector_state st) idxs
        = to_uint8 (Required_Sum - fold_plus (ArrayBoardState.numbers st) idxs)).
Proof.
  intros Hlen Hn. split_and!.
  - intros i Hi. split.
    + destruct st as [a m]. simpl in *.
      rewrite take_swap_next by lia. f_equal. f_equal.
      rewrite lookup_total_drop. f_equal. lia.
    + destruct st as [a m]. simpl in *. apply drop_swap_Permutation. lia.
  - intros v. unfold ArrayBoardState.find_needed. simpl.
    apply find_needed_loop_find. lia.
  - intros idxs Hidxs. unfold BoardState.needed_for. simpl.
    by rewrite fold_plus_take.
Qed.

Lemma array_state_is_vector_state_witness :
  BoardState.board (as_vector_state (ArrayBoardState.place 6 sample_array_state))
  = BoardState.board
      (BoardState.move_to_board 4 (as_vector_state sample_array_state)).
Proof.
  exact (proj1 (proj1 (array_state_is_vector_state sample_array_state eq_refl
                         ltac:(simpl; unfold N_Hexes; lia))
                  6%nat ltac:(simpl; unfold N_Hexes; lia))).
Defined.

(** ** The two engines with deduction *)

Section same_search.
Import BoardState.

(** What the deduction search arrives at extends the state and holds at
    every deduce step from the state on the value that the step
    computes. *)
Lemma spiral_search_fuel_sound fuel st b :
  (length (board st) + length (available st) = N_Hexes)%nat ->
  b ∈ spiral_search_fuel fuel st ->
  exists p,
    p ≡ₚ available st /\ b = board st ++ p
    /\ forall k idxs,
         (length (board st) <= k)%nat -> spiral_plan k = DeduceFrom idxs ->
         to_uint8 (Required_Sum - fold_plus b idxs) = b !!! k.
Proof.
  revert st. induction fuel as [|fuel IH]; intros st Hlen; [by intros ?%elem_of_nil|].
  assert (Hnext : forall i,
            (i < length (available st))%nat ->
            b ∈ spiral_search_fuel fuel (move_to_board i st) ->
            exists p',
              available st !!! i :: p' ≡ₚ available st
              /\ b = board st ++ available st !!! i :: p'
              /\ forall k idxs,
                   (S (length (board st)) <= k)%nat ->
                   spiral_plan k = DeduceFrom idxs ->
                   to_uint8 (Required_Sum - fold_plus b idxs) = b !!! k).
  { intros i Hi Hb. apply IH in Hb as (p' & Hp' & -> & Hk).
    - exists p'. split_and!.
      + simpl in Hp'. rewrite Hp'. symmetry. apply delete_Permutation.
        by apply list_lookup_lookup_total_lt.
      + simpl. by rewrite <- app_assoc.
      + intros k idxs Hle. apply Hk. rewrite move_to_board_board_length. lia.
    - rewrite move_to_board_board_length, move_to_board_available_length by done.
      lia. }
  cbn [spiral_search_fuel].
  destruct (spiral_plan (length (board st))) as [|idxs| |] eqn:Hplan.
  - intros (i & Hb & Hi)%list_elem_of_bind. apply elem_of_seq in Hi.
    destruct (Hnext i ltac:(lia) Hb) as (p' & Hp' & -> & Hk).
    eexists. split_and!; [exact Hp'|reflexivity|].
    intros k idxs Hle Hplank.
    destruct (decide (k = length (board st))) as [->|Hne]; [congruence|].
    apply Hk; [lia|done].
  - destruct (find (available st) (needed_for st idxs)) as [i|] eqn:Hfind;
      [|by intros ?%elem_of_nil].
    intros Hb. pose proof (find_Some _ _ _ Hfind) as Hi.
    pose proof (lookup_lt_Some _ _ _ Hi) as Hlt.
    destruct (Hnext i Hlt Hb) as (p' & Hp' & -> & Hk).
    eexists. split_and!; [exact Hp'|reflexivity|].
    intros k idxs' Hle Hplank.
    destruct (decide (k = length (board st))) as [->|Hne]; [|apply Hk; [lia|done]].
    assert (idxs' = idxs) as -> by congruence.
    rewrite list_lookup_total_middle by done.
    rewrite (list_lookup_total_correct _ _ _ Hi). unfold needed_for.
    destruct (spiral_plan_idxs _ _ Hplan) as (_ & Hidx & _).
    rewrite <- (fold_plus_take (board st ++ _) (length (board st))) by done.
    by rewrite take_app_length.
  - intros ->%list_elem_of_singleton.
    apply spiral_plan_terminal in Hplan.
    assert (available st = []) as Hnil by (apply nil_length_inv; lia).
    exists []. rewrite Hnil, app_nil_r. split_and!; [done..|].
    intros k idxs Hle Hplank%spiral_plan_deduce_lt. lia.
  - by intros ?%elem_of_nil.
Qed.

End same_search.

(** X8.  The two engines with deduction make the same search and
    differ in their terminal validator only.  From a state of the array
    search, [ArrayBoardState::solve] hands over exactly those full
    boards at which the vector engine, started from the same cells and
    the same available numbers, runs its terminal step and which pass
    [spiral_solution_is_correct]; the vector engine runs
    [CheckHardcoded::is_solution] on them instead. *)
Theorem deduce_engines_make_the_same_search
    (rs : RecursionStrategy) (st : ArrayBoardState.t) :
  ArrayBoardState.numbers st ≡ₚ iota_1_19 ->
  (ArrayBoardState.n_cells_filled st <= N_Hexes)%nat ->
  (forall b,
     b ∈ snd (ArrayBoardState.solve rs st)
     <-> b ∈ spiral_search (as_vector_state st)
         /\ spiral_solution_is_correct b = true)
  /\ (forall g,
        BoardState.solve_deduce_last_cell_of_line (as_vector_state st) g
        = for_each (spiral_search (as_vector_state st)) terminal_step g).
Proof.
  intros Hperm Hn.
  destruct (Permutation_iota_facts _ Hperm) as (Hlen & Hnd & _).
  split; [|intros g; apply solve_deduce_last_cell_of_line_search].
  intros b.
  unfold ArrayBoardState.solve.
  rewrite (elem_of_solve_fuel rs _ st b Hlen Hn) by lia.
  assert (Hlenv : (length (BoardState.board (as_vector_state st))
                   + length (BoardState.available (as_vector_state st))
                   = N_Hexes)%nat).
  { simpl. rewrite length_take, length_drop. lia. }
  assert (Hlenb : length (BoardState.board (as_vector_state st))
                  = ArrayBoardState.n_cells_filled st).
  { simpl. rewrite length_take. lia. }
  unfold spiral_search. split.
  - intros (Htake & Hp & Hded & Hok). split; [|done].
    apply spiral_search_fuel_complete; [lia| |].
    + exists (drop (ArrayBoardState.n_cells_filled st) b). split.
      * simpl.
        apply (Permutation_app_inv_l
                 (take (ArrayBoardState.n_cells_filled st) b)).
        rewrite take_drop, Htake, take_drop. done.
      * simpl. by rewrite <- Htake, take_drop.
    + split; [by rewrite Hp|]. by rewrite <- spiral_solution_is_correct_lines.
  - intros [Hb Hok].
    apply (spiral_search_fuel_sound _ _ _ Hlenv) in Hb as (p & Hp & -> & Hded).
    split_and!; [| |
      intros k idxs Hle; apply Hded; lia | done].
    + rewrite <- Hlenb at 1. by rewrite take_app_length.
    + rewrite Hp. simpl. by rewrite take_drop.
Qed.

Lemma deduce_engines_make_the_same_search_witness :
  sample_solution ∈ snd (ArrayBoardState.solve CreateNew sample_array_state)
  <-> sample_solution ∈ spiral_search (as_vector_state sample_array_state)
      /\ spiral_solution_is_correct sample_solution = true.
Proof.
  exact (proj1 (deduce_engines_make_the_same_search CreateNew sample_array_state
                  (reachable_Permutation_array _ sample_array_state_reachable)
                  ltac:(simpl; unfold N_Hexes; lia))
           sample_solution).
Defined.

(** ** The lines written on the way to the budget *)

Section budget_trace_facts.

Lemma multiples_between_done n period : multiples_between n period n = [].
Proof. unfold multiples_between. rewrite seqZ_nil by lia. done. Qed.

Lemma div_succ_multiple n period :
  0 < period -> (n + 1) mod period = 0 -> (n + 1) / period = n / period + 1.
Proof.
  intros Hp Hm.
  pose proof (Z.div_mod n period ltac:(lia)) as Hn.
  pose proof (Z.mod_pos_bound n period Hp) as Hr.
  pose proof (Z.div_mod (n + 1) period ltac:(lia)) as Hn1.
  rewrite Hm in Hn1. nia.
Qed.

Lemma div_succ_other n period :
  0 < period -> (n + 1) mod period <> 0 -> (n + 1) / period = n / period.
Proof.
  intros Hp Hm.
  pose proof (Z.div_mod n period ltac:(lia)) as Hn.
  pose proof (Z.mod_pos_bound n period Hp) as Hr.
  pose proof (Z.div_mod (n + 1) period ltac:(lia)) as Hn1.
  pose proof (Z.mod_pos_bound (n + 1) period Hp) as Hr1.
  nia.
Qed.

Lemma multiples_between_step n period bail :
  0 < period -> n < bail ->
  multiples_between n period bail
  = (if (n + 1) mod period =? 0 then [n + 1] else [])
    ++ multiples_between (n + 1) period bail.
Proof.
  intros Hp Hn. unfold multiples_between.
  destruct (Z.eqb_spec ((n + 1) mod period) 0) as [Hm|Hm].
  - rewrite (div_succ_multiple n period Hp Hm).
    assert (Hle : (n + 1) / period <= bail / period)
      by (apply Z.div_le_mono; lia).
    rewrite (div_succ_multiple n period Hp Hm) in Hle.
    rewrite seqZ_cons by lia. rewrite fmap_cons. simpl app.
    f_equal.
    + pose proof (Z.div_mod (n + 1) period ltac:(lia)) as Hn1.
      rewrite Hm, (div_succ_multiple n period Hp Hm) in Hn1. lia.
    + f_equal. f_equal; lia.
  - by rewrite (div_succ_other n period Hp Hm).
Qed.

Lemma budget_trace_step g :
  0 < n_attempts_log_period g -> n_attempts g < n_attempts_bail g ->
  budget_trace g
  = (if (n_attempts g + 1) mod n_attempts_log_period g =? 0
     then [AttemptsLogged (n_attempts g + 1)] else [])
    ++ (if n_attempts g + 1 =? n_attempts_bail g then [Stopping]
        else budget_trace (attempts_added 1 g)).
Proof.
  intros Hp Hn. unfold budget_trace at 1.
  rewrite (multiples_between_step _ _ _ Hp Hn), fmap_app, <- app_assoc.
  f_equal; [by destruct (_ =? 0)|].
  destruct (Z.eqb_spec (n_attempts g + 1) (n_attempts_bail g)) as [->|_].
  - by rewrite multiples_between_done.
  - reflexivity.
Qed.

End budget_trace_facts.

(** ** The permutation baseline *)

Section manual_perm.
Import BoardState.

Lemma solve_check_when_full_body_ext Check self1 self2 st g :
  (forall idx g', (idx < length (available st))%nat ->
     self1 (move_to_board idx st) g' = self2 (move_to_board idx st) g') ->
  solve_check_when_full_body Check self1 st g
  = solve_check_when_full_body Check self2 st g.
Proof.
  intros Hext. unfold solve_check_when_full_body.
  apply run_bind_ext. intros [] g'; [done|].
  apply for_each_ext_run. intros idx Hidx g''. apply Hext.
  apply elem_of_seq in Hidx. lia.
Qed.

Lemma solve_check_when_full_fuel_enough Check fuel st g :
  (length (available st) < fuel)%nat ->
  solve_check_when_full_fuel Check fuel st g = solve_check_when_full Check st g.
Proof.
  unfold solve_check_when_full. revert st g.
  induction fuel as [|fuel IH]; intros st g Hfuel; [lia|].
  cbn [solve_check_when_full_fuel].
  apply solve_check_when_full_body_ext. intros idx g' Hidx.
  pose proof (move_to_board_available_length idx st Hidx) as Hlen.
  rewrite IH by lia. f_equal. lia.
Qed.

(** [solve_check_when_full] satisfies the recursion equation of the
    source. *)
Lemma solve_check_when_full_unfold Check st g :
  solve_check_when_full Check st g
  = solve_check_when_full_body Check (solve_check_when_full Check) st g.
Proof.
  unfold solve_check_when_full at 1. cbn [solve_check_when_full_fuel].
  apply solve_check_when_full_body_ext. intros idx g' Hidx.
  apply solve_check_when_full_fuel_enough.
  pose proof (move_to_board_available_length idx st Hidx). lia.
Qed.

Lemma solve_check_when_full_fuel_boards Check fuel st g :
  solve_check_when_full_fuel Check fuel st g
  = for_each (full_boards_fuel fuel st) (check_step Check) g.
Proof.
  revert st g. induction fuel as [|fuel IH]; intros st g; [done|].
  simpl. unfold solve_check_when_full_body.
  destruct (Nat.eqb_spec (length (available st)) 0) as [Hnil|Hnonnil].
  - rewrite for_each_singleton. unfold check_step. rewrite Hnil.
    apply run_bind_ext. by intros [] g'.
  - rewrite run_ret_bind, for_each_bind.
    apply for_each_ext_run. intros idx _ g'. apply IH.
Qed.

Lemma elem_of_full_boards_fuel fuel st b :
  (length (available st) < fuel)%nat ->
  b ∈ full_boards_fuel fuel st
  <-> exists p, p ≡ₚ available st /\ b = board st ++ p.
Proof.
  revert st. induction fuel as [|fuel IH]; intros st Hfuel; [lia|].
  simpl. destruct (Nat.eqb_spec (length (available st)) 0) as [Hnil|Hnonnil].
  { apply nil_length_inv in Hnil. rewrite Hnil, list_elem_of_singleton. split.
    - intros ->. exists []. by rewrite app_nil_r.
    - intros (p & Hp%Permutation_nil_r & ->). subst p. by rewrite app_nil_r. }
  rewrite list_elem_of_bind. split.
  - intros (idx & Hb & Hidx). apply elem_of_seq in Hidx.
    apply IH in Hb; [|rewrite move_to_board_available_length; lia].
    destruct Hb as (p' & Hp' & ->). simpl in *.
    exists (available st !!! idx :: p'). split.
    + rewrite Hp'. symmetry. apply delete_Permutation.
      apply list_lookup_lookup_total_lt. lia.
    + by rewrite <- app_assoc.
  - intros (p & Hp & ->). destruct p as [|x p'].
    { apply Permutation_length in Hp. simpl in Hp. lia. }
    assert (x ∈ available st) as Hx by (rewrite <- Hp; left).
    apply list_elem_of_lookup in Hx as [idx Hidx].
    pose proof (lookup_lt_Some _ _ _ Hidx) as Hlt.
    exists idx. split; [|apply elem_of_seq; lia].
    apply IH; [rewrite move_to_board_available_length; lia|].
    exists p'. simpl. rewrite (list_lookup_total_correct _ _ _ Hidx). split.
    + apply (inj (x ::.)). rewrite Hp. by apply delete_Permutation.
    + by rewrite <- app_assoc.
Qed.

Lemma NoDup_full_boards_fuel fuel st :
  (length (available st) < fuel)%nat -> NoDup (available st) ->
  NoDup (full_boards_fuel fuel st).
Proof.
  revert st. induction fuel as [|fuel IH]; intros st Hfuel Hnd; [lia|].
  simpl. destruct (Nat.eqb_spec (length (available st)) 0) as [Hnil|Hnonnil].
  { apply NoDup_singleton. }
  apply NoDup_bind; [| |apply NoDup_seq].
  - intros i j b Hi Hj Hbi Hbj. apply elem_of_seq in Hi, Hj.
    apply elem_of_full_boards_fuel in Hbi, Hbj;
      try (rewrite move_to_board_available_length; lia).
    destruct Hbi as (p1 & _ & Hb1), Hbj as (p2 & _ & Hb2).
    simpl in *. rewrite <- !app_assoc in *. simpl in *.
    rewrite Hb1 in Hb2. apply app_inv_head in Hb2.
    injection Hb2 as Hv _.
    eapply NoDup_lookup; [exact Hnd| |].
    + apply list_lookup_lookup_total_lt. lia.
    + rewrite Hv. apply list_lookup_lookup_total_lt. lia.
  - intros idx Hidx. apply elem_of_seq in Hidx. apply IH.
    + rewrite move_to_board_available_length; lia.
    + simpl. eapply sublist_NoDup; [done | apply sublist_delete].
Qed.

Lemma length_bind_const {A B} (f : A -> list B) (l : list A) c :
  (forall x, x ∈ l -> Z.of_nat (length (f x)) = c) ->
  Z.of_nat (length (l ≫= f)) = Z.of_nat (length l) * c.
Proof.
  induction l as [|x l IH]; intros Hf; [done|].
  change ((x :: l) ≫= f) with (f x ++ l ≫= f).
  rewrite length_app, Nat2Z.inj_add, (Hf x) by left.
  rewrite IH by (intros y Hy; apply Hf; by right).
  simpl length. lia.
Qed.

Lemma length_full_boards_fuel fuel st :
  (length (available st) < fuel)%nat ->
  Z.of_nat (length (full_boards_fuel fuel st)) = zfact (length (available st)).
Proof.
  revert st. induction fuel as [|fuel IH]; intros st Hfuel; [lia|].
  simpl. destruct (Nat.eqb_spec (length (available st)) 0) as [Hnil|Hnonnil].
  { by rewrite Hnil. }
  rewrite (length_bind_const _ _ (zfact (pred (length (available st))))).
  - rewrite length_seq.
    destruct (length (available st)) as [|n]; [done|]. done.
  - intros idx Hidx. apply elem_of_seq in Hidx.
    rewrite IH by (rewrite move_to_board_available_length; lia).
    by rewrite move_to_board_available_length by lia.
Qed.

End manual_perm.

(** X9.  [solve_check_when_full<Check>] runs the validator on the full
    boards of the state, one after the other, and hands over those that
    pass, for as long as the validator returns.  The full boards are the
    state's board followed by each arrangement of its available values:
    [n!] boards for [n] available values, without repeats when these
    are distinct. *)
Theorem check_when_full_validates_every_arrangement
    (Check : list Z -> Run bool) (st : BoardState.t) :
  (forall g, solve_check_when_full Check st g
             = for_each (full_boards st) (check_step Check) g)
  /\ (forall b, b ∈ full_boards st
                <-> exists p, p ≡ₚ BoardState.available st
                              /\ b = BoardState.board st ++ p)
  /\ Z.of_nat (length (full_boards st))
     = zfact (length (BoardState.available st))
  /\ (NoDup (BoardState.available st) -> NoDup (full_boards st)).
Proof.
  split_and!.
  - intros g. apply solve_check_when_full_fuel_boards.
  - intros b. apply elem_of_full_boards_fuel. lia.
  - apply length_full_boards_fuel. lia.
  - apply NoDup_full_boards_fuel. lia.
Qed.

Lemma check_when_full_validates_every_arrangement_witness :
  NoDup (BoardState.available sample_permutation_state)
  /\ NoDup (full_boards sample_permutation_state).
Proof.
  assert (Hnd : NoDup (BoardState.available sample_permutation_state))
    by (apply (bool_decide_unpack _); reflexivity).
  split; [exact Hnd|].
  exact (proj2 (proj2 (proj2
           (check_when_full_validates_every_arrangement
              CheckHardcoded.is_solution sample_permutation_state))) Hnd).
Defined.

(** ** The permutation baseline under the attempt budget *)

Section budget.
Import BoardState.

Lemma to_size_t_small z : 0 <= z < 2 ^ 64 -> to_size_t z = z.
Proof. intros Hz. unfold to_size_t. by apply Z.mod_small. Qed.

(** One call of the validator, away from the wrap-around of the
    counter. *)
Lemma is_solution_run b g :
  0 <= n_attempts g -> n_attempts g + 1 < 2 ^ 64 ->
  CheckHardcoded.is_solution b g
  = ((if (n_attempts g + 1) mod n_attempts_log_period g =? 0
      then [AttemptsLogged (n_attempts g + 1)] else [])
     ++ (if n_attempts g + 1 =? n_attempts_bail g then [Stopping] else []),
     if n_attempts g + 1 =? n_attempts_bail g then Exited
     else Returned (CheckHardcoded.raster_lines_ok b) (attempts_added 1 g)).
Proof.
  intros Hn Hmax. unfold CheckHardcoded.is_solution.
  rewrite to_size_t_small by lia.
  destruct (_ =? n_attempts_bail g); [reflexivity|].
  by rewrite app_nil_r.
Qed.

Lemma check_step_rejected b g :
  CheckHardcoded.raster_lines_ok b = false ->
  0 <= n_attempts g -> n_attempts g + 1 < 2 ^ 64 ->
  check_step CheckHardcoded.is_solution b g
  = ((if (n_attempts g + 1) mod n_attempts_log_period g =? 0
      then [AttemptsLogged (n_attempts g + 1)] else [])
     ++ (if n_attempts g + 1 =? n_attempts_bail g then [Stopping] else []),
     if n_attempts g + 1 =? n_attempts_bail g then Exited
     else Returned tt (attempts_added 1 g)).
Proof.
  intros Hb Hn Hmax. unfold check_step.
  rewrite run_bind_eq, (is_solution_run b g Hn Hmax), Hb.
  destruct (_ =? n_attempts_bail g); [reflexivity|].
  cbn. by rewrite !app_nil_r.
Qed.

(** A stretch of rejected boards at least as long as what is left of the
    attempt budget ends the process; what has been written by then are
    the lines of the validator, and nothing has been handed over. *)
Lemma for_each_exhausts_budget (l1 l2 : list (list Z)) g :
  Forall (fun b => CheckHardcoded.raster_lines_ok b = false) l1 ->
  0 < n_attempts_log_period g ->
  0 <= n_attempts g < n_attempts_bail g ->
  n_attempts_bail g <= n_attempts g + Z.of_nat (length l1) ->
  n_attempts_bail g < 2 ^ 64 ->
  for_each (l1 ++ l2) (check_step CheckHardcoded.is_solution) g
  = (budget_trace g, Exited).
Proof.
  intros Hrej. revert g.
  induction Hrej as [|b l1 Hb _ IH]; intros g Hp Hn Hlen Hbail.
  { simpl in Hlen. lia. }
  change ((b :: l1) ++ l2) with (b :: (l1 ++ l2)).
  cbn [for_each]. rewrite run_bind_eq.
  rewrite (check_step_rejected b g Hb) by lia.
  rewrite (budget_trace_step g) by lia.
  destruct (Z.eqb_spec (n_attempts g + 1) (n_attempts_bail g)) as [Heq|Hne].
  { reflexivity. }
  rewrite (IH (attempts_added 1 g)).
  - by rewrite app_nil_r.
  - done.
  - unfold attempts_added. cbn [n_attempts n_attempts_bail]. lia.
  - unfold attempts_added. cbn [n_attempts n_attempts_bail].
    rewrite length_cons, Nat2Z.inj_succ in Hlen. lia.
  - done.
Qed.

Lemma full_boards_fuel_head fuel b x rest :
  exists tail,
    full_boards_fuel (S fuel) (mk b (x :: rest))
    = full_boards_fuel fuel (mk (b ++ [x]) rest) ++ tail.
Proof.
  eexists. cbn [full_boards_fuel available length Nat.eqb seq].
  change ((0%nat :: seq 1 (length rest)) ≫= ?f)
    with (f 0%nat ++ seq 1 (length rest) ≫= f).
  reflexivity.
Qed.

Lemma full_boards_fuel_prefix fuel st b :
  b ∈ full_boards_fuel fuel st -> exists p, b = board st ++ p.
Proof.
  revert st. induction fuel as [|fuel IH]; intros st; [by intros ?%elem_of_nil|].
  simpl. destruct (Nat.eqb_spec (length (available st)) 0) as [Hnil|Hnonnil].
  - intros ->%list_elem_of_singleton. exists []. by rewrite app_nil_r.
  - intros (idx & Hb & _)%list_elem_of_bind. apply IH in Hb as [p ->].
    simpl. eexists. by rewrite <- app_assoc.
Qed.

End budget.

Section manual_perm_run.
Import BoardState.

(** The full boards that begin with the first three available values
    come first; when none of them passes and there are at least as many
    as attempts left, the budget ends the run. *)
Lemma full_boards_exhaust_budget fuel b x1 x2 x3 rest g :
  (length rest < fuel)%nat ->
  (forall p, CheckHardcoded.raster_lines_ok (b ++ x1 :: x2 :: x3 :: p) = false) ->
  0 < n_attempts_log_period g ->
  0 <= n_attempts g < n_attempts_bail g ->
  n_attempts_bail g <= n_attempts g + zfact (length rest) ->
  n_attempts_bail g < 2 ^ 64 ->
  for_each (full_boards_fuel (S (S (S fuel))) (mk b (x1 :: x2 :: x3 :: rest)))
    (check_step CheckHardcoded.is_solution) g
  = (budget_trace g, Exited).
Proof.
  intros Hfuel Hrej Hp Hn Hlen Hbail.
  destruct (full_boards_fuel_head (S (S fuel)) b x1 (x2 :: x3 :: rest))
    as [t1 ->].
  destruct (full_boards_fuel_head (S fuel) (b ++ [x1]) x2 (x3 :: rest))
    as [t2 ->].
  destruct (full_boards_fuel_head fuel ((b ++ [x1]) ++ [x2]) x3 rest)
    as [t3 ->].
  rewrite <- !app_assoc.
  apply for_each_exhausts_budget; [|done|done| |done].
  - apply list.Forall_forall. intros b' [p ->]%full_boards_fuel_prefix.
    simpl. rewrite <- !app_assoc. apply Hrej.
  - rewrite length_full_boards_fuel by done. done.
Qed.

Lemma check_step_ext Check1 Check2 b g :
  (forall b' g', Check1 b' g' = Check2 b' g') ->
  check_step Check1 b g = check_step Check2 b g.
Proof. intros Heq. unfold check_step. rewrite !run_bind_eq. by rewrite Heq. Qed.

Lemma solve_check_when_full_ext Check1 Check2 st g :
  (forall b' g', Check1 b' g' = Check2 b' g') ->
  solve_check_when_full Check1 st g = solve_check_when_full Check2 st g.
Proof.
  intros Heq. unfold solve_check_when_full.
  rewrite !solve_check_when_full_fuel_boards.
  apply for_each_ext_run. intros b _ g'. by apply check_step_ext.
Qed.

Lemma zfact_16 : zfact 16 = 20922789888000.
Proof. reflexivity. Qed.

Lemma zfact_19 : zfact N_Hexes = 121645100408832000.
Proof. reflexivity. Qed.

Lemma manual_perm_hardcoded_run :
  solve_manual_perm CheckHardcoded.is_solution initial_counters
  = (budget_trace initial_counters, Exited).
Proof.
  unfold solve_manual_perm, solve_check_when_full.
  rewrite solve_check_when_full_fuel_boards.
  apply (full_boards_exhaust_budget 17 [] 1 2 3
           [4; 5; 6; 7; 8; 9; 10; 11; 12; 13; 14; 15; 16; 17; 18; 19]
           initial_counters).
  - simpl. lia.
  - intros p. reflexivity.
  - simpl. lia.
  - simpl. lia.
  - change (length [4; 5; 6; 7; 8; 9; 10; 11; 12; 13; 14; 15; 16; 17; 18; 19])
      with 16%nat.
    rewrite zfact_16. simpl. lia.
  - simpl. lia.
Qed.

End manual_perm_run.

Lemma is_solution_vec_of_vecs soln g :
  CheckVecOfVecs.is_solution soln g = CheckHardcoded.is_solution soln g.
Proof.
  unfold CheckVecOfVecs.is_solution, CheckHardcoded.is_solution.
  rewrite lines_loop_forallb, raster_lines_ok_lines. reflexivity.
Qed.

Lemma manual_perm_vec_of_vecs_run :
  solve_manual_perm CheckVecOfVecs.is_solution initial_counters
  = (budget_trace initial_counters, Exited).
Proof.
  rewrite <- manual_perm_hardcoded_run.
  apply solve_check_when_full_ext. exact is_solution_vec_of_vecs.
Qed.

Lemma budget_trace_initial :
  budget_trace initial_counters
  = (AttemptsLogged
       <$> [10000000; 20000000; 30000000; 40000000; 50000000;
            60000000; 70000000; 80000000; 90000000; 100000000])
    ++ [Stopping].
Proof. reflexivity. Qed.

(** X10.  The two strategies built on [solve_manual_perm] never get to a
    solution.  Started from the fresh state with the counters at their
    initial values, the run writes the ten lines of the attempt count,
    from 10000000 to 100000000 attempts, and is then stopped by the
    attempt budget; no board has been handed to the sink.  The boards
    validated up to then all start with 1, 2, 3. *)
Theorem manual_perm_stops_empty_handed :
  let trace :=
    (AttemptsLogged
       <$> [10000000; 20000000; 30000000; 40000000; 50000000;
            60000000; 70000000; 80000000; 90000000; 100000000])
    ++ [Stopping] in
  solve_manual_perm CheckHardcoded.is_solution initial_counters
  = (trace, Exited)
  /\ solve_manual_perm CheckVecOfVecs.is_solution initial_counters
     = (trace, Exited).
Proof.
  cbv zeta. rewrite <- budget_trace_initial.
  split; [exact manual_perm_hardcoded_run | exact manual_perm_vec_of_vecs_run].
Qed.

(** ** The two labelings *)

Lemma to_spiral_to_raster b : length b = N_Hexes -> to_spiral (to_raster b) = b.
Proof. intros Hlen. by explicit_board b Hlen. Qed.

Lemma length_to_raster b : length (to_raster b) = N_Hexes.
Proof. unfold to_raster. by rewrite length_fmap. Qed.

Lemma length_to_spiral b : length (to_spiral b) = N_Hexes.
Proof. unfold to_spiral. by rewrite length_fmap. Qed.

(** X11.  The two hard-coded line tables describe the same fifteen lines
    of the hexagon.  Relabelling a 19-cell board from raster to spiral
    positions (as the two diagrams of the source place them) and back
    gives the board again, rearranges its values, and turns the verdict
    of the raster lines of [CheckHardcoded::is_solution] into the
    verdict of [spiral_solution_is_correct]. *)
Theorem labelings_agree (b : list Z) :
  length b = N_Hexes ->
  spiral_solution_is_correct (to_spiral b) = CheckHardcoded.raster_lines_ok b
  /\ CheckHardcoded.raster_lines_ok (to_raster b) = spiral_solution_is_correct b
  /\ to_raster (to_spiral b) = b
  /\ to_spiral (to_raster b) = b
  /\ to_spiral b ≡ₚ b
  /\ to_raster b ≡ₚ b.
Proof.
  intros Hlen.
  assert (H1 : forall c, length c = N_Hexes ->
            spiral_solution_is_correct (to_spiral c)
            = CheckHardcoded.raster_lines_ok c).
  { intros c Hc.
    rewrite spiral_solution_is_correct_lines, raster_lines_ok_lines.
    exact (to_spiral_lines c Hc). }
  split_and!.
  - exact (H1 b Hlen).
  - rewrite <- (H1 (to_raster b) (length_to_raster b)).
    rewrite (to_spiral_to_raster b Hlen). reflexivity.
  - exact (to_raster_to_spiral b Hlen).
  - exact (to_spiral_to_raster b Hlen).
  - exact (to_spiral_Permutation b Hlen).
  - exact (to_raster_Permutation b Hlen).
Qed.

Lemma labelings_agree_witness :
  length sample_solution = N_Hexes
  /\ spiral_solution_is_correct (to_spiral sample_solution)
     = CheckHardcoded.raster_lines_ok sample_solution.
Proof.
  split; [reflexivity|].
  exact (proj1 (labelings_agree sample_solution eq_refl)).
Defined.

(** ** The strategy [deduce] as [main] runs it *)

Section deduce_strategy.
Import BoardState.

Lemma sink_fuel_search consume_fun fuel st g :
  BoardStateSink.solve_deduce_last_cell_of_line_fuel consume_fun fuel st g
  = for_each (spiral_search_fuel fuel st) (terminal_step_with consume_fun) g.
Proof.
  revert st g. induction fuel as [|fuel IH]; intros st g; [done|].
  simpl. unfold BoardStateSink.solve_deduce_last_cell_of_line_body.
  destruct (spiral_plan (length (board st))) as [|idxs| |].
  - unfold choose. rewrite for_each_bind.
    apply for_each_ext_run. intros i _ g'. apply IH.
  - unfold deduce.
    destruct (find (available st) (needed_for st idxs)); [apply IH|done].
  - by rewrite for_each_singleton.
  - done.
Qed.

(** The recursive calls of one level are calls on [move_to_board idx]
    for an index into the available values. *)
Lemma sink_body_ext consume_fun self1 self2 st :
  (forall idx, (idx < length (available st))%nat ->
     self1 (move_to_board idx st) = self2 (move_to_board idx st)) ->
  BoardStateSink.solve_deduce_last_cell_of_line_body consume_fun self1 st
  = BoardStateSink.solve_deduce_last_cell_of_line_body consume_fun self2 st.
Proof.
  intros Hext. unfold BoardStateSink.solve_deduce_last_cell_of_line_body.
  destruct (spiral_plan (length (board st))) as [|idxs| |]; try done.
  - unfold choose. apply for_each_ext. intros idx Hidx.
    apply elem_of_seq in Hidx. apply Hext. lia.
  - unfold deduce.
    destruct (find (available st) (needed_for st idxs)) as [idx|] eqn:E; [|done].
    apply Hext. apply find_Some in E. by eapply lookup_lt_Some.
Qed.

Lemma sink_fuel_enough consume_fun fuel st :
  (20 - length (board st) <= fuel)%nat ->
  BoardStateSink.solve_deduce_last_cell_of_line_fuel consume_fun fuel st
  = BoardStateSink.solve_deduce_last_cell_of_line consume_fun st.
Proof.
  unfold BoardStateSink.solve_deduce_last_cell_of_line. revert st.
  induction fuel as [|fuel IH]; intros st Hfuel.
  { by replace (20 - length (board st))%nat with O by lia. }
  destruct (20 - length (board st))%nat as [|m] eqn:Hm.
  - simpl. unfold BoardStateSink.solve_deduce_last_cell_of_line_body.
    rewrite spiral_plan_beyond by hex_lia. done.
  - simpl. apply sink_body_ext. intros idx Hidx.
    pose proof (move_to_board_board_length idx st) as Hlen.
    rewrite IH by lia. f_equal. lia.
Qed.

(** With a sink, too, the engine satisfies the recursion equation of
    the source. *)
Lemma sink_unfold consume_fun st :
  BoardStateSink.solve_deduce_last_cell_of_line consume_fun st
  = BoardStateSink.solve_deduce_last_cell_of_line_body consume_fun
      (BoardStateSink.solve_deduce_last_cell_of_line consume_fun) st.
Proof.
  unfold BoardStateSink.solve_deduce_last_cell_of_line at 1.
  destruct (20 - length (board st))%nat as [|m] eqn:Hm.
  - simpl. unfold BoardStateSink.solve_deduce_last_cell_of_line_body.
    rewrite spiral_plan_beyond by hex_lia. done.
  - simpl. apply sink_body_ext. intros idx Hidx.
    pose proof (move_to_board_board_length idx st) as Hlen.
    apply sink_fuel_enough. lia.
Qed.

Lemma sink_search consume_fun st g :
  BoardStateSink.solve_deduce_last_cell_of_line consume_fun st g
  = for_each (spiral_search st) (terminal_step_with consume_fun) g.
Proof. apply sink_fuel_search. Qed.

Lemma sink_dump_fuel fuel st g :
  BoardStateSink.solve_deduce_last_cell_of_line_fuel dump fuel st g
  = solve_deduce_last_cell_of_line_fuel fuel st g.
Proof.
  rewrite sink_fuel_search, solve_deduce_last_cell_of_line_fuel_search.
  reflexivity.
Qed.

Lemma terminal_step_with_rejected consume_fun b g :
  CheckHardcoded.raster_lines_ok b = false ->
  0 <= n_attempts g ->
  n_attempts g + 1 < n_attempts_log_period g ->
  n_attempts g + 1 < n_attempts_bail g ->
  n_attempts g + 1 < 2 ^ 64 ->
  terminal_step_with consume_fun b g = ([], Returned tt (attempts_added 1 g)).
Proof.
  intros Hb Hn Hp Hbail Hmax. unfold terminal_step_with. rewrite run_bind_eq.
  unfold CheckHardcoded.is_solution. rewrite Hb.
  rewrite to_size_t_small by lia.
  rewrite Z.mod_small by lia.
  destruct (Z.eqb_spec (n_attempts g + 1) 0) as [|_]; [lia|].
  destruct (Z.eqb_spec (n_attempts g + 1) (n_attempts_bail g)) as [|_]; [lia|].
  reflexivity.
Qed.

Lemma attempts_added_added j k g :
  attempts_added k (attempts_added j g) = attempts_added (j + k) g.
Proof. unfold attempts_added. simpl. f_equal. lia. Qed.

Lemma attempts_added_0 g : attempts_added 0 g = g.
Proof. destruct g. unfold attempts_added. simpl. f_equal. lia. Qed.

(** A stretch of rejected boards inside the attempt budget and short of
    the next log line only counts attempts. *)
Lemma for_each_rejected_quietly consume_fun (bs : list (list Z)) g :
  Forall (fun b => CheckHardcoded.raster_lines_ok b = false) bs ->
  0 <= n_attempts g ->
  n_attempts g + Z.of_nat (length bs) < n_attempts_log_period g ->
  n_attempts g + Z.of_nat (length bs) < n_attempts_bail g ->
  n_attempts g + Z.of_nat (length bs) < 2 ^ 64 ->
  for_each bs (terminal_step_with consume_fun) g
  = ([], Returned tt (attempts_added (Z.of_nat (length bs)) g)).
Proof.
  intros Hrej. revert g.
  induction Hrej as [|b bs Hb _ IH]; intros g Hn Hp Hbail Hmax.
  { simpl. by rewrite attempts_added_0. }
  cbn [for_each]. rewrite run_bind_eq.
  rewrite length_cons, Nat2Z.inj_succ in *.
  rewrite (terminal_step_with_rejected _ b g Hb) by lia.
  rewrite IH by (simpl; lia).
  rewrite attempts_added_added. simpl. do 3 f_equal. lia.
Qed.

Lemma length_spiral_solutions : length spiral_solutions = 12%nat.
Proof. reflexivity. Qed.

(** One run of the engine from the fresh state, whatever its sink. *)
Lemma sink_run_rejects_quietly consume_fun g :
  0 <= n_attempts g ->
  n_attempts g + 12 < n_attempts_log_period g ->
  n_attempts g + 12 < n_attempts_bail g ->
  n_attempts g + 12 < 2 ^ 64 ->
  BoardStateSink.solve_deduce_last_cell_of_line consume_fun initial g
  = ([], Returned tt (attempts_added 12 g)).
Proof.
  intros Hn Hp Hbail Hmax.
  rewrite sink_search, spiral_search_run.
  rewrite (for_each_rejected_quietly consume_fun spiral_solutions g
             spiral_solutions_fail_raster_test);
    rewrite ?length_spiral_solutions; [reflexivity|lia..].
Qed.

(** Repeated runs. *)
Lemma sink_runs_reject_quietly {A} consume_fun (xs : list A) g :
  0 <= n_attempts g ->
  n_attempts g + 12 * Z.of_nat (length xs) < n_attempts_log_period g ->
  n_attempts g + 12 * Z.of_nat (length xs) < n_attempts_bail g ->
  n_attempts g + 12 * Z.of_nat (length xs) < 2 ^ 64 ->
  for_each xs
    (fun _ => BoardStateSink.solve_deduce_last_cell_of_line consume_fun initial) g
  = ([], Returned tt (attempts_added (12 * Z.of_nat (length xs)) g)).
Proof.
  revert g. induction xs as [|x xs IH]; intros g Hn Hp Hbail Hmax.
  { simpl. by rewrite attempts_added_0. }
  cbn [for_each]. rewrite run_bind_eq.
  rewrite length_cons, Nat2Z.inj_succ in *.
  rewrite sink_run_rejects_quietly by lia.
  rewrite IH by (simpl; lia).
  rewrite attempts_added_added. simpl. do 3 f_equal. lia.
Qed.

End deduce_strategy.

Lemma deduce_strategy_run :
  solve_deduce_last_cell_of_line_strategy initial_counters
  = ([], Returned tt (mkCounters 1200 10000000 100000000)).
Proof.
  unfold solve_deduce_last_cell_of_line_strategy. rewrite run_bind_eq.
  rewrite (sink_runs_reject_quietly ignore (seq 0 99) initial_counters);
    rewrite ?length_seq; [|simpl; lia..].
  rewrite sink_run_rejects_quietly by (simpl; lia).
  reflexivity.
Qed.

(** X12.  The strategy [deduce] as [main] runs it: its hundred runs make
    1200 calls of the validator between them, twelve each, and nothing
    else; no board is handed to a sink, nothing is written, the process
    is not stopped.  With [dump] as its sink the engine is the one whose
    single run is considered above. *)
Theorem deduce_strategy_is_silent :
  solve_deduce_last_cell_of_line_strategy initial_counters
  = ([], Returned tt (mkCounters 1200 10000000 100000000))
  /\ forall st g,
       BoardStateSink.solve_deduce_last_cell_of_line dump st g
       = BoardState.solve_deduce_last_cell_of_line st g.
Proof.
  split; [exact deduce_strategy_run|].
  intros st g. apply sink_dump_fuel.
Qed.

(** ** The permutation baseline with the budget out of reach *)

Section within_budget.
Import BoardState.

Lemma check_step_run b g :
  0 <= n_attempts g -> n_attempts g + 1 < 2 ^ 64 ->
  n_attempts g + 1 <> n_attempts_bail g ->
  exists ev,
    consumed_boards ev = List.filter CheckHardcoded.raster_lines_ok [b]
    /\ check_step CheckHardcoded.is_solution b g
       = (ev, Returned tt (attempts_added 1 g)).
Proof.
  intros Hn Hmax Hbail. unfold check_step.
  rewrite run_bind_eq, (is_solution_run b g Hn Hmax).
  destruct (Z.eqb_spec (n_attempts g + 1) (n_attempts_bail g)) as [|_]; [done|].
  cbn [List.filter].
  destruct (CheckHardcoded.raster_lines_ok b); cbn;
    (eexists; split; [|reflexivity]);
    rewrite !consumed_boards_app; by destruct (_ mod _ =? 0).
Qed.

(** With the budget out of reach, every board of a list is validated
    and those that pass are handed over, in order. *)
Lemma for_each_check_within_budget (l : list (list Z)) g :
  0 <= n_attempts g ->
  n_attempts g + Z.of_nat (length l) < n_attempts_bail g ->
  n_attempts_bail g <= 2 ^ 64 ->
  exists ev,
    consumed_boards ev = List.filter CheckHardcoded.raster_lines_ok l
    /\ for_each l (check_step CheckHardcoded.is_solution) g
       = (ev, Returned tt (attempts_added (Z.of_nat (length l)) g)).
Proof.
  revert g. induction l as [|b l IH]; intros g Hn Hlen Hbail.
  { exists []. split; [done|]. cbn. by rewrite attempts_added_0. }
  rewrite length_cons, Nat2Z.inj_succ in *.
  cbn [for_each]. rewrite run_bind_eq.
  destruct (check_step_run b g) as (ev1 & Hev1 & ->); [lia..|].
  destruct (IH (attempts_added 1 g)) as (ev2 & Hev2 & ->).
  { unfold attempts_added. cbn [n_attempts]. lia. }
  { unfold attempts_added. cbn [n_attempts n_attempts_bail]. lia. }
  { done. }
  exists (ev1 ++ ev2). split.
  - rewrite consumed_boards_app, Hev1, Hev2.
    change (b :: l) with ([b] ++ l). by rewrite List.filter_app.
  - rewrite attempts_added_added. do 3 f_equal. lia.
Qed.

Lemma sorted_full_boards_fuel fuel st :
  (length (available st) < fuel)%nat ->
  StronglySorted Z.lt (available st) ->
  StronglySorted lex_lt (full_boards_fuel fuel st).
Proof.
  revert st. induction fuel as [|fuel IH]; intros st Hfuel Hs; [lia|].
  cbn [full_boards_fuel].
  destruct (Nat.eqb_spec (length (available st)) 0) as [Hnil|Hnonnil].
  { repeat constructor. }
  apply (StronglySorted_bind lt); [apply StronglySorted_seq| |].
  - intros idx Hidx. apply elem_of_seq in Hidx. apply IH.
    + rewrite move_to_board_available_length; lia.
    + simpl. by apply StronglySorted_delete.
  - intros i j a b Hi Hj Hij Ha Hb. apply elem_of_seq in Hi, Hj.
    apply full_boards_fuel_prefix in Ha, Hb.
    destruct Ha as [p1 ->], Hb as [p2 ->].
    simpl. rewrite <- !app_assoc. apply lex_lt_app_head. simpl. left.
    apply StronglySorted_lookup_lt; [done|lia..].
Qed.

Lemma StronglySorted_List_filter {A} (R : relation A) (f : A -> bool) l :
  StronglySorted R l -> StronglySorted R (List.filter f l).
Proof.
  induction 1 as [|x l _ IH Hx]; [constructor|]. cbn [List.filter].
  destruct (f x); [|done]. constructor; [done|].
  apply list.Forall_forall. intros y Hy.
  apply list_elem_of_In, filter_In in Hy as [Hy _].
  eapply list.Forall_forall in Hx; [exact Hx|by apply list_elem_of_In].
Qed.

Lemma lex_lt_irrefl a : ~ lex_lt a a.
Proof. intros H. exact (lex_lt_asym a a H H). Qed.

Lemma StronglySorted_lex_NoDup (l : list (list Z)) :
  StronglySorted lex_lt l -> NoDup l.
Proof.
  induction 1 as [|x l _ IH Hx]; constructor; [|done].
  intros Hin. eapply list.Forall_forall in Hx; [|exact Hin].
  by apply lex_lt_irrefl in Hx.
Qed.

(** The arrangements of 1..19 that pass the validator are the twelve
    magic boards of the raster labeling, in ascending order. *)
Lemma passing_full_boards :
  List.filter CheckHardcoded.raster_lines_ok (full_boards initial)
  = raster_solutions.
Proof.
  assert (Hs : StronglySorted lex_lt
                 (List.filter CheckHardcoded.raster_lines_ok (full_boards initial))).
  { apply StronglySorted_List_filter.
    apply sorted_full_boards_fuel;
      [apply Nat.lt_succ_diag_r | exact iota_1_19_sorted]. }
  apply sorted_Permutation_eq; [exact Hs | exact raster_solutions_sorted |].
  apply NoDup_Permutation;
    [exact (StronglySorted_lex_NoDup _ Hs) | exact raster_solutions_NoDup |].
  intros b. rewrite <- raster_magic_boards.
  rewrite list_elem_of_In, filter_In, <- list_elem_of_In.
  unfold full_boards.
  rewrite (elem_of_full_boards_fuel _ initial b (Nat.lt_succ_diag_r _)).
  unfold is_magic. rewrite raster_lines_ok_lines. split.
  - intros [(p & Hp & ->) Hok]. split; [exact Hp | exact Hok].
  - intros [Hp Hok]. split; [|exact Hok]. exists b. split; [exact Hp | reflexivity].
Qed.

Lemma solve_check_when_full_boards Check st g :
  solve_check_when_full Check st g
  = for_each (full_boards st) (check_step Check) g.
Proof. apply solve_check_when_full_fuel_boards. Qed.

Lemma length_full_boards st :
  Z.of_nat (length (full_boards st)) = zfact (length (available st)).
Proof. apply length_full_boards_fuel. lia. Qed.

(** With the budget out of reach, [solve_check_when_full] validates
    every full board of the state and hands over those that pass. *)
Lemma check_when_full_within_budget st g :
  0 <= n_attempts g ->
  n_attempts g + zfact (length (available st)) < n_attempts_bail g ->
  n_attempts_bail g <= 2 ^ 64 ->
  exists ev,
    consumed_boards ev
    = List.filter CheckHardcoded.raster_lines_ok (full_boards st)
    /\ solve_check_when_full CheckHardcoded.is_solution st g
       = (ev, Returned tt (attempts_added (zfact (length (available st))) g)).
Proof.
  intros Hn Hlen Hbail.
  rewrite solve_check_when_full_boards.
  rewrite <- length_full_boards in *.
  exact (for_each_check_within_budget (full_boards st) g Hn Hlen Hbail).
Qed.

Lemma manual_perm_hardcoded_within_budget g :
  0 <= n_attempts g ->
  n_attempts g + zfact N_Hexes < n_attempts_bail g ->
  n_attempts_bail g <= 2 ^ 64 ->
  exists ev,
    consumed_boards ev = raster_solutions
    /\ solve_manual_perm CheckHardcoded.is_solution g
       = (ev, Returned tt (attempts_added (zfact N_Hexes) g)).
Proof.
  intros Hn Hlen Hbail.
  destruct (check_when_full_within_budget initial g Hn Hlen Hbail)
    as (ev & Hev & Hrun).
  exists ev. split; [|exact Hrun].
  rewrite Hev. exact passing_full_boards.
Qed.

End within_budget.

(** X13.  The permutation baseline is a solver held back by its budget
    only.  Whenever the logging period is positive and the counters
    leave room for [19!] more attempts, [solve_manual_perm], with either
    validator, returns after exactly [19!] attempts and has handed to
    the sink the twelve magic boards of the raster labeling, in
    ascending lexicographic order, and nothing else. *)
Theorem manual_perm_within_budget (g : Counters) :
  0 < n_attempts_log_period g ->
  0 <= n_attempts g ->
  n_attempts g + 121645100408832000 < n_attempts_bail g ->
  n_attempts_bail g <= 2 ^ 64 ->
  (snd (solve_manual_perm CheckHardcoded.is_solution g)
   = Returned tt (attempts_added 121645100408832000 g)
   /\ consumed_boards (events (solve_manual_perm CheckHardcoded.is_solution g))
      = raster_solutions)
  /\ (snd (solve_manual_perm CheckVecOfVecs.is_solution g)
      = Returned tt (attempts_added 121645100408832000 g)
      /\ consumed_boards (events (solve_manual_perm CheckVecOfVecs.is_solution g))
         = raster_solutions).
Proof.
  intros _ Hn Hlen Hbail. rewrite <- zfact_19 in *.
  assert (Hvec : solve_manual_perm CheckVecOfVecs.is_solution g
                 = solve_manual_perm CheckHardcoded.is_solution g).
  { apply solve_check_when_full_ext. exact is_solution_vec_of_vecs. }
  rewrite Hvec.
  destruct (manual_perm_hardcoded_within_budget g Hn Hlen Hbail)
    as (ev & Hev & ->).
  split; split; [reflexivity | exact Hev | reflexivity | exact Hev].
Qed.

Lemma manual_perm_within_budget_witness :
  consumed_boards
    (events (solve_manual_perm CheckHardcoded.is_solution
               (mkCounters 0 10000000 1000000000000000000)))
  = raster_solutions.
Proof.
  exact (proj2 (proj1 (manual_perm_within_budget
                         (mkCounters 0 10000000 1000000000000000000)
                         ltac:(cbn [n_attempts_log_period]; lia)
                         ltac:(cbn [n_attempts]; lia)
                         ltac:(cbn [n_attempts n_attempts_bail]; lia)
                         ltac:(cbn [n_attempts_bail]; lia)))).
Defined.

(** ** [std::next_permutation] *)

Section next_permutation_facts.

Lemma zfact_pos n : 0 < zfact n.
Proof. induction n as [|n IH]; simpl zfact; lia. Qed.

Lemma zfact_S n : zfact (S n) = (Z.of_nat n + 1) * zfact n.
Proof. cbn [zfact]. lia. Qed.

Lemma count_lt_bounds x l : 0 <= count_lt x l <= Z.of_nat (length l).
Proof.
  induction l as [|y l IH]; cbn [count_lt length]; [lia|].
  destruct (y <? x); lia.
Qed.

Lemma count_lt_Permutation x l l' : l ≡ₚ l' -> count_lt x l = count_lt x l'.
Proof. induction 1; cbn [count_lt]; lia. Qed.

Lemma count_lt_all x l :
  Forall (fun y => y < x) l -> count_lt x l = Z.of_nat (length l).
Proof.
  induction 1 as [|y l Hy _ IH]; cbn [count_lt length]; [done|].
  destruct (Z.ltb_spec y x); lia.
Qed.

Lemma count_lt_none x l : Forall (fun y => x < y) l -> count_lt x l = 0.
Proof.
  induction 1 as [|y l Hy _ IH]; cbn [count_lt]; [done|].
  destruct (Z.ltb_spec y x); lia.
Qed.

Lemma count_lt_0 x l : count_lt x l = 0 -> Forall (fun y => x <= y) l.
Proof.
  induction l as [|y l IH]; cbn [count_lt]; [constructor|].
  pose proof (count_lt_bounds x l).
  destruct (Z.ltb_spec y x); [lia|]. intros Hc. constructor; [done|].
  apply IH. lia.
Qed.

Lemma rank_nonneg l : 0 <= rank l.
Proof.
  induction l as [|x l IH]; cbn [rank]; [lia|].
  pose proof (count_lt_bounds x l). pose proof (zfact_pos (length l)). nia.
Qed.

Lemma rank_descending l :
  StronglySorted Z.gt l -> rank l = zfact (length l) - 1.
Proof.
  induction 1 as [|x l _ IH Hx]; [done|].
  cbn [rank length]. rewrite zfact_S, IH, count_lt_all; [lia|].
  eapply Forall_impl; [exact Hx|]. intros y Hy. simpl in Hy. lia.
Qed.

Lemma rank_ascending l : StronglySorted Z.lt l -> rank l = 0.
Proof.
  induction 1 as [|x l _ IH Hx]; [done|].
  cbn [rank]. rewrite IH, count_lt_none; [lia|done].
Qed.

Lemma reverse_descending l :
  StronglySorted Z.gt l -> StronglySorted Z.lt (reverse l).
Proof.
  induction 1 as [|x l _ IH Hx]; [constructor|].
  rewrite reverse_cons. apply StronglySorted_app. split_and!.
  - intros a b Ha ->%list_elem_of_singleton. rewrite elem_of_reverse in Ha.
    eapply list.Forall_forall in Hx; [|exact Ha]. simpl in Hx. lia.
  - exact IH.
  - repeat constructor.
Qed.

Lemma swap_last_greater_None x l :
  swap_last_greater x l = None -> Forall (fun y => y <= x) l.
Proof.
  induction l as [|y l IH]; cbn [swap_last_greater]; [constructor|].
  destruct (swap_last_greater x l) as [[z l'']|]; [discriminate|].
  destruct (Z.ltb_spec x y); [discriminate|]. intros _.
  constructor; [lia|by apply IH].
Qed.

Lemma Forall_le_lt x l :
  x ∉ l -> Forall (fun y => y <= x) l -> Forall (fun y => y < x) l.
Proof.
  intros Hx Hl. apply list.Forall_forall. intros y Hy.
  eapply list.Forall_forall in Hl; [|exact Hy]. simpl in Hl.
  assert (y <> x) by (intros ->; done). lia.
Qed.

Lemma swap_last_greater_Some x l z l2 :
  StronglySorted Z.gt l -> x ∉ l -> swap_last_greater x l = Some (z, l2) ->
  x < z /\ z :: l2 ≡ₚ x :: l /\ StronglySorted Z.gt l2
  /\ count_lt z l2 = count_lt x l + 1.
Proof.
  intros Hs. revert z l2.
  induction Hs as [|y l Hs IH Hy]; intros z l2 Hx; [discriminate|].
  apply not_elem_of_cons in Hx as [Hxy Hx].
  cbn [swap_last_greater].
  destruct (swap_last_greater x l) as [[z' l'']|] eqn:E.
  - intros [= <- <-].
    destruct (IH z' l'' Hx eq_refl) as (Hxz & Hp & Hs2 & Hc).
    assert (Hz : z' ∈ l).
    { assert (z' ∈ x :: l) as [?|?]%elem_of_cons by (rewrite <- Hp; left);
        [lia|done]. }
    assert (Hyz : z' < y).
    { eapply list.Forall_forall in Hy; [|exact Hz]. simpl in Hy. lia. }
    split_and!.
    + done.
    + etrans; [apply Permutation_swap|]. rewrite Hp. apply Permutation_swap.
    + constructor; [done|]. apply list.Forall_forall. intros e He.
      assert (e ∈ x :: l) as [->|Hel]%elem_of_cons
        by (rewrite <- Hp; by right).
      * lia.
      * eapply list.Forall_forall in Hy; [exact Hy|done].
    + cbn [count_lt].
      destruct (Z.ltb_spec y z'); [lia|]. destruct (Z.ltb_spec y x); lia.
  - destruct (Z.ltb_spec x y) as [Hlt|]; [|discriminate]. intros [= <- <-].
    apply swap_last_greater_None in E.
    pose proof (Forall_le_lt x l Hx E) as Hbelow.
    split_and!.
    + done.
    + apply Permutation_swap.
    + constructor; [done|].
      eapply Forall_impl; [exact Hbelow|]. intros e He. simpl in He. lia.
    + cbn [count_lt].
      rewrite (count_lt_all x l Hbelow), (count_lt_all y l).
      * destruct (Z.ltb_spec x y); [|lia]. destruct (Z.ltb_spec y x); lia.
      * eapply Forall_impl; [exact Hy|]. intros e He. simpl in He. lia.
Qed.

Lemma swap_last_greater_lt x l z l2 :
  swap_last_greater x l = Some (z, l2) -> x < z.
Proof.
  revert z l2. induction l as [|y l IH]; intros z l2; [discriminate|].
  cbn [swap_last_greater].
  destruct (swap_last_greater x l) as [[z' l'']|].
  - intros [= <- <-]. by eapply IH.
  - destruct (Z.ltb_spec x y); [|discriminate]. by intros [= <- <-].
Qed.

(** What [next_arrangement] steps to is greater in the lexicographic
    order. *)
Lemma next_arrangement_lex l l' : next_arrangement l = Some l' -> lex_lt l l'.
Proof.
  revert l'. induction l as [|x l IH]; intros l'; [discriminate|].
  cbn [next_arrangement].
  destruct (next_arrangement l) as [l''|].
  - intros [= <-]. right. split; [done|]. by apply IH.
  - destruct (swap_last_greater x l) as [[z l'']|] eqn:E; [|discriminate].
    intros [= <-]. left. by eapply swap_last_greater_lt.
Qed.

Lemma next_arrangement_None l :
  NoDup l -> next_arrangement l = None -> StronglySorted Z.gt l.
Proof.
  induction l as [|x l IH]; [constructor|].
  intros [Hx Hnd]%NoDup_cons. cbn [next_arrangement].
  destruct (next_arrangement l); [discriminate|].
  destruct (swap_last_greater x l) as [[z l'']|] eqn:E; [discriminate|].
  intros _. constructor; [by apply IH|].
  apply swap_last_greater_None in E.
  eapply Forall_impl; [exact (Forall_le_lt x l Hx E)|].
  intros e He. simpl in He. lia.
Qed.

(** [next_arrangement] steps to the arrangement of the same values that
    is next in the order. *)
Lemma next_arrangement_Some l l' :
  NoDup l -> next_arrangement l = Some l' ->
  l' ≡ₚ l /\ rank l' = rank l + 1.
Proof.
  revert l'. induction l as [|x l IH]; intros l'; [discriminate|].
  intros [Hx Hnd]%NoDup_cons. cbn [next_arrangement].
  destruct (next_arrangement l) as [l''|] eqn:En.
  - intros [= <-]. destruct (IH l'' Hnd eq_refl) as [Hp Hr].
    split; [by rewrite Hp|]. cbn [rank].
    rewrite (count_lt_Permutation x l'' l Hp), Hr, (Permutation_length Hp). lia.
  - destruct (swap_last_greater x l) as [[z l'']|] eqn:E; [|discriminate].
    intros [= <-].
    pose proof (next_arrangement_None l Hnd En) as Hdesc.
    destruct (swap_last_greater_Some x l z l'' Hdesc Hx E)
      as (Hxz & Hp & Hs2 & Hc).
    assert (Hlen : length l'' = length l).
    { apply Permutation_length in Hp. simpl in Hp. lia. }
    split; [by rewrite reverse_Permutation|]. cbn [rank].
    rewrite (rank_ascending (reverse l'')) by by apply reverse_descending.
    rewrite (count_lt_Permutation z (reverse l'') l'')
      by apply reverse_Permutation.
    rewrite length_reverse, Hlen, Hc, (rank_descending l Hdesc). lia.
Qed.

End next_permutation_facts.

(** ** [solve_std_perm] under the attempt budget *)

Section std_perm_run.

(** The arrangements of 1..19 at the first [16!] places of the order
    start with 1, 2, 3. *)
Lemma low_rank_starts_1_2_3 b :
  b ≡ₚ iota_1_19 -> rank b < zfact 16 -> exists p, b = 1 :: 2 :: 3 :: p.
Proof.
  intros Hp Hr.
  destruct (Permutation_iota_facts b Hp) as (Hlen & Hnd & Hrange).
  destruct b as [|b0 [|b1 [|b2 p]]]; try discriminate Hlen.
  assert (Hlenp : length p = 16%nat) by (unfold N_Hexes in Hlen; simpl in Hlen; lia).
  cbn [rank length] in Hr. rewrite Hlenp in Hr.
  pose proof (count_lt_bounds b0 (b1 :: b2 :: p)) as [H0 _].
  pose proof (count_lt_bounds b1 (b2 :: p)) as [H1 _].
  pose proof (count_lt_bounds b2 p) as [H2 _].
  pose proof (rank_nonneg p) as Hrp.
  change (zfact 18) with 6402373705728000 in Hr.
  change (zfact 17) with 355687428096000 in Hr.
  change (zfact 16) with 20922789888000 in Hr.
  assert (Hc0 : count_lt b0 (b1 :: b2 :: p) = 0) by lia.
  assert (Hc1 : count_lt b1 (b2 :: p) = 0) by lia.
  assert (Hc2 : count_lt b2 p = 0) by lia.
  apply count_lt_0 in Hc0, Hc1, Hc2.
  apply NoDup_cons in Hnd as [Hn0 [Hn1 [Hn2 _]%NoDup_cons]%NoDup_cons].
  apply Forall_cons in Hrange as [Hr0 [Hr1 [Hr2 _]%Forall_cons]%Forall_cons].
  assert (Hin : forall v, v ∈ iota_1_19 -> v ∈ b0 :: b1 :: b2 :: p)
    by (intros v Hv; by rewrite Hp).
  assert (Hmin : forall v (l : list Z) x,
            v ∈ x :: l -> Forall (fun y => x <= y) l -> x <= v).
  { intros v l x [->|Hv]%elem_of_cons Hl; [lia|].
    eapply list.Forall_forall in Hl; [exact Hl|done]. }
  assert (b0 = 1) as ->.
  { pose proof (Hmin 1 _ _ (Hin 1 ltac:(apply (bool_decide_unpack _); reflexivity)) Hc0). lia. }
  assert (b1 = 2) as ->.
  { assert (2 ∈ 1 :: b1 :: b2 :: p) as [?|H2in]%elem_of_cons
      by (apply Hin; apply (bool_decide_unpack _); reflexivity); [lia|].
    pose proof (Hmin 2 _ _ H2in Hc1).
    assert (b1 <> 1) by (intros ->; apply Hn0; left). lia. }
  assert (b2 = 3) as ->.
  { assert (3 ∈ 1 :: 2 :: b2 :: p) as [?|[?|H3in]%elem_of_cons]%elem_of_cons
      by (apply Hin; apply (bool_decide_unpack _); reflexivity); [lia|lia|].
    pose proof (Hmin 3 _ _ H3in Hc2).
    assert (b2 <> 1) by (intros ->; apply Hn0; right; left).
    assert (b2 <> 2) by (intros ->; apply Hn1; left). lia. }
  by exists p.
Qed.

(** While the attempt budget ends within the first [16!] arrangements,
    the loop is ended by the budget; it has written the lines of the
    validator and no board. *)
Lemma solve_std_perm_loop_exhausts fuel board g :
  board ≡ₚ iota_1_19 ->
  0 < n_attempts_log_period g ->
  0 <= n_attempts g < n_attempts_bail g ->
  n_attempts_bail g < 2 ^ 64 ->
  rank board + (n_attempts_bail g - n_attempts g) <= zfact 16 ->
  n_attempts_bail g - n_attempts g <= Z.of_nat fuel ->
  solve_std_perm_loop CheckHardcoded.is_solution fuel board g
  = (budget_trace g, Exited).
Proof.
  revert board g.
  induction fuel as [|fuel IH]; intros board g Hp Hper Hn Hbail Hr Hfuel; [lia|].
  cbn [solve_std_perm_loop]. rewrite run_bind_eq.
  rewrite (is_solution_run board g) by lia.
  rewrite (budget_trace_step g) by lia.
  destruct (Z.eqb_spec (n_attempts g + 1) (n_attempts_bail g)) as [Heq|Hne].
  { reflexivity. }
  destruct (low_rank_starts_1_2_3 board Hp) as [p Hb]; [lia|].
  assert (Hrej : CheckHardcoded.raster_lines_ok board = false).
  { rewrite Hb. reflexivity. }
  rewrite Hrej. rewrite run_ret_bind.
  unfold next_permutation.
  destruct (Permutation_iota_facts board Hp) as (Hlen & Hnd & _).
  destruct (next_arrangement board) as [board'|] eqn:En.
  - destruct (next_arrangement_Some board board' Hnd En) as [Hp' Hr'].
    rewrite (IH board' (attempts_added 1 g)).
    + by rewrite app_nil_r.
    + by rewrite Hp'.
    + done.
    + unfold attempts_added. cbn [n_attempts n_attempts_bail]. lia.
    + done.
    + unfold attempts_added. cbn [n_attempts n_attempts_bail]. lia.
    + unfold attempts_added. cbn [n_attempts n_attempts_bail]. lia.
  - apply (next_arrangement_None board Hnd) in En.
    apply rank_descending in En. rewrite Hlen, zfact_19 in En.
    change (zfact 16) with 20922789888000 in Hr. lia.
Qed.

Lemma solve_std_perm_loop_ext Check1 Check2 fuel board g :
  (forall b' g', Check1 b' g' = Check2 b' g') ->
  solve_std_perm_loop Check1 fuel board g
  = solve_std_perm_loop Check2 fuel board g.
Proof.
  intros Heq. revert board g. induction fuel as [|fuel IH]; intros board g; [done|].
  cbn [solve_std_perm_loop]. rewrite !run_bind_eq, Heq.
  destruct (Check2 board g) as [ev [ok g'|]]; [|done].
  rewrite !run_bind_eq.
  destruct ((if ok then dump board else mret tt) g') as [ev1 [[] g1|]]; [|done].
  destruct (next_permutation board) as [[] board']; [|done].
  by rewrite IH.
Qed.

Lemma rank_iota_1_19 : rank iota_1_19 = 0.
Proof.
  apply rank_ascending, (reachable_sorted BoardState.initial),
    BoardState.reachable_initial.
Qed.

(** The counters of [solve_std_perm]. *)
Lemma std_perm_hardcoded_run :
  solve_std_perm CheckHardcoded.is_solution initial_counters
  = (budget_trace (mkCounters 0 250000000 2500000000), Exited).
Proof.
  unfold solve_std_perm. rewrite run_bind_eq.
  change (set_budget 250000000 2500000000 initial_counters)
    with (@nil Event, Returned tt (mkCounters 0 250000000 2500000000)).
  cbv beta iota.
  rewrite (solve_std_perm_loop_exhausts (Z.to_nat (zfact N_Hexes)) iota_1_19
             (mkCounters 0 250000000 2500000000)).
  - reflexivity.
  - reflexivity.
  - cbn [n_attempts_log_period]. lia.
  - cbn [n_attempts n_attempts_bail]. lia.
  - cbn [n_attempts n_attempts_bail]. lia.
  - rewrite rank_iota_1_19. cbn [n_attempts n_attempts_bail].
    change (zfact 16) with 20922789888000. lia.
  - rewrite zfact_19. cbn [n_attempts n_attempts_bail]. lia.
Qed.

Lemma std_perm_vec_of_vecs_run :
  solve_std_perm CheckVecOfVecs.is_solution initial_counters
  = (budget_trace (mkCounters 0 250000000 2500000000), Exited).
Proof.
  rewrite <- std_perm_hardcoded_run.
  unfold solve_std_perm. apply run_bind_ext. intros _ g.
  apply solve_std_perm_loop_ext. exact is_solution_vec_of_vecs.
Qed.

Lemma budget_trace_std_perm :
  budget_trace (mkCounters 0 250000000 2500000000)
  = (AttemptsLogged
       <$> [250000000; 500000000; 750000000; 1000000000; 1250000000;
            1500000000; 1750000000; 2000000000; 2250000000; 2500000000])
    ++ [Stopping].
Proof. reflexivity. Qed.

Lemma rank_upper l : rank l < zfact (length l).
Proof.
  induction l as [|x l IH]; [done|].
  cbn [rank length]. rewrite zfact_S.
  pose proof (count_lt_bounds x l). pose proof (zfact_pos (length l)). nia.
Qed.

(** The loop leaves by itself after the last arrangement: more fuel
    than there are arrangements left changes nothing. *)
Lemma solve_std_perm_loop_fuel_enough Check fuel1 fuel2 board g :
  NoDup board ->
  zfact (length board) - rank board <= Z.of_nat fuel1 ->
  zfact (length board) - rank board <= Z.of_nat fuel2 ->
  solve_std_perm_loop Check fuel1 board g
  = solve_std_perm_loop Check fuel2 board g.
Proof.
  revert fuel2 board g.
  induction fuel1 as [|fuel1 IH]; intros fuel2 board g Hnd H1 H2.
  { pose proof (rank_upper board). lia. }
  destruct fuel2 as [|fuel2]; [pose proof (rank_upper board); lia|].
  cbn [solve_std_perm_loop].
  apply run_bind_ext. intros ok g1. apply run_bind_ext. intros _ g2.
  unfold next_permutation.
  destruct (next_arrangement board) as [board'|] eqn:En; [|done].
  destruct (next_arrangement_Some board board' Hnd En) as [Hp' Hr'].
  apply IH.
  - by rewrite Hp'.
  - rewrite (Permutation_length Hp'). lia.
  - rewrite (Permutation_length Hp'). lia.
Qed.

End std_perm_run.

(** X14.  The two strategies built on [solve_std_perm] never get to a
    solution either.  [solve_std_perm] sets the logging period to
    250000000 and the attempt budget to 2500000000; its loop over
    [std::next_permutation], started from 1..19, writes the ten lines of
    the attempt count and is then stopped by the budget, and no board
    has been written.  The arrangements reached up to then are among
    the first [16!] in lexicographic order and all start with 1, 2,
    3. *)
Theorem std_perm_stops_empty_handed :
  let trace :=
    (AttemptsLogged
       <$> [250000000; 500000000; 750000000; 1000000000; 1250000000;
            1500000000; 1750000000; 2000000000; 2250000000; 2500000000])
    ++ [Stopping] in
  solve_std_perm CheckHardcoded.is_solution initial_counters = (trace, Exited)
  /\ solve_std_perm CheckVecOfVecs.is_solution initial_counters
     = (trace, Exited).
Proof.
  cbv zeta. rewrite <- budget_trace_std_perm.
  split; [exact std_perm_hardcoded_run | exact std_perm_vec_of_vecs_run].
Qed.

(** ** The strategy table and [main] *)

Section main_facts.

Lemma main_runs prog label solve_fun g :
  find_strategy label strategies = Some solve_fun ->
  main [prog; label] g = (solve_fun;; mret ([], 0)) g.
Proof. intros Hfind. unfold main. by rewrite Hfind. Qed.

Lemma find_strategy_here label solve_fun strats :
  find_strategy label (mkStrategyOption label solve_fun :: strats)
  = Some solve_fun.
Proof. cbn [find_strategy arg solve]. by rewrite String.eqb_refl. Qed.

Lemma find_strategy_skip label other solve_fun strats :
  label <> other ->
  find_strategy label (mkStrategyOption other solve_fun :: strats)
  = find_strategy label strats.
Proof.
  intros Hne. cbn [find_strategy arg solve].
  by destruct (String.eqb_spec label other).
Qed.

Ltac find_in_table :=
  unfold strategies;
  repeat (rewrite find_strategy_skip by discriminate);
  apply find_strategy_here.

Lemma find_manual_perm_vec_vecs :
  find_strategy "manual-perm-vec-vecs-check" strategies
  = Some (solve_manual_perm CheckVecOfVecs.is_solution).
Proof. find_in_table. Qed.

Lemma find_manual_perm_hardcoded :
  find_strategy "manual-perm-hardcoded-check" strategies
  = Some (solve_manual_perm CheckHardcoded.is_solution).
Proof. find_in_table. Qed.

Lemma find_stdlib_perm_vec_vecs :
  find_strategy "stdlib-perm-vec-vecs-check" strategies
  = Some (solve_std_perm CheckVecOfVecs.is_solution).
Proof. find_in_table. Qed.

Lemma find_stdlib_perm_hardcoded :
  find_strategy "stdlib-perm-hardcoded-check" strategies
  = Some (solve_std_perm CheckHardcoded.is_solution).
Proof. find_in_table. Qed.

Lemma find_line_by_line :
  find_strategy "line-by-line-check" strategies
  = Some (solve_test_line_by_line_run Raster).
Proof. find_in_table. Qed.

Lemma find_line_by_line_spiral :
  find_strategy "line-by-line-check-spiral" strategies
  = Some (solve_test_line_by_line_run Spiral).
Proof. find_in_table. Qed.

Lemma find_deduce :
  find_strategy "deduce" strategies
  = Some solve_deduce_last_cell_of_line_strategy.
Proof. find_in_table. Qed.

Lemma find_deduce_array :
  find_strategy "deduce-array" strategies
  = Some (solve_deduce_last_cell_of_line_array_run CreateNew).
Proof. find_in_table. Qed.

Lemma find_deduce_array_swap :
  find_strategy "deduce-array-swap" strategies
  = Some (solve_deduce_last_cell_of_line_array_run SwapAndSwapBack).
Proof. find_in_table. Qed.

Lemma find_strategy_None label strats :
  label ∉ arg <$> strats -> find_strategy label strats = None.
Proof.
  induction strats as [|strat strats IH]; [done|].
  rewrite fmap_cons, not_elem_of_cons. intros [Hne Hnot].
  cbn [find_strategy]. destruct (String.eqb_spec label (arg strat)); [done|].
  by apply IH.
Qed.

Lemma for_each_dump boards g :
  for_each boards dump g = (Consumed <$> boards, Returned tt g).
Proof.
  revert g. induction boards as [|b boards IH]; intros g; [done|].
  cbn [for_each]. rewrite run_bind_eq. unfold dump at 1, emit. by rewrite IH.
Qed.

Lemma for_each_ignore {A} (xs : list A) (body : A -> Run unit) g :
  (forall x g', body x g' = ([], Returned tt g')) ->
  for_each xs body g = ([], Returned tt g).
Proof.
  intros Hbody. induction xs as [|x xs IH]; [done|].
  cbn [for_each]. by rewrite run_bind_eq, Hbody, IH.
Qed.

Lemma exited_run {A} (m : Run unit) (k : Run A) g ev :
  m g = (ev, Exited) -> (m;; k) g = (ev, Exited).
Proof. intros Hm. by rewrite run_bind_eq, Hm. Qed.

Lemma line_by_line_run_output fo boards g :
  solve_test_line_by_line fo = boards ->
  solve_test_line_by_line_run fo g = (Consumed <$> boards, Returned tt g).
Proof. intros <-. apply for_each_dump. Qed.

Lemma array_run_output rs g :
  solve_deduce_last_cell_of_line_array_run rs g
  = (Consumed <$> solve_deduce_last_cell_of_line_array rs, Returned tt g).
Proof.
  unfold solve_deduce_last_cell_of_line_array_run. rewrite run_bind_eq.
  rewrite for_each_ignore.
  - rewrite for_each_dump. reflexivity.
  - intros _ g'. apply for_each_ignore. reflexivity.
Qed.

Lemma returned_run (m : Run unit) g ev g' :
  m g = (ev, Returned tt g') ->
  (m;; mret ([], 0)) g = (ev, Returned (@nil string, 0) g').
Proof.
  intros Hm. rewrite run_bind_eq, Hm. cbn. by rewrite app_nil_r.
Qed.

Lemma main_stopped prog label solve_fun ev :
  find_strategy label strategies = Some solve_fun ->
  solve_fun initial_counters = (ev, Exited) ->
  main [prog; label] initial_counters = (ev, Exited).
Proof.
  intros Hfind Hrun.
  rewrite (main_runs prog label solve_fun initial_counters Hfind).
  exact (exited_run solve_fun (mret ([], 0)) initial_counters ev Hrun).
Qed.

Lemma main_written prog label solve_fun boards g :
  find_strategy label strategies = Some solve_fun ->
  solve_fun initial_counters = (Consumed <$> boards, Returned tt g) ->
  main [prog; label] initial_counters
  = (Consumed <$> boards, Returned ([], 0) g).
Proof.
  intros Hfind Hrun.
  rewrite (main_runs prog label solve_fun initial_counters Hfind).
  exact (returned_run solve_fun initial_counters _ g Hrun).
Qed.

End main_facts.

(** X15.  What the program does for each label of the strategy table,
    whatever [argv[0]] is.  The four permutation strategies write the
    ten lines of the attempt count (every 10000000 attempts for the
    manual ones, every 250000000 for those on the standard library) and
    are then stopped by the attempt budget without having written a
    board.  The two line-by-line strategies write the twelve magic
    boards of their labeling in ascending order and [main] returns 0.
    [deduce] writes nothing and returns 0 after 1200 attempts.  The two
    array strategies write the twelve magic boards of the spiral
    labeling, each once, and return 0. *)
Theorem main_outcomes (prog : string) :
  let stopped label period :=
    main [prog; label] initial_counters
    = ((AttemptsLogged <$> ((fun k => k * period) <$> seqZ 1 10))
         ++ [Stopping], Exited) in
  let written label boards g :=
    main [prog; label] initial_counters
    = (Consumed <$> boards, Returned ([], 0) g) in
  stopped "manual-perm-vec-vecs-check"%string 10000000
  /\ stopped "manual-perm-hardcoded-check"%string 10000000
  /\ stopped "stdlib-perm-vec-vecs-check"%string 250000000
  /\ stopped "stdlib-perm-hardcoded-check"%string 250000000
  /\ written "line-by-line-check"%string raster_solutions initial_counters
  /\ written "line-by-line-check-spiral"%string spiral_solutions initial_counters
  /\ written "deduce"%string [] (mkCounters 1200 10000000 100000000)
  /\ (exists boards, boards ≡ₚ spiral_solutions
        /\ written "deduce-array"%string boards initial_counters)
  /\ (exists boards, boards ≡ₚ spiral_solutions
        /\ written "deduce-array-swap"%string boards initial_counters).
Proof.
  intros stopped written. subst stopped written. cbv beta.
  split; [exact (main_stopped prog _ _ _ find_manual_perm_vec_vecs
                   manual_perm_vec_of_vecs_run)|].
  split; [exact (main_stopped prog _ _ _ find_manual_perm_hardcoded
                   manual_perm_hardcoded_run)|].
  split; [exact (main_stopped prog _ _ _ find_stdlib_perm_vec_vecs
                   std_perm_vec_of_vecs_run)|].
  split; [exact (main_stopped prog _ _ _ find_stdlib_perm_hardcoded
                   std_perm_hardcoded_run)|].
  split.
  { exact (main_written prog _ _ raster_solutions initial_counters
             find_line_by_line
             (line_by_line_run_output Raster raster_solutions initial_counters
                line_by_line_raster_output)). }
  split.
  { exact (main_written prog _ _ spiral_solutions initial_counters
             find_line_by_line_spiral
             (line_by_line_run_output Spiral spiral_solutions initial_counters
                line_by_line_spiral_output)). }
  split.
  { exact (main_written prog _ _ [] (mkCounters 1200 10000000 100000000)
             find_deduce deduce_strategy_run). }
  split.
  - exists (solve_deduce_last_cell_of_line_array CreateNew).
    split; [exact (deduce_array_run CreateNew)|].
    exact (main_written prog _ _ _ initial_counters find_deduce_array
             (array_run_output CreateNew initial_counters)).
  - exists (solve_deduce_last_cell_of_line_array SwapAndSwapBack).
    split; [exact (deduce_array_run SwapAndSwapBack)|].
    exact (main_written prog _ _ _ initial_counters find_deduce_array_swap
             (array_run_output SwapAndSwapBack initial_counters)).
Qed.

(** X16.  Every other call of the program runs no strategy: with a
    number of arguments other than one, or with an argument that is not
    a label of the table, [main] lists the nine labels on standard
    error and returns 1, and the attempt counters are as they were. *)
Theorem main_rejects_other_arguments (argv : list string) (g : Counters) :
  (forall prog label, argv = [prog; label] -> label ∉ arg <$> strategies) ->
  main argv g = ([], Returned (arg <$> strategies, 1) g).
Proof.
  intros Hbad. unfold main.
  destruct argv as [|prog [|label [|]]]; try reflexivity.
  by rewrite (find_strategy_None label strategies (Hbad prog label eq_refl)).
Qed.

Lemma main_rejects_other_arguments_witness :
  main ["solve-hex"%string] initial_counters
  = ([], Returned (arg <$> strategies, 1) initial_counters).
Proof.
  apply main_rejects_other_arguments. intros prog label [=].
Defined.
